(** * The resilient cache layer of express-hexagonal-template

    A shallow embedding of [src/infrastructure/cache/cacheService.ts]:
    the in-process [CacheService] (a wrapper around the node-cache
    library) and the network-backed [RedisCache] with its connection
    state machine, retry timeouts and periodic-reconnection interval.

    Asynchronous code is modelled by explicit state passing over a
    [World]: the fields of the [RedisCache] instance, the timers of the
    Node.js runtime, the redis client and the server behind it, and a
    timestamped trace of the calls made on the client and on the logger.
    An [async] method is split at its [await]: the part that runs at the
    call, and the continuation that runs when the promise settles. *)

From Stdlib Require Import ZArith Lia DecimalString.
From stdpp Require Import gmap strings list fin_maps pretty.

Open Scope Z_scope.

(** ** JavaScript values and JSON *)

(** The values that travel through the cache.  The scalar fragment is
    enough for this program: the cache never inspects a value, it only
    compares it with [null] or [undefined] and hands it to JSON. *)
Inductive JsValue : Type :=
  | JsUndefined
  | JsNull
  | JsBool (b : bool)
  | JsNum (n : Z).

Global Instance JsValue_eq_dec : EqDecision JsValue.
Proof. solve_decision. Defined.

(** What an awaited call or a callback does: it returns, or it throws
    (a rejected promise is a throw at the [await]). *)
Inductive Outcome (A : Type) : Type :=
  | Returned (a : A)
  | Threw.
Arguments Returned {A} a.
Arguments Threw {A}.

(** The runtime's JSON codec, as the cache uses it.  [parse] returns
    [None] where [JSON.parse] throws a [SyntaxError]; [stringify] returns
    [None] where [JSON.stringify] returns [undefined]. *)
Record JsonCodec : Type := {
  parse : string -> option JsValue;
  stringify : JsValue -> option string
}.

Module JSON.

Definition parse_int (s : string) : option JsValue :=
  match NilZero.int_of_string s with
  | Some i =>
      let n := Z.of_int i in
      if String.eqb (pretty n) s then Some (JsNum n) else None
  | None => None
  end.

(** [JSON.parse] on the literals [null], [true], [false] and the
    integers in canonical decimal form. *)
Definition parse_scalar (s : string) : option JsValue :=
  if String.eqb s "null" then Some JsNull
  else if String.eqb s "true" then Some (JsBool true)
  else if String.eqb s "false" then Some (JsBool false)
  else parse_int s.

Definition stringify_scalar (v : JsValue) : option string :=
  match v with
  | JsUndefined => None
  | JsNull => Some "null"%string
  | JsBool true => Some "true"%string
  | JsBool false => Some "false"%string
  | JsNum n => Some (pretty n)
  end.

Definition scalar : JsonCodec :=
  {| parse := parse_scalar; stringify := stringify_scalar |}.

End JSON.

(** ** Traces *)

Inductive Level : Type := Info | Warn | Error.

(** The messages the program logs, one constructor per call site. *)
Inductive LogMsg : Type :=
  | MsgClientError                 (* 'Redis client error' *)
  | MsgConnected                   (* 'Redis connected successfully' *)
  | MsgReconnecting                (* 'Attempting to reconnect to Redis...' *)
  | MsgMaxAttempts                 (* 'Max Redis connection attempts reached, will retry later' *)
  | MsgAttemptFailed (attempt : nat) (retry_in_s : Z)
  | MsgGetFailed (key : string)    (* 'Redis get operation failed' *)
  | MsgSetFailed (key : string)    (* 'Redis set operation failed' *)
  | MsgDeleteFailed (key : string) (* 'Redis delete operation failed' *)
  | MsgExistsFailed (key : string) (* 'Redis exists operation failed' *)
  | MsgFlushFailed.                (* 'Redis flush operation failed' *)

(** Every call the program makes on a redis client handle. *)
Inductive ClientCall : Type :=
  | NewClient                      (* createClient({url}) *)
  | ClientOn (event : string)      (* client.on(event, handler) *)
  | ClientConnect
  | ClientQuit
  | ClientGet (key : string)
  | ClientSetEx (key : string) (seconds : Z) (data : option string)
  | ClientDel (key : string)
  | ClientExists (key : string)
  | ClientFlushAll.

Inductive Event : Type :=
  | EvLog (lvl : Level) (msg : LogMsg)
  | EvClient (call : ClientCall).

Global Instance Level_eq_dec : EqDecision Level.
Proof. solve_decision. Defined.
Global Instance LogMsg_eq_dec : EqDecision LogMsg.
Proof. solve_decision. Defined.
Global Instance ClientCall_eq_dec : EqDecision ClientCall.
Proof. solve_decision. Defined.
Global Instance Event_eq_dec : EqDecision Event.
Proof. solve_decision. Defined.

(** ** The Node.js timer heap *)

Inductive Callback : Type :=
  | CbConnect          (* () => this.connect() *)
  | CbReconnectTick.   (* the arrow function passed to setInterval *)

(** [period = None] for a [setTimeout] timer, [Some ms] for a
    [setInterval] timer.  Times are in milliseconds. *)
Record Timer : Type := mkTimer {
  due : Z;
  period : option Z;
  callback : Callback
}.

Global Instance Callback_eq_dec : EqDecision Callback.
Proof. solve_decision. Defined.
Global Instance Timer_eq_dec : EqDecision Timer.
Proof. solve_decision. Defined.

(** ** The world of a [RedisCache] instance *)

Record World : Type := mkWorld {
  (* fields of the instance *)
  isAvailable : bool;
  connectionAttempts : nat;
  reconnectionTimer : option nat;
  (* the runtime *)
  now : Z;
  timers : gmap nat Timer;
  nextTimer : nat;
  (* the client held in [this.client] and the server behind it *)
  clientsCreated : nat;
  isOpen : bool;
  inflight : nat;                      (* connect() promises not yet settled *)
  backing : gmap string (string * Z);  (* key |-> (text, expiry time) *)
  (* what has happened, newest first *)
  trace : list (Z * Event)
}.

Definition with_isAvailable (b : bool) (w : World) : World :=
  mkWorld b (connectionAttempts w) (reconnectionTimer w) (now w) (timers w)
          (nextTimer w) (clientsCreated w) (isOpen w) (inflight w) (backing w) (trace w).
Definition with_connectionAttempts (n : nat) (w : World) : World :=
  mkWorld (isAvailable w) n (reconnectionTimer w) (now w) (timers w)
          (nextTimer w) (clientsCreated w) (isOpen w) (inflight w) (backing w) (trace w).
Definition with_reconnectionTimer (r : option nat) (w : World) : World :=
  mkWorld (isAvailable w) (connectionAttempts w) r (now w) (timers w)
          (nextTimer w) (clientsCreated w) (isOpen w) (inflight w) (backing w) (trace w).
Definition with_now (t : Z) (w : World) : World :=
  mkWorld (isAvailable w) (connectionAttempts w) (reconnectionTimer w) t (timers w)
          (nextTimer w) (clientsCreated w) (isOpen w) (inflight w) (backing w) (trace w).
Definition with_timers (ts : gmap nat Timer) (w : World) : World :=
  mkWorld (isAvailable w) (connectionAttempts w) (reconnectionTimer w) (now w) ts
          (nextTimer w) (clientsCreated w) (isOpen w) (inflight w) (backing w) (trace w).
Definition with_nextTimer (n : nat) (w : World) : World :=
  mkWorld (isAvailable w) (connectionAttempts w) (reconnectionTimer w) (now w) (timers w)
          n (clientsCreated w) (isOpen w) (inflight w) (backing w) (trace w).
Definition with_clientsCreated (n : nat) (w : World) : World :=
  mkWorld (isAvailable w) (connectionAttempts w) (reconnectionTimer w) (now w) (timers w)
          (nextTimer w) n (isOpen w) (inflight w) (backing w) (trace w).
Definition with_isOpen (b : bool) (w : World) : World :=
  mkWorld (isAvailable w) (connectionAttempts w) (reconnectionTimer w) (now w) (timers w)
          (nextTimer w) (clientsCreated w) b (inflight w) (backing w) (trace w).
Definition with_inflight (n : nat) (w : World) : World :=
  mkWorld (isAvailable w) (connectionAttempts w) (reconnectionTimer w) (now w) (timers w)
          (nextTimer w) (clientsCreated w) (isOpen w) n (backing w) (trace w).
Definition with_backing (m : gmap string (string * Z)) (w : World) : World :=
  mkWorld (isAvailable w) (connectionAttempts w) (reconnectionTimer w) (now w) (timers w)
          (nextTimer w) (clientsCreated w) (isOpen w) (inflight w) m (trace w).
Definition with_trace (tr : list (Z * Event)) (w : World) : World :=
  mkWorld (isAvailable w) (connectionAttempts w) (reconnectionTimer w) (now w) (timers w)
          (nextTimer w) (clientsCreated w) (isOpen w) (inflight w) (backing w) tr.

Definition emit (e : Event) (w : World) : World :=
  with_trace ((now w, e) :: trace w) w.

Definition log (lvl : Level) (msg : LogMsg) (w : World) : World :=
  emit (EvLog lvl msg) w.

Definition is_client_call (e : Z * Event) : bool :=
  match e.2 with EvClient _ => true | EvLog _ _ => false end.

(** The calls made on client handles so far. *)
Definition client_calls (w : World) : list (Z * Event) :=
  List.filter is_client_call (trace w).

(** Timers of the runtime.  Node fires a timer at or after its due time,
    never before. *)
Module Timers.

Definition setTimeout (cb : Callback) (delay : Z) (w : World) : World :=
  with_nextTimer (S (nextTimer w))
    (with_timers (<[nextTimer w := mkTimer (now w + delay) None cb]> (timers w)) w).

(** Returns the handle together with the world. *)
Definition setInterval (cb : Callback) (ms : Z) (w : World) : nat * World :=
  (nextTimer w,
   with_nextTimer (S (nextTimer w))
     (with_timers (<[nextTimer w := mkTimer (now w + ms) (Some ms) cb]> (timers w)) w)).

Definition clearInterval (id : nat) (w : World) : World :=
  with_timers (base.delete id (timers w)) w.

End Timers.

(** The redis client held in [this.client]. *)
Module Client.

(** Modelled from the spec: the redis client library and the server are
    not part of the sources.  The spec's backing key-value service offers
    connect, get-by-key, set-with-expiry, delete-by-key, exists-by-key,
    flush-all and graceful close; an entry is visible until its expiry
    time.  Each awaited command takes [fault]: whether this one call
    fails (times out, is rejected) although the client is connected.  A
    failed command leaves the server's data as it was. *)
Definition live (w : World) (key : string) : option string :=
  match backing w !! key with
  | Some (data, expiry) => if now w <? expiry then Some data else None
  | None => None
  end.

Definition count (o : option string) : Z :=
  match o with Some _ => 1 | None => 0 end.

Definition get (key : string) (fault : bool) (w : World) : Outcome (option string) * World :=
  let w := emit (EvClient (ClientGet key)) w in
  if fault then (Threw, w) else (Returned (live w key), w).

(** SETEX rejects a non-positive expiry, and the client rejects an
    argument that is not a string. *)
Definition setEx (key : string) (seconds : Z) (data : option string) (fault : bool)
    (w : World) : Outcome unit * World :=
  let w := emit (EvClient (ClientSetEx key seconds data)) w in
  match data with
  | Some text =>
      if fault || (seconds <=? 0) then (Threw, w)
      else (Returned tt, with_backing (<[key := (text, now w + seconds * 1000)]> (backing w)) w)
  | None => (Threw, w)
  end.

Definition del (key : string) (fault : bool) (w : World) : Outcome Z * World :=
  let w := emit (EvClient (ClientDel key)) w in
  if fault then (Threw, w)
  else (Returned (count (live w key)),
        with_backing (base.delete key (backing w)) w).

Definition exists_ (key : string) (fault : bool) (w : World) : Outcome Z * World :=
  let w := emit (EvClient (ClientExists key)) w in
  if fault then (Threw, w) else (Returned (count (live w key)), w).

Definition flushAll (fault : bool) (w : World) : Outcome unit * World :=
  let w := emit (EvClient ClientFlushAll) w in
  if fault then (Threw, w) else (Returned tt, with_backing ∅ w).

(** [client.connect()] opens the socket and returns a promise. *)
Definition connect (w : World) : World :=
  with_inflight (S (inflight w)) (with_isOpen true (emit (EvClient ClientConnect) w)).

Definition quit (ok : bool) (w : World) : Outcome unit * World :=
  let w := emit (EvClient ClientQuit) w in
  if ok then (Returned tt, with_isOpen false w) else (Threw, w).

End Client.

(** ** class RedisCache *)

Module RedisCache.

Definition defaultTtl : Z := 3600.
Definition maxConnectionAttempts : nat := 3.
Definition connectionRetryDelay : Z := 5000.
Definition reconnectionInterval : Z := 30000.

Definition createRedisClient (w : World) : World :=
  with_clientsCreated (S (clientsCreated w))
    (with_isOpen false (emit (EvClient NewClient) w)).

(** The two handlers are [onError] and [onConnect] below; registering
    them is a call on the client. *)
Definition setupEventListeners (w : World) : World :=
  emit (EvClient (ClientOn "connect")) (emit (EvClient (ClientOn "error")) w).

Definition startReconnection (w : World) : World :=
  match reconnectionTimer w with
  | None =>
      let '(id, w) := Timers.setInterval CbReconnectTick reconnectionInterval w in
      with_reconnectionTimer (Some id) w
  | Some _ => w
  end.

Definition stopReconnectionTimer (w : World) : World :=
  match reconnectionTimer w with
  | Some id => with_reconnectionTimer None (Timers.clearInterval id w)
  | None => w
  end.

(** [connect()] up to its [await this.client.connect()]. *)
Definition connect (w : World) : World :=
  if (maxConnectionAttempts <=? connectionAttempts w)%nat then
    startReconnection (log Warn MsgMaxAttempts w)
  else
    let w := with_connectionAttempts (S (connectionAttempts w)) w in
    let w := if negb (isOpen w) then setupEventListeners (createRedisClient w) else w in
    Client.connect w.

(** [connect()] after the [await], when the promise resolved. *)
Definition connect_resolved (w : World) : World :=
  log Info MsgConnected (with_isAvailable true w).

(** [connect()] in its [catch], when the promise rejected. *)
Definition connect_rejected (w : World) : World :=
  let w := with_isAvailable false w in
  if (connectionAttempts w <? maxConnectionAttempts)%nat then
    Timers.setTimeout CbConnect connectionRetryDelay
      (log Warn (MsgAttemptFailed (connectionAttempts w) (connectionRetryDelay / 1000)) w)
  else
    startReconnection (log Warn MsgMaxAttempts w).

(** The handler of the client's 'error' event. *)
Definition onError (w : World) : World :=
  if isAvailable w then
    startReconnection (with_isAvailable false (log Error MsgClientError w))
  else w.

(** The handler of the client's 'connect' event. *)
Definition onConnect (w : World) : World :=
  log Info MsgConnected
    (stopReconnectionTimer (with_connectionAttempts 0%nat (with_isAvailable true w))).

(** The callback of the reconnection interval. *)
Definition reconnectTick (w : World) : World :=
  if negb (isAvailable w) then
    connect (with_connectionAttempts 0%nat (log Info MsgReconnecting w))
  else w.

Definition run_callback (cb : Callback) (w : World) : World :=
  match cb with
  | CbConnect => connect w
  | CbReconnectTick => reconnectTick w
  end.

(** [disconnect()]: [quit_ok] tells whether [client.quit()] resolves.
    Either way the method returns normally: the [catch] is empty. *)
Definition disconnect (quit_ok : bool) (w : World) : Outcome unit * World :=
  let w := stopReconnectionTimer w in
  let '(_, w) := Client.quit quit_ok w in
  (Returned tt, w).

(** The constructor, on a fresh instance at time 0 in front of a server
    holding [srv]. *)
Definition fresh (srv : gmap string (string * Z)) : World :=
  mkWorld false 0%nat None 0 ∅ 0%nat 0%nat false 0%nat srv [].

Definition constructor (srv : gmap string (string * Z)) : World :=
  connect (setupEventListeners (createRedisClient (fresh srv))).

Section Operations.

Variable JSON : JsonCodec.

(** [!data] for [data : string | null]. *)
Definition falsy (data : option string) : bool :=
  match data with
  | None => true
  | Some text => String.eqb text ""
  end.

Definition get (key : string) (fault : bool) (w : World) : JsValue * World :=
  if negb (isAvailable w) then (JsNull, w)
  else
    match Client.get key fault w with
    | (Returned data, w) =>
        if falsy data then (JsNull, w)
        else
          match parse JSON (default ""%string data) with
          | Some v => (v, w)
          | None => (JsNull, log Warn (MsgGetFailed key) w)
          end
    | (Threw, w) => (JsNull, log Warn (MsgGetFailed key) w)
    end.

(** [ttl || this.defaultTtl] for [ttl : number | undefined]. *)
Definition expiry_of (ttl : option Z) : Z :=
  match ttl with
  | Some t => if t =? 0 then defaultTtl else t
  | None => defaultTtl
  end.

Definition set (key : string) (value : JsValue) (ttl : option Z) (fault : bool)
    (w : World) : bool * World :=
  if negb (isAvailable w) then (false, w)
  else
    let expiry := expiry_of ttl in
    match Client.setEx key expiry (stringify JSON value) fault w with
    | (Returned _, w) => (true, w)
    | (Threw, w) => (false, log Warn (MsgSetFailed key) w)
    end.

Definition delete (key : string) (fault : bool) (w : World) : bool * World :=
  if negb (isAvailable w) then (false, w)
  else
    match Client.del key fault w with
    | (Returned _, w) => (true, w)
    | (Threw, w) => (false, log Warn (MsgDeleteFailed key) w)
    end.

Definition has (key : string) (fault : bool) (w : World) : bool * World :=
  if negb (isAvailable w) then (false, w)
  else
    match Client.exists_ key fault w with
    | (Returned n, w) => (n =? 1, w)
    | (Threw, w) => (false, log Warn (MsgExistsFailed key) w)
    end.

Definition flush (fault : bool) (w : World) : Outcome unit * World :=
  if negb (isAvailable w) then (Returned tt, w)
  else
    match Client.flushAll fault w with
    | (Returned _, w) => (Returned tt, w)
    | (Threw, w) => (Returned tt, log Warn MsgFlushFailed w)
    end.

Definition isHealthy (w : World) : bool := isAvailable w.

(** *** The instance in its environment

    What can happen to a constructed instance: time passes, a due
    timer fires, a pending [client.connect()] settles, the client
    emits an event, its socket closes, or somebody calls a method. *)
Inductive Label : Type :=
  | Advance (dt : Z)
  | Fire (id : nat)
  | ConnectSettled (ok : bool)
  | EmitError
  | EmitConnect
  | SocketClosed
  | CallDisconnect (quit_ok : bool)
  | CallGet (key : string) (fault : bool)
  | CallSet (key : string) (value : JsValue) (ttl : option Z) (fault : bool)
  | CallDelete (key : string) (fault : bool)
  | CallHas (key : string) (fault : bool)
  | CallFlush (fault : bool).

(** A fired interval is rescheduled one period after the time its
    callback starts; a fired timeout is gone. *)
Definition fire (id : nat) (w : World) : option World :=
  match timers w !! id with
  | Some tm =>
      if due tm <=? now w then
        let w :=
          match period tm with
          | Some ms => with_timers (<[id := mkTimer (now w + ms) (Some ms) (callback tm)]> (timers w)) w
          | None => with_timers (base.delete id (timers w)) w
          end in
        Some (run_callback (callback tm) w)
      else None
  | None => None
  end.

Definition step (w : World) (l : Label) : option World :=
  match l with
  | Advance dt => if 0 <=? dt then Some (with_now (now w + dt) w) else None
  | Fire id => fire id w
  | ConnectSettled ok =>
      match inflight w with
      | S n =>
          let w := with_inflight n w in
          Some (if ok then connect_resolved w else connect_rejected w)
      | O => None
      end
  | EmitError => Some (onError w)
  | EmitConnect => Some (onConnect w)
  | SocketClosed => Some (with_isOpen false w)
  | CallDisconnect quit_ok => Some (disconnect quit_ok w).2
  | CallGet key fault => Some (get key fault w).2
  | CallSet key value ttl fault => Some (set key value ttl fault w).2
  | CallDelete key fault => Some (delete key fault w).2
  | CallHas key fault => Some (has key fault w).2
  | CallFlush fault => Some (flush fault w).2
  end.

Fixpoint run (w : World) (ls : list Label) : option World :=
  match ls with
  | [] => Some w
  | l :: ls =>
      match step w l with
      | Some w' => run w' ls
      | None => None
      end
  end.

(** The worlds an instance can be in, from its construction on. *)
Definition reachable (w : World) : Prop :=
  exists srv ls, run (constructor srv) ls = Some w.

End Operations.

End RedisCache.

(** ** class CacheService, over node-cache *)

(** The node-cache library as [CacheService] calls it.  The first
    argument of [nc_get], [nc_set] and [nc_has] is [Date.now()] at the
    call. *)
Class NodeCacheLib (C : Type) : Type := {
  nc_new : Z -> Z -> bool -> C;          (* stdTTL, checkperiod, useClones *)
  nc_get : Z -> string -> C -> JsValue * C;
  nc_set : Z -> string -> JsValue -> option Z -> C -> bool * C;
  nc_del : string -> C -> Z * C;
  nc_has : Z -> string -> C -> bool * C;
  nc_flushAll : C -> C
}.

(** The node-cache store behind [CacheService]. *)
Module NodeCache.

(** Modelled from the spec: the node-cache library is not part of the
    sources.  As in the spec's LocalCacheStore, the store is a mapping
    from key to an entry with a value and an optional expiry time ([0]
    for an entry that never expires); [set] overwrites and applies the
    time-to-live from the moment of the call, [get] and [has] check
    expiry at access time and drop an expired entry, [del] removes the
    entry and returns the number of entries it removed, [flushAll] clears
    the mapping.  A missing time-to-live is the [stdTTL] option. *)
Record t : Type := mk {
  stdTTL : Z;
  data : gmap string (JsValue * Z)
}.

Definition create (std checkperiod : Z) (useClones : bool) : t := mk std ∅.

Definition del (key : string) (c : t) : Z * t :=
  match data c !! key with
  | Some _ => (1, mk (stdTTL c) (base.delete key (data c)))
  | None => (0, c)
  end.

Definition expired (now : Z) (entry : JsValue * Z) : bool :=
  negb (entry.2 =? 0) && (entry.2 <? now).

Definition get (now : Z) (key : string) (c : t) : JsValue * t :=
  match data c !! key with
  | Some entry =>
      if expired now entry then (JsUndefined, (del key c).2) else (entry.1, c)
  | None => (JsUndefined, c)
  end.

Definition livetime (now : Z) (ttl : Z) : Z :=
  if ttl =? 0 then 0 else now + ttl * 1000.

Definition set (now : Z) (key : string) (value : JsValue) (ttl : option Z) (c : t) : bool * t :=
  let ttl := match ttl with Some s => s | None => stdTTL c end in
  (true, mk (stdTTL c) (<[key := (value, livetime now ttl)]> (data c))).

Definition has (now : Z) (key : string) (c : t) : bool * t :=
  match data c !! key with
  | Some entry =>
      if expired now entry then (false, (del key c).2) else (true, c)
  | None => (false, c)
  end.

Definition flushAll (c : t) : t := mk (stdTTL c) ∅.

Global Instance lib : NodeCacheLib t :=
  {| nc_new := create; nc_get := get; nc_set := set; nc_del := del;
     nc_has := has; nc_flushAll := flushAll |}.

End NodeCache.

Module CacheService.

Section WithNodeCache.

Context {C : Type} `{NodeCacheLib C}.

Definition constructor : C := nc_new 300 600 false.

Definition get (now : Z) (key : string) (c : C) : JsValue * C :=
  nc_get now key c.

(** [ttl ?? 3600] *)
Definition set (now : Z) (key : string) (value : JsValue) (ttl : option Z) (c : C) : bool * C :=
  nc_set now key value (Some (default 3600 ttl)) c.

Definition delete (key : string) (c : C) : Z * C :=
  nc_del key c.

Definition has (now : Z) (key : string) (c : C) : bool * C :=
  nc_has now key c.

Definition flush (c : C) : C := nc_flushAll c.

(** [getOrSet]: the callback runs in the caller's state [S], so how
    often it ran shows in that state.  [t0] is the time of the
    lookup, [t1] the time at which the awaited callback has settled. *)
Definition getOrSet {S : Type} (t0 t1 : Z) (key : string)
    (callback : S -> Outcome JsValue * S) (ttl : option Z) (s : S) (c : C)
  : Outcome JsValue * S * C :=
  let '(cachedValue, c) := get t0 key c in
  if decide (cachedValue = JsUndefined) then
    match callback s with
    | (Returned value, s) =>
        let '(_, c) := set t1 key value ttl c in
        (Returned value, s, c)
    | (Threw, s) => (Threw, s, c)
    end
  else (Returned cachedValue, s, c).

End WithNodeCache.

End CacheService.

(** ** Definitions used by the statements *)

(** The part of the world that makes up the connection state machine. *)
Definition same_connection (w w' : World) : Prop :=
  isAvailable w' = isAvailable w /\
  connectionAttempts w' = connectionAttempts w /\
  reconnectionTimer w' = reconnectionTimer w /\
  timers w' = timers w /\
  nextTimer w' = nextTimer w /\
  inflight w' = inflight w.

(** A connected instance in front of an empty server, at time 0. *)
Definition connected_world : World :=
  mkWorld true 0%nat None 0 ∅ 0%nat 1%nat true 0%nat ∅ [].

(** The same instance after [set('k', null)]. *)
Definition world_with_null : World :=
  (RedisCache.set JSON.scalar "k" JsNull None false connected_world).2.

(** A local cache holding ['k'], and the time-to-live it got. *)
Definition local_with_k : NodeCache.t :=
  (CacheService.set 0 "k" (JsNum 1) None CacheService.constructor).2.

(** A callback that counts its invocations and resolves to [v]. *)
Definition counting (v : JsValue) (calls : nat) : Outcome JsValue * nat :=
  (Returned v, S calls).

(** *** The invariant of the reconnection timer *)

(** The tick of the reconnection interval on a disconnected instance is
    the only place that resets the attempt counter and calls [connect]
    again; it is also the only place that logs 'Attempting to reconnect
    to Redis...'.  The times of these log entries, newest first, are the
    times at which a fresh reconnection sequence started. *)
Definition is_tick (e : Z * Event) : bool :=
  match e.2 with
  | EvLog Info MsgReconnecting => true
  | _ => false
  end.

Definition tick_times (tr : list (Z * Event)) : list Z :=
  map fst (List.filter is_tick tr).

(** Newest first: each entry is at least one reconnection interval after
    all the entries behind it. *)
Fixpoint separated (l : list Z) : Prop :=
  match l with
  | [] => True
  | t :: l' => (forall t', t' ∈ l' -> t' + RedisCache.reconnectionInterval <= t) /\ separated l'
  end.

Definition is_reconnection_timer (tm : Timer) : Prop :=
  period tm = Some RedisCache.reconnectionInterval /\ callback tm = CbReconnectTick.

Record Inv (w : World) : Prop := mkInv {
  inv_fresh : forall id tm, timers w !! id = Some tm -> (id < nextTimer w)%nat;
  inv_timeout : forall id tm, timers w !! id = Some tm -> period tm = None ->
    callback tm = CbConnect;
  inv_interval : forall id tm, timers w !! id = Some tm -> period tm <> None ->
    reconnectionTimer w = Some id /\ is_reconnection_timer tm;
  inv_handle : forall id, reconnectionTimer w = Some id ->
    exists tm, timers w !! id = Some tm /\ is_reconnection_timer tm;
  inv_past : forall t, t ∈ tick_times (trace w) -> t <= now w;
  inv_next : forall id tm t, timers w !! id = Some tm -> period tm <> None ->
    t ∈ tick_times (trace w) -> t + RedisCache.reconnectionInterval <= due tm;
  inv_sep : separated (tick_times (trace w))
}.

(** Changes that the invariant does not see. *)
Definition quiet (w w' : World) : Prop :=
  timers w' = timers w /\
  nextTimer w' = nextTimer w /\
  reconnectionTimer w' = reconnectionTimer w /\
  now w' = now w /\
  tick_times (trace w') = tick_times (trace w).

(** Three failed attempts, five seconds apart: the third [connect()] is
    pending with the counter at its maximum. *)
Definition third_attempt_pending : World :=
  default (RedisCache.fresh ∅)
    (RedisCache.run JSON.scalar (RedisCache.constructor ∅)
       [RedisCache.ConnectSettled false; RedisCache.Advance 5000; RedisCache.Fire 0%nat;
        RedisCache.ConnectSettled false; RedisCache.Advance 5000; RedisCache.Fire 1%nat]).

(** The world after that third attempt has failed too. *)
Definition periodic_mode_entered : World :=
  default (RedisCache.fresh ∅)
    (RedisCache.step JSON.scalar third_attempt_pending (RedisCache.ConnectSettled false)).

(** The first attempt has succeeded. *)
Definition first_attempt_succeeded : World :=
  default (RedisCache.fresh ∅)
    (RedisCache.run JSON.scalar (RedisCache.constructor ∅) [RedisCache.ConnectSettled true]).

(** The first attempt has failed and its retry is scheduled. *)
Definition retry_scheduled : World :=
  default (RedisCache.fresh ∅)
    (RedisCache.run JSON.scalar (RedisCache.constructor ∅) [RedisCache.ConnectSettled false]).

(** *** Runs without teardown *)

Definition is_teardown (l : RedisCache.Label) : bool :=
  match l with
  | RedisCache.CallDisconnect _ => true
  | _ => false
  end.

(** Something is still going to happen to the connection: a
    [client.connect()] is pending, or a timer is scheduled. *)
Definition recovery_pending (w : World) : Prop :=
  (0 < inflight w)%nat \/ exists id tm, timers w !! id = Some tm.

(** ** class CacheService, the variant with an availability flag

    The [CacheService] of [src/index.ts]: every method is wrapped in
    [try]/[catch] and guarded by [isAvailable], which the 'error' event of
    node-cache clears.  [throws] tells whether the node-cache call inside
    the method throws; a call that throws leaves the cache as it was. *)
Module GuardedCacheService.

Section WithNodeCache.

Context {C : Type} `{NodeCacheLib C}.

Record t : Type := mk {
  cache : C;
  isAvailable : bool
}.

(** [ctor_throws]: whether [new NodeCache({stdTTL: 300, ...})] or the
    registration of the handler throws; the [catch] then falls back to
    [new NodeCache()], whose options are the library's defaults. *)
Definition constructor (ctor_throws : bool) : t :=
  if ctor_throws then mk (nc_new 0 600 true) false
  else mk (nc_new 300 600 false) true.

(** The handler of the cache's 'error' event. *)
Definition onError (st : t) : t := mk (cache st) false.

Definition get (now : Z) (key : string) (throws : bool) (st : t) : JsValue * t :=
  if negb (isAvailable st) then (JsUndefined, st)
  else if throws then (JsUndefined, st)
  else let '(v, c) := nc_get now key (cache st) in (v, mk c (isAvailable st)).

Definition set (now : Z) (key : string) (value : JsValue) (ttl : option Z)
    (throws : bool) (st : t) : bool * t :=
  if negb (isAvailable st) then (false, st)
  else if throws then (false, st)
  else let '(b, c) := nc_set now key value (Some (default 3600 ttl)) (cache st) in
       (b, mk c (isAvailable st)).

Definition delete (key : string) (throws : bool) (st : t) : Z * t :=
  if negb (isAvailable st) then (0, st)
  else if throws then (0, st)
  else let '(n, c) := nc_del key (cache st) in (n, mk c (isAvailable st)).

Definition has (now : Z) (key : string) (throws : bool) (st : t) : bool * t :=
  if negb (isAvailable st) then (false, st)
  else if throws then (false, st)
  else let '(b, c) := nc_has now key (cache st) in (b, mk c (isAvailable st)).

Definition flush (throws : bool) (st : t) : t :=
  if negb (isAvailable st) then st
  else if throws then st
  else mk (nc_flushAll (cache st)) (isAvailable st).

(** [getOrSet]: the lookup and the store cannot throw (they catch
    themselves), so the [catch] of [getOrSet] is reached only when the
    callback throws; it then returns [callback()], a second invocation. *)
Definition getOrSet {S : Type} (t0 t1 : Z) (key : string)
    (callback : S -> Outcome JsValue * S) (ttl : option Z)
    (get_throws set_throws : bool) (s : S) (st : t) : Outcome JsValue * S * t :=
  let '(cachedValue, st) :=
    if isAvailable st then get t0 key get_throws st else (JsUndefined, st) in
  if decide (cachedValue = JsUndefined) then
    match callback s with
    | (Returned value, s) =>
        let st := if isAvailable st then (set t1 key value ttl set_throws st).2 else st in
        (Returned value, s, st)
    | (Threw, s) =>
        let '(r, s) := callback s in (r, s, st)
    end
  else (Returned cachedValue, s, st).

Definition isHealthy (st : t) : bool := isAvailable st.

(** A call on the service, or the cache's 'error' event. *)
Inductive Op : Type :=
  | OpGet (now : Z) (key : string) (throws : bool)
  | OpSet (now : Z) (key : string) (value : JsValue) (ttl : option Z) (throws : bool)
  | OpDelete (key : string) (throws : bool)
  | OpHas (now : Z) (key : string) (throws : bool)
  | OpFlush (throws : bool)
  | OpError.

Definition exec (st : t) (op : Op) : t :=
  match op with
  | OpGet now key throws => (get now key throws st).2
  | OpSet now key value ttl throws => (set now key value ttl throws st).2
  | OpDelete key throws => (delete key throws st).2
  | OpHas now key throws => (has now key throws st).2
  | OpFlush throws => flush throws st
  | OpError => onError st
  end.

End WithNodeCache.

Arguments t C : clear implicits.

End GuardedCacheService.

(** The local cache after [getOrSet] stored 1 under ['k'] at time 10. *)
Definition local_with_k_at_10 : NodeCache.t :=
  (CacheService.set 10 "k" (JsNum 1) None CacheService.constructor).2.

(** ** Users: the model, the repositories and the service *)

(** [interface User] / [class User].  Dates are milliseconds since the
    epoch; [isUserEntity] is what [user instanceof UserEntity] answers. *)
Module User.

Record t : Type := mk {
  id : string;
  name : string;
  email : string;
  createdAt : Z;
  updatedAt : Z;
  isUserEntity : bool
}.

Global Instance eq_dec : EqDecision t.
Proof. solve_decision. Defined.

End User.

(** An optional string as a JavaScript condition: [undefined] and the
    empty string are falsy. *)
Definition truthy (o : option string) : option string :=
  match o with
  | Some s => if String.eqb s "" then None else Some s
  | None => None
  end.

Module UserEntity.

(** [new UserEntity({id?, name, email})]: [uuid] is what [randomUUID()]
    returns if it is called, [created] and [updated] the two readings of
    the clock. *)
Definition new (id : option string) (name email : string) (uuid : string)
    (created updated : Z) : User.t :=
  User.mk (default uuid (truthy id)) name email created updated true.

(** [update({name?, email?})] at time [now]. *)
Definition update (name email : option string) (now : Z) (u : User.t) : User.t :=
  User.mk (User.id u)
          (default (User.name u) (truthy name))
          (default (User.email u) (truthy email))
          (User.createdAt u) now (User.isUserEntity u).

End UserEntity.

Record CreateUserDTO : Type := {
  create_name : string;
  create_email : string
}.

Record UpdateUserDTO : Type := {
  update_name : option string;
  update_email : option string
}.

(** What an [async] method of the repository or the service does: it
    resolves, or it rejects with an error carrying a message. *)
Inductive Result (A : Type) : Type :=
  | Ok (a : A)
  | Fail (message : string).
Arguments Ok {A} a.
Arguments Fail {A} message.

(** [interface UserRepository], over the state [R] of an implementation. *)
Class UserRepository (R : Type) : Type := {
  repo_findById : string -> R -> Result (option User.t) * R;
  repo_findByEmail : string -> R -> Result (option User.t) * R;
  repo_findAll : R -> Result (list User.t) * R;
  repo_save : User.t -> R -> Result unit * R;
  repo_update : User.t -> R -> Result unit * R;
  repo_delete : string -> R -> Result unit * R
}.

(** [class InMemoryUserRepository]: the state is the array [this.users]. *)
Module InMemoryUserRepository.

Definition has_id (id : string) (u : User.t) : Prop := User.id u = id.
Definition has_email (email : string) (u : User.t) : Prop := User.email u = email.

Global Instance has_id_dec id u : Decision (has_id id u).
Proof. unfold has_id. apply _. Defined.
Global Instance has_email_dec email u : Decision (has_email email u).
Proof. unfold has_email. apply _. Defined.

(** [this.users.find(user => user.id === id) || null] *)
Definition findById (id : string) (users : list User.t) : option User.t :=
  snd <$> list_find (has_id id) users.

Definition findByEmail (email : string) (users : list User.t) : option User.t :=
  snd <$> list_find (has_email email) users.

(** [[...this.users]] *)
Definition findAll (users : list User.t) : list User.t := users.

(** [this.users.push(user)] *)
Definition save (user : User.t) (users : list User.t) : list User.t := users ++ [user].

(** [findIndex], then [this.users[index] = updatedUser] unless it is -1. *)
Definition update (updatedUser : User.t) (users : list User.t) : list User.t :=
  match fst <$> list_find (has_id (User.id updatedUser)) users with
  | Some index => <[index := updatedUser]> users
  | None => users
  end.

(** [this.users.filter(user => user.id !== id)] *)
Definition delete (id : string) (users : list User.t) : list User.t :=
  base.filter (fun u => ~ has_id id u) users.

Global Instance repository : UserRepository (list User.t) :=
  {| repo_findById id users := (Ok (findById id users), users);
     repo_findByEmail email users := (Ok (findByEmail email users), users);
     repo_findAll users := (Ok (findAll users), users);
     repo_save user users := (Ok tt, save user users);
     repo_update user users := (Ok tt, update user users);
     repo_delete id users := (Ok tt, delete id users) |}.

End InMemoryUserRepository.

(** What the service keeps in the cache: a user, or the list of all. *)
Inductive Cached : Type :=
  | CachedUser (user : User.t)
  | CachedUsers (users : list User.t).

(** [interface CacheService] of the domain, the port the service depends
    on, over the state [K] of an implementation.  [get] answers [None]
    for [null]. *)
Class CachePort (K : Type) : Type := {
  port_get : string -> K -> option Cached * K;
  port_set : string -> Cached -> option Z -> K -> bool * K;
  port_delete : string -> K -> bool * K;
  port_has : string -> K -> bool * K;
  port_flush : K -> K
}.

(** A cache that honours the port's contract: it has a content, [get]
    reads it, and no operation adds an entry other than a [set] for its
    own key (entries may disappear at any time, as by expiry). *)
Class LawfulCache (K : Type) `{CachePort K} : Type := {
  content : K -> gmap string Cached;
  law_get : forall key k,
    (port_get key k).1 = content k !! key /\ content (port_get key k).2 ⊆ content k;
  law_set : forall key value ttl k,
    content (port_set key value ttl k).2 ⊆ <[key := value]> (content k);
  law_delete : forall key k,
    content (port_delete key k).2 ⊆ base.delete key (content k)
}.

(** The healthy cache that never expires anything: a plain map. *)
Module MapCache.

Global Instance port : CachePort (gmap string Cached) :=
  {| port_get key k := (k !! key, k);
     port_set key value ttl k := (true, <[key := value]> k);
     port_delete key k := (true, base.delete key k);
     port_has key k := (bool_decide (is_Some (k !! key)), k);
     port_flush k := ∅ |}.

Global Instance lawful : LawfulCache (gmap string Cached).
Proof.
  refine {| content k := k |}.
  - intros key k. split; reflexivity.
  - intros key value ttl k. reflexivity.
  - intros key k. reflexivity.
Defined.

End MapCache.

Inductive LogLevel : Type := LogDebug | LogInfo | LogWarn | LogError.

(** [class UserServiceImpl], the version that caches. *)
Module UserServiceImpl.

Section WithPorts.

Context {R K : Type} `{UserRepository R} `{CachePort K}.

(** The collaborators of the service: the repository, the cache and
    what the logger has been given, oldest first. *)
Record State : Type := mkState {
  repo : R;
  cache : K;
  logs : list (LogLevel * string)
}.

Definition M (A : Type) : Type := State -> Result A * State.

Definition ret {A : Type} (a : A) : M A := fun st => (Ok a, st).

Definition bind {A B : Type} (m : M A) (k : A -> M B) : M B :=
  fun st =>
    match m st with
    | (Ok a, st') => k a st'
    | (Fail message, st') => (Fail message, st')
    end.

Definition throw {A : Type} (message : string) : M A := fun st => (Fail message, st).

Definition logger (lvl : LogLevel) (message : string) : M unit :=
  fun st => (Ok tt, mkState (repo st) (cache st) (logs st ++ [(lvl, message)])).

Definition userRepository {A : Type} (call : R -> Result A * R) : M A :=
  fun st => let '(r, rp) := call (repo st) in (r, mkState rp (cache st) (logs st)).

Definition cacheService {A : Type} (call : K -> A * K) : M A :=
  fun st => let '(a, k) := call (cache st) in (Ok a, mkState (repo st) k (logs st)).

Notation "'let!' x := m 'in' k" := (bind m (fun x => k))
  (at level 10, x name, m at level 100, k at level 200, only parsing).
Notation "'do!' m 'in' k" := (bind m (fun _ => k))
  (at level 10, m at level 100, k at level 200, only parsing).

Definition createUser (userData : CreateUserDTO) (uuid : string) (created updated : Z)
  : M User.t :=
  let! existingUser := userRepository (repo_findByEmail (create_email userData)) in
  match existingUser with
  | Some _ =>
      do! logger LogWarn "Attempted to create user with existing email" in
      throw "User with this email already exists"
  | None =>
      let user := UserEntity.new None (create_name userData) (create_email userData)
                    uuid created updated in
      do! userRepository (repo_save user) in
      do! cacheService (port_delete "users:all") in
      do! logger LogInfo "User created successfully" in
      ret user
  end.

(** [if (userData.email && userData.email !== user.email)]: the new
    email must not belong to anybody. *)
Definition checkEmail (userData : UpdateUserDTO) (user : User.t) : M unit :=
  match truthy (update_email userData) with
  | Some email =>
      if negb (String.eqb email (User.email user)) then
        let! existingUserWithEmail := userRepository (repo_findByEmail email) in
        match existingUserWithEmail with
        | Some _ =>
            do! logger LogWarn "Attempted to update user with existing email" in
            throw "Email is already taken"
        | None => ret tt
        end
      else ret tt
  | None => ret tt
  end.

(** [if (userData.email)]: the two deletions of email keys; [user] is
    the variable [user] at that point of the method. *)
Definition invalidateEmail (userData : UpdateUserDTO) (user : User.t) : M unit :=
  match truthy (update_email userData) with
  | Some email =>
      do! cacheService (port_delete ("user:email:" +:+ email)) in
      do! cacheService (port_delete ("user:email:" +:+ User.email user)) in
      ret tt
  | None => ret tt
  end.

Definition invalidate (id : string) (userData : UpdateUserDTO) (user : User.t) : M unit :=
  do! cacheService (port_delete ("user:" +:+ id)) in
  do! invalidateEmail userData user in
  do! cacheService (port_delete "users:all") in
  ret tt.

Definition updateUser (id : string) (userData : UpdateUserDTO) (uuid : string)
    (created updated now : Z) : M (option User.t) :=
  let! found := userRepository (repo_findById id) in
  match found with
  | None =>
      do! logger LogWarn "Attempted to update non-existent user" in
      ret None
  | Some user =>
      do! checkEmail userData user in
      if negb (User.isUserEntity user) then
        let fresh := UserEntity.new (Some (User.id user)) (User.name user) (User.email user)
                       uuid created updated in
        let userEntity := User.mk (User.id fresh) (User.name fresh) (User.email fresh)
                            (User.createdAt user) (User.updatedAt user) true in
        do! userRepository (repo_update userEntity) in
        let userEntity := UserEntity.update (update_name userData) (update_email userData)
                            now userEntity in
        do! userRepository (repo_update userEntity) in
        (* here [user] is still the object the repository returned *)
        do! invalidate id userData user in
        do! logger LogInfo "User updated successfully" in
        ret (Some userEntity)
      else
        (* [user.update(userData)] changes [user] itself *)
        let user := UserEntity.update (update_name userData) (update_email userData) now user in
        do! userRepository (repo_update user) in
        do! invalidate id userData user in
        do! logger LogInfo "User updated successfully" in
        ret (Some user)
  end.

Definition getUserById (id : string) : M (option Cached) :=
  let cacheKey := "user:" +:+ id in
  let! cachedUser := cacheService (port_get cacheKey) in
  match cachedUser with
  | Some cached =>
      do! logger LogDebug "User retrieved from cache" in
      ret (Some cached)
  | None =>
      let! found := userRepository (repo_findById id) in
      match found with
      | None =>
          do! logger LogDebug "User not found by ID" in
          ret None
      | Some user =>
          do! cacheService (port_set cacheKey (CachedUser user) (Some 3600)) in
          ret (Some (CachedUser user))
      end
  end.

Definition getUserByEmail (email : string) : M (option Cached) :=
  let cacheKey := "user:email:" +:+ email in
  let! cachedUser := cacheService (port_get cacheKey) in
  match cachedUser with
  | Some cached =>
      do! logger LogDebug "User retrieved from cache by email" in
      ret (Some cached)
  | None =>
      let! found := userRepository (repo_findByEmail email) in
      match found with
      | None =>
          do! logger LogDebug "User not found by email" in
          ret None
      | Some user =>
          do! cacheService (port_set cacheKey (CachedUser user) (Some 3600)) in
          ret (Some (CachedUser user))
      end
  end.

Definition getAllUsers : M Cached :=
  let cacheKey := "users:all"%string in
  let! cachedUsers := cacheService (port_get cacheKey) in
  match cachedUsers with
  | Some cached =>
      do! logger LogDebug "All users retrieved from cache" in
      ret cached
  | None =>
      let! users := userRepository repo_findAll in
      do! cacheService (port_set cacheKey (CachedUsers users) (Some 300)) in
      do! logger LogDebug "Retrieved all users from repository" in
      ret (CachedUsers users)
  end.

Definition deleteUser (id : string) : M bool :=
  let! found := userRepository (repo_findById id) in
  match found with
  | None =>
      do! logger LogWarn "Attempted to delete non-existent user" in
      ret false
  | Some user =>
      do! userRepository (repo_delete id) in
      do! cacheService (port_delete ("user:" +:+ id)) in
      do! cacheService (port_delete ("user:email:" +:+ User.email user)) in
      do! cacheService (port_delete "users:all") in
      do! logger LogInfo "User deleted successfully" in
      ret true
  end.

End WithPorts.

Arguments State R K : clear implicits.

End UserServiceImpl.

(** Two stored users and an empty cache, and the same with the users
    cached under their email keys. *)
Definition alice : User.t := User.mk "1" "Alice" "alice@example.com" 0 0 true.
Definition bob : User.t := User.mk "2" "Bob" "bob@example.com" 0 0 true.

Definition two_users : UserServiceImpl.State (list User.t) (gmap string Cached) :=
  UserServiceImpl.mkState [alice; bob] ∅ [].

Definition two_users_cached : UserServiceImpl.State (list User.t) (gmap string Cached) :=
  UserServiceImpl.mkState [alice; bob]
    {[ "user:email:alice@example.com"%string := CachedUser alice ]} [].

(** ** class JsonUserRepository *)

(** [JSON.parse(data) as User[]] and [JSON.stringify(users, null, 2)].
    [parse_users] fails, with the message of the error, unless the text
    is a JSON array of users. *)
Record UsersCodec : Type := {
  parse_users : string -> Result (list User.t);
  stringify_users : list User.t -> string
}.

(** The state is the content of [data/users.json], [None] while the file
    does not exist (the only failure of the file system that the code
    treats specially, [ENOENT]; no other one is modelled). *)
Module JsonUserRepository.

Section WithCodec.

Variable codec : UsersCodec.

Definition writeUsersFile (users : list User.t) (file : option string)
  : Result unit * option string :=
  (Ok tt, Some (stringify_users codec users)).

Definition readUsersFile (file : option string) : Result (list User.t) * option string :=
  match file with
  | Some data => (parse_users codec data, file)
  | None =>
      match writeUsersFile [] file with
      | (Ok _, file) => (Ok [], file)
      | (Fail message, file) => (Fail message, file)
      end
  end.

Definition findById (id : string) (file : option string)
  : Result (option User.t) * option string :=
  match readUsersFile file with
  | (Ok users, file) => (Ok (InMemoryUserRepository.findById id users), file)
  | (Fail message, file) => (Fail message, file)
  end.

Definition findByEmail (email : string) (file : option string)
  : Result (option User.t) * option string :=
  match readUsersFile file with
  | (Ok users, file) => (Ok (InMemoryUserRepository.findByEmail email users), file)
  | (Fail message, file) => (Fail message, file)
  end.

Definition findAll (file : option string) : Result (list User.t) * option string :=
  readUsersFile file.

Definition save (user : User.t) (file : option string) : Result unit * option string :=
  match readUsersFile file with
  | (Ok users, file) => writeUsersFile (users ++ [user]) file
  | (Fail message, file) => (Fail message, file)
  end.

Definition update (updatedUser : User.t) (file : option string)
  : Result unit * option string :=
  match readUsersFile file with
  | (Ok users, file) =>
      match fst <$> list_find (InMemoryUserRepository.has_id (User.id updatedUser)) users with
      | Some index => writeUsersFile (<[index := updatedUser]> users) file
      | None => (Ok tt, file)
      end
  | (Fail message, file) => (Fail message, file)
  end.

Definition delete (id : string) (file : option string) : Result unit * option string :=
  match readUsersFile file with
  | (Ok users, file) =>
      writeUsersFile (base.filter (fun u => ~ InMemoryUserRepository.has_id id u) users) file
  | (Fail message, file) => (Fail message, file)
  end.

Definition repository : UserRepository (option string) :=
  {| repo_findById := findById;
     repo_findByEmail := findByEmail;
     repo_findAll := findAll;
     repo_save := save;
     repo_update := update;
     repo_delete := delete |}.

End WithCodec.

End JsonUserRepository.

(** ** validationMiddleware *)

(** A [ValidationError] of class-validator, as the middleware reads it:
    its [property] and the messages of its [constraints], if it has any
    ([Object.values(error.constraints)]). *)
Record ValidationError : Type := {
  property : string;
  constraints : option (list string)
}.

Module ValidationMiddleware.

(** What the middleware does with the request. *)
Inductive Outcome (Dto : Type) : Type :=
  | Next (body : Dto)
  | Respond (status : Z) (message : string) (errors : gmap string (list string)).
Arguments Next {Dto} body.
Arguments Respond {Dto} status message errors.

(** The reducer passed to [errors.reduce]. *)
Definition collect (acc : gmap string (list string)) (error : ValidationError)
  : gmap string (list string) :=
  match constraints error with
  | None => acc
  | Some messages => <[property error := messages]> acc
  end.

(** [dtoObj] is what [plainToInstance] built from the body and [errors]
    what [validate] returned for it. *)
Definition validationMiddleware {Dto : Type} (dtoObj : Dto) (errors : list ValidationError)
  : Outcome Dto :=
  if (0 <? length errors)%nat then
    let formattedErrors := foldl collect ∅ errors in
    Respond 400 "Validation failed" formattedErrors
  else Next dtoObj.

End ValidationMiddleware.

(** ** class UserController *)

Module UserController.

Inductive Body : Type :=
  | BodyMessage (message : string)
  | BodyUser (user : User.t)
  | BodyCached (cached : Cached)
  | BodyEmpty.

Record Response : Type := mkResponse {
  status : Z;
  body : Body
}.

Section WithPorts.

Context {R K : Type} `{UserRepository R} `{CachePort K}.

(** [this.logger] is the logger the service writes to. *)
Definition log (lvl : LogLevel) (message : string) (st : UserServiceImpl.State R K)
  : UserServiceImpl.State R K :=
  (UserServiceImpl.logger lvl message st).2.

Definition getAllUsers (st : UserServiceImpl.State R K)
  : Response * UserServiceImpl.State R K :=
  let st := log LogInfo "Getting all users" st in
  match UserServiceImpl.getAllUsers st with
  | (Ok users, st) => (mkResponse 200 (BodyCached users), st)
  | (Fail _, st) =>
      (mkResponse 500 (BodyMessage "Internal server error"),
       log LogError "Error fetching all users" st)
  end.

Definition getUserById (id : string) (st : UserServiceImpl.State R K)
  : Response * UserServiceImpl.State R K :=
  let st := log LogInfo "Getting user by ID" st in
  match UserServiceImpl.getUserById id st with
  | (Ok None, st) => (mkResponse 404 (BodyMessage "User not found"), st)
  | (Ok (Some user), st) => (mkResponse 200 (BodyCached user), st)
  | (Fail _, st) =>
      (mkResponse 500 (BodyMessage "Internal server error"),
       log LogError "Error fetching user by ID" st)
  end.

(** [name] and [email] are the fields of [req.body]. *)
Definition createUser (name email : option string) (uuid : string) (created updated : Z)
    (st : UserServiceImpl.State R K) : Response * UserServiceImpl.State R K :=
  match truthy name, truthy email with
  | Some name, Some email =>
      let st := log LogInfo "Creating new user" st in
      match UserServiceImpl.createUser {| create_name := name; create_email := email |}
              uuid created updated st with
      | (Ok user, st) => (mkResponse 201 (BodyUser user), st)
      | (Fail message, st) =>
          if String.eqb message "User with this email already exists" then
            (mkResponse 409 (BodyMessage message), st)
          else
            (mkResponse 500 (BodyMessage "Internal server error"),
             log LogError "Error creating user" st)
      end
  | _, _ => (mkResponse 400 (BodyMessage "Name and email are required"), st)
  end.

Definition updateUser (id : string) (name email : option string) (uuid : string)
    (created updated now : Z) (st : UserServiceImpl.State R K)
  : Response * UserServiceImpl.State R K :=
  match truthy name, truthy email with
  | None, None =>
      (mkResponse 400 (BodyMessage "At least one field (name or email) is required"), st)
  | _, _ =>
      let st := log LogInfo "Updating user" st in
      match UserServiceImpl.updateUser id {| update_name := name; update_email := email |}
              uuid created updated now st with
      | (Ok None, st) => (mkResponse 404 (BodyMessage "User not found"), st)
      | (Ok (Some updatedUser), st) => (mkResponse 200 (BodyUser updatedUser), st)
      | (Fail message, st) =>
          if String.eqb message "Email is already taken" then
            (mkResponse 409 (BodyMessage message), st)
          else
            (mkResponse 500 (BodyMessage "Internal server error"),
             log LogError "Error updating user" st)
      end
  end.

Definition deleteUser (id : string) (st : UserServiceImpl.State R K)
  : Response * UserServiceImpl.State R K :=
  let st := log LogInfo "Deleting user" st in
  match UserServiceImpl.deleteUser id st with
  | (Ok false, st) => (mkResponse 404 (BodyMessage "User not found"), st)
  | (Ok true, st) => (mkResponse 204 BodyEmpty, st)
  | (Fail _, st) =>
      (mkResponse 500 (BodyMessage "Internal server error"),
       log LogError "Error deleting user" st)
  end.

End WithPorts.

End UserController.

(** ** The health check of [src/index.ts] *)

(** [!value] for a value of the cache. *)
Definition js_truthy (v : JsValue) : bool :=
  match v with
  | JsUndefined | JsNull => false
  | JsBool b => b
  | JsNum n => negb (n =? 0)
  end.

Module HealthCheck.

Record Report : Type := mkReport {
  status : string;
  timestamp : Z;
  uptime : Z;
  redis_status : string;
  redis_message : string
}.

Section WithCache.

Variable JSON : JsonCodec.

(** The test value: in the source the literal [{ test: 'ok' }], an
    object; the check only stores it and looks whether what comes back is
    truthy, so it is taken as a parameter. *)
Variable testValue : JsValue.

Definition testKey : string := "health-check-test".

(** [cacheService] is taken to be the [RedisCache]; its methods catch
    what the client throws, so the [catch] of the check is not reached.
    [uptime] is [process.uptime()]; the three flags tell whether the
    client call of [set], [get] and [delete] fails. *)
Definition healthCheck (uptime : Z) (set_fault get_fault delete_fault : bool) (w : World)
  : Report * World :=
  let '(setResult, w) := RedisCache.set JSON testKey testValue None set_fault w in
  if negb setResult then
    (mkReport "error" (now w) uptime "error" "Failed to set test value in Redis", w)
  else
    let '(getValue, w) := RedisCache.get JSON testKey get_fault w in
    if negb (js_truthy getValue) then
      (mkReport "error" (now w) uptime "error" "Failed to get test value from Redis", w)
    else
      let '(_, w) := RedisCache.delete testKey delete_fault w in
      (mkReport "ok" (now w) uptime "ok" "Redis is working properly", w).

End WithCache.

End HealthCheck.

(** The messages reported for a property: those of each error of that
    property that has constraints, in the order of the errors. *)
Definition messages_for (p : string) (error : ValidationError) : option (list string) :=
  if decide (property error = p) then constraints error else None.

(** [userData.email && userData.email !== user.email] and the email
    belongs to a stored user: when [updateUser] answers 'Email is already
    taken'. *)
Definition email_taken (email : option string) (user : User.t) (users : list User.t) : bool :=
  match truthy email with
  | Some email =>
      negb (String.eqb email (User.email user))
      && match InMemoryUserRepository.findByEmail email users with
         | Some _ => true
         | None => false
         end
  | None => false
  end.

(** A parser on which every text fails, as [JSON.parse] does on an empty
    file. *)
Definition rejecting_codec : UsersCodec :=
  {| parse_users := fun _ => Fail "Unexpected end of JSON input";
     stringify_users := fun _ => "[]"%string |}.

(** ** Degraded mode and per-operation failures *)

Lemma same_connection_refl (w : World) : same_connection w w.
Proof. repeat split. Qed.

Lemma same_connection_emit (e : Event) (w : World) : same_connection w (emit e w).
Proof. repeat split. Qed.

Lemma same_connection_trans (w1 w2 w3 : World) :
  same_connection w1 w2 -> same_connection w2 w3 -> same_connection w1 w3.
Proof.
  unfold same_connection. intros (?&?&?&?&?&?) (?&?&?&?&?&?).
  repeat split; congruence.
Qed.

(** C1. While [isAvailable] is false, [get] returns null, [set],
    [delete] and [has] return false and [flush] returns normally; each
    leaves the world as it was, so no call reaches the client. *)
Theorem unavailable_operations_fall_back
    (J : JsonCodec) (w : World) (key : string) (value : JsValue)
    (ttl : option Z) (fault : bool) :
  isAvailable w = false ->
  RedisCache.get J key fault w = (JsNull, w) /\
  RedisCache.set J key value ttl fault w = (false, w) /\
  RedisCache.delete key fault w = (false, w) /\
  RedisCache.has key fault w = (false, w) /\
  RedisCache.flush fault w = (Returned tt, w) /\
  client_calls (RedisCache.get J key fault w).2 = client_calls w /\
  client_calls (RedisCache.set J key value ttl fault w).2 = client_calls w /\
  client_calls (RedisCache.delete key fault w).2 = client_calls w /\
  client_calls (RedisCache.has key fault w).2 = client_calls w /\
  client_calls (RedisCache.flush fault w).2 = client_calls w.
Proof.
  intros Hoff.
  unfold RedisCache.get, RedisCache.set, RedisCache.delete, RedisCache.has,
    RedisCache.flush.
  rewrite Hoff. simpl. repeat split.
Qed.

Lemma unavailable_operations_fall_back_witness :
  RedisCache.get JSON.scalar "k" false (RedisCache.fresh ∅) = (JsNull, RedisCache.fresh ∅) /\
  RedisCache.flush true (RedisCache.fresh ∅) = (Returned tt, RedisCache.fresh ∅).
Proof.
  pose proof (unavailable_operations_fall_back JSON.scalar (RedisCache.fresh ∅)
                "k" JsNull None false eq_refl) as (Hget & _).
  pose proof (unavailable_operations_fall_back JSON.scalar (RedisCache.fresh ∅)
                "k" JsNull None true eq_refl) as (_ & _ & _ & _ & Hflush & _).
  split; [exact Hget | exact Hflush].
Defined.

Lemma get_same_connection (J : JsonCodec) (key : string) (fault : bool) (w : World) :
  same_connection w (RedisCache.get J key fault w).2.
Proof.
  unfold RedisCache.get, Client.get.
  destruct (isAvailable w); simpl; [| apply same_connection_refl].
  destruct fault; simpl; [repeat split |].
  destruct (RedisCache.falsy _); simpl; [repeat split |].
  destruct (parse J _); repeat split.
Qed.

Lemma set_same_connection (J : JsonCodec) (key : string) (value : JsValue)
    (ttl : option Z) (fault : bool) (w : World) :
  same_connection w (RedisCache.set J key value ttl fault w).2.
Proof.
  unfold RedisCache.set, Client.setEx.
  destruct (isAvailable w); simpl; [| apply same_connection_refl].
  destruct (stringify J value); simpl; [| repeat split].
  destruct (fault || _); repeat split.
Qed.

Lemma delete_same_connection (key : string) (fault : bool) (w : World) :
  same_connection w (RedisCache.delete key fault w).2.
Proof.
  unfold RedisCache.delete, Client.del.
  destruct (isAvailable w); simpl; [| apply same_connection_refl].
  destruct fault; repeat split.
Qed.

Lemma has_same_connection (key : string) (fault : bool) (w : World) :
  same_connection w (RedisCache.has key fault w).2.
Proof.
  unfold RedisCache.has, Client.exists_.
  destruct (isAvailable w); simpl; [| apply same_connection_refl].
  destruct fault; repeat split.
Qed.

Lemma flush_same_connection (fault : bool) (w : World) :
  same_connection w (RedisCache.flush fault w).2.
Proof.
  unfold RedisCache.flush, Client.flushAll.
  destruct (isAvailable w); simpl; [| apply same_connection_refl].
  destruct fault; repeat split.
Qed.

(** C5. On a connected instance, an operation whose client call throws
    (or, for [get], whose text does not parse) returns its fallback
    value, and no operation changes [isAvailable], the attempt counter or
    the timers. *)
Theorem failing_operation_keeps_connection
    (J : JsonCodec) (w : World) (key : string) (value : JsValue)
    (ttl : option Z) (fault : bool) :
  isAvailable w = true ->
  (* get *)
  ((Client.get key fault w).1 = Threw -> (RedisCache.get J key fault w).1 = JsNull) /\
  (forall text, (Client.get key fault w).1 = Returned (Some text) ->
     parse J text = None -> (RedisCache.get J key fault w).1 = JsNull) /\
  same_connection w (RedisCache.get J key fault w).2 /\
  (* set *)
  ((Client.setEx key (RedisCache.expiry_of ttl) (stringify J value) fault w).1 = Threw ->
     (RedisCache.set J key value ttl fault w).1 = false) /\
  same_connection w (RedisCache.set J key value ttl fault w).2 /\
  (* delete *)
  ((Client.del key fault w).1 = Threw -> (RedisCache.delete key fault w).1 = false) /\
  same_connection w (RedisCache.delete key fault w).2 /\
  (* has *)
  ((Client.exists_ key fault w).1 = Threw -> (RedisCache.has key fault w).1 = false) /\
  same_connection w (RedisCache.has key fault w).2 /\
  (* flush *)
  ((Client.flushAll fault w).1 = Threw -> (RedisCache.flush fault w).1 = Returned tt) /\
  same_connection w (RedisCache.flush fault w).2.
Proof.
  intros Hon.
  repeat match goal with
         | |- same_connection _ _ /\ _ => split
         | |- same_connection _ (RedisCache.get _ _ _ _).2 => apply get_same_connection
         | |- same_connection _ (RedisCache.set _ _ _ _ _ _).2 => apply set_same_connection
         | |- same_connection _ (RedisCache.delete _ _ _).2 => apply delete_same_connection
         | |- same_connection _ (RedisCache.has _ _ _).2 => apply has_same_connection
         | |- same_connection _ (RedisCache.flush _ _).2 => apply flush_same_connection
         | |- (_ -> _) /\ _ => split
         | |- (forall _, _) /\ _ => split
         end.
  - unfold RedisCache.get. rewrite Hon. simpl.
    destruct (Client.get key fault w) as [[data|] w']; simpl; [discriminate | done].
  - intros text. unfold RedisCache.get. rewrite Hon. simpl.
    destruct (Client.get key fault w) as [[data|] w']; simpl; [| discriminate].
    intros [= ->] Hparse. simpl. rewrite Hparse.
    by destruct (String.eqb text "").
  - unfold RedisCache.set. rewrite Hon. simpl.
    destruct (Client.setEx _ _ _ _ _) as [[u|] w']; simpl; [discriminate | done].
  - unfold RedisCache.delete. rewrite Hon. simpl.
    destruct (Client.del _ _ _) as [[u|] w']; simpl; [discriminate | done].
  - unfold RedisCache.has. rewrite Hon. simpl.
    destruct (Client.exists_ _ _ _) as [[u|] w']; simpl; [discriminate | done].
  - unfold RedisCache.flush. rewrite Hon. simpl.
    by destruct (Client.flushAll _ _) as [[u|] w'].
Qed.

Lemma failing_operation_keeps_connection_witness :
  (RedisCache.delete "k" true connected_world).1 = false /\
  same_connection connected_world (RedisCache.delete "k" true connected_world).2.
Proof.
  pose proof (failing_operation_keeps_connection JSON.scalar connected_world
                "k" JsNull None true eq_refl)
    as (_ & _ & _ & _ & _ & Hdel & Hsame & _).
  split; [exact (Hdel eq_refl) | exact Hsame].
Defined.

(** ** Time-to-live defaults *)

Lemma remote_set_calls_setEx
    (J : JsonCodec) (w : World) (key : string) (value : JsValue) (ttl : option Z)
    (fault : bool) :
  isAvailable w = true ->
  client_calls (RedisCache.set J key value ttl fault w).2 =
    (now w, EvClient (ClientSetEx key (RedisCache.expiry_of ttl) (stringify J value)))
      :: client_calls w.
Proof.
  unfold RedisCache.set, Client.setEx, client_calls. intros ->. simpl.
  destruct (stringify J value); simpl; [| reflexivity].
  by destruct (fault || _).
Qed.

(** C10. On the remote store an explicit ttl of 0 is the same call as
    no ttl at all: result and world agree, and on a connected instance
    the command sent is SETEX with 3600 seconds, which on success stores
    the entry with an expiry 3600 seconds from now. *)
Theorem remote_set_zero_ttl_is_default
    (J : JsonCodec) (w : World) (key : string) (value : JsValue) (fault : bool) :
  RedisCache.set J key value (Some 0) fault w = RedisCache.set J key value None fault w /\
  (isAvailable w = true ->
   client_calls (RedisCache.set J key value (Some 0) fault w).2 =
     (now w, EvClient (ClientSetEx key 3600 (stringify J value))) :: client_calls w) /\
  (isAvailable w = true -> fault = false ->
   forall text, stringify J value = Some text ->
     (RedisCache.set J key value (Some 0) fault w).1 = true /\
     backing (RedisCache.set J key value (Some 0) fault w).2 !! key =
       Some (text, now w + 3600 * 1000)).
Proof.
  split; [reflexivity |].
  split; [apply (remote_set_calls_setEx J w key value (Some 0) fault) |].
  unfold RedisCache.set, Client.setEx.
  intros -> -> text ->. simpl. split; [reflexivity |].
  by rewrite lookup_insert_eq.
Qed.

Lemma remote_set_zero_ttl_is_default_witness :
  backing (RedisCache.set JSON.scalar "k" (JsNum 7) (Some 0) false connected_world).2 !! "k"
  = Some ("7"%string, 3600000).
Proof.
  pose proof (remote_set_zero_ttl_is_default JSON.scalar connected_world "k" (JsNum 7) false)
    as (_ & _ & Hstored).
  destruct (Hstored eq_refl eq_refl "7"%string eq_refl) as [_ Hk].
  exact Hk.
Defined.

(** C7. A [set] without ttl: the remote store sends SETEX with 3600
    seconds; the local store passes [ttl ?? 3600] to node-cache, so the
    entry lives 3600 seconds as well and is still returned 301 seconds
    after the call.  The 300 seconds of [stdTTL] are never applied. *)
Theorem set_without_ttl_defaults
    (J : JsonCodec) (w : World) (t : Z) (key : string) (value : JsValue)
    (c : NodeCache.t) :
  (isAvailable w = true ->
   client_calls (RedisCache.set J key value None false w).2 =
     (now w, EvClient (ClientSetEx key 3600 (stringify J value))) :: client_calls w) /\
  NodeCache.data (CacheService.set t key value None c).2 !! key = Some (value, t + 3600 * 1000) /\
  (CacheService.get (t + 301 * 1000) key (CacheService.set t key value None c).2).1 = value.
Proof.
  split; [| split].
  - apply (remote_set_calls_setEx J w key value None false).
  - simpl. by rewrite lookup_insert_eq.
  - simpl. unfold NodeCache.get. simpl. rewrite lookup_insert_eq.
    unfold NodeCache.expired, NodeCache.livetime. simpl.
    replace (t + 3600 * 1000 <? t + 301 * 1000) with false
      by (symmetry; apply Z.ltb_ge; lia).
    by rewrite andb_false_r.
Qed.

Lemma set_without_ttl_defaults_witness :
  NodeCache.data local_with_k !! "k" = Some (JsNum 1, 3600000) /\
  (CacheService.get 301000 "k" local_with_k).1 = JsNum 1.
Proof.
  pose proof (set_without_ttl_defaults JSON.scalar connected_world 0 "k" (JsNum 1)
                CacheService.constructor) as (_ & Hdata & Hget).
  split; [exact Hdata | exact Hget].
Defined.

(** ** [delete] and [has] *)

(** The local [delete] tells whether the key was stored: 1 for a stored
    key, 0 for an absent one. *)
Lemma local_delete_depends_on_presence :
  ~ ((CacheService.delete "k" local_with_k).1 =
     (CacheService.delete "k" (CacheService.constructor (C := NodeCache.t))).1).
Proof. vm_compute. discriminate. Qed.

Lemma remote_delete_result (key : string) (fault : bool) (w : World) :
  (RedisCache.delete key fault w).1 = isAvailable w && negb fault.
Proof.
  unfold RedisCache.delete, Client.del.
  destruct (isAvailable w); simpl; [| reflexivity].
  by destruct fault.
Qed.

(** C8, as the code has it.  The remote [delete] returns whether the
    attempt succeeded, whatever the server holds, and deleting again
    changes nothing; the local [delete] never fails, returns the number
    of entries it removed (1 if the key was stored, 0 if not), and
    deleting again removes nothing more. *)
Theorem delete_idempotent_and_result (key : string) (fault : bool)
    (w1 w2 : World) (c : NodeCache.t) :
  (isAvailable w1 = isAvailable w2 ->
     (RedisCache.delete key fault w1).1 = (RedisCache.delete key fault w2).1) /\
  (isAvailable w1 = true ->
     let w' := (RedisCache.delete key false w1).2 in
     backing w' !! key = None /\
     (RedisCache.delete key false w').1 = true /\
     backing (RedisCache.delete key false w').2 = backing w') /\
  (CacheService.delete key c).1 = (if decide (is_Some (NodeCache.data c !! key)) then 1 else 0) /\
  (let c' := (CacheService.delete key c).2 in
   NodeCache.data c' !! key = None /\ CacheService.delete key c' = (0, c')).
Proof.
  split; [| split; [| split; [| split]]].
  - intros Heq. by rewrite !remote_delete_result, Heq.
  - intros Hon.
    assert (Hstep : RedisCache.delete key false w1
                    = (true, with_backing (base.delete key (backing w1))
                               (emit (EvClient (ClientDel key)) w1))).
    { unfold RedisCache.delete, Client.del. by rewrite Hon. }
    rewrite Hstep. cbn zeta. cbn [snd].
    split; [apply lookup_delete_eq |].
    unfold RedisCache.delete, Client.del. cbn [isAvailable with_backing emit with_trace negb].
    rewrite Hon. cbn. split; [reflexivity |].
    apply delete_id, lookup_delete_eq.
  - cbn. unfold NodeCache.del.
    destruct (NodeCache.data c !! key) as [e|] eqn:E; case_decide as D; try done.
    exfalso. apply D. eauto.
  - cbn. unfold NodeCache.del.
    destruct (NodeCache.data c !! key) as [e|] eqn:E; cbn; [apply lookup_delete_eq | done].
  - cbn. unfold NodeCache.del.
    destruct (NodeCache.data c !! key) as [e|] eqn:E; cbn.
    + by rewrite lookup_delete_eq.
    + by rewrite E.
Qed.

Lemma delete_idempotent_and_result_witness :
  (RedisCache.delete "k" false world_with_null).1 = (RedisCache.delete "k" false connected_world).1 /\
  (CacheService.delete "k" local_with_k).1 = 1.
Proof.
  pose proof (delete_idempotent_and_result "k" false world_with_null connected_world
                local_with_k) as (Hremote & _ & Hlocal & _).
  split; [exact (Hremote eq_refl) | exact Hlocal].
Defined.

(** After [set('k', null)] the key exists, so [has] is true, while [get]
    parses the stored text ["null"] and returns null. *)
Lemma has_true_but_get_null :
  ~ ((RedisCache.has "k" false world_with_null).1 = true <->
     (RedisCache.get JSON.scalar "k" false world_with_null).1 <> JsNull).
Proof.
  intros [Hto _].
  assert (Hhas : (RedisCache.has "k" false world_with_null).1 = true) by (vm_compute; reflexivity).
  apply (Hto Hhas). vm_compute. reflexivity.
Qed.

(** C9, as the code has it.  [has] is true exactly when the store is
    available, the EXISTS call does not fail and the server holds an
    unexpired entry for the key; whenever [get] returns a value other
    than null on a world, [has] without a failing call is true there. *)
Theorem has_iff_key_stored (J : JsonCodec) (w : World) (key : string) (fault : bool) :
  ((RedisCache.has key fault w).1 = true <->
     isAvailable w = true /\ fault = false /\ is_Some (Client.live w key)) /\
  ((RedisCache.get J key fault w).1 <> JsNull -> (RedisCache.has key false w).1 = true).
Proof.
  assert (Hlive : forall e, Client.live (emit e w) key = Client.live w key) by done.
  split.
  - unfold RedisCache.has, Client.exists_.
    destruct (isAvailable w); simpl; [| by split; [| intros (? & _)]].
    destruct fault; simpl; [by split; [| intros (_ & ? & _)] |].
    rewrite Hlive. destruct (Client.live w key) as [text|]; simpl.
    + split; [intros _; repeat split; eauto | reflexivity].
    + split; [discriminate | intros (_ & _ & [text Htext]); discriminate].
  - unfold RedisCache.get, RedisCache.has, Client.get, Client.exists_.
    destruct (isAvailable w); simpl; [| done].
    destruct fault; simpl; [done |].
    rewrite !Hlive. destruct (Client.live w key) as [text|]; simpl; done.
Qed.

Lemma has_iff_key_stored_witness :
  (RedisCache.has "k" false world_with_null).1 = true.
Proof.
  pose proof (has_iff_key_stored JSON.scalar world_with_null "k" false) as [[_ Hback] _].
  apply Hback. repeat split. vm_compute. eauto.
Defined.

(** ** [getOrSet] *)

Lemma getOrSet_hit_any_lib {C : Type} `{NodeCacheLib C} {S : Type}
    (t0 t1 : Z) (key : string) (callback : S -> Outcome JsValue * S)
    (ttl : option Z) (s : S) (c : C) :
  (CacheService.get t0 key c).1 <> JsUndefined ->
  CacheService.getOrSet t0 t1 key callback ttl s c
  = (Returned (CacheService.get t0 key c).1, s, (CacheService.get t0 key c).2).
Proof.
  intros Hhit. unfold CacheService.getOrSet.
  destruct (CacheService.get t0 key c) as [v c']. simpl in *.
  by case_decide.
Qed.

Lemma getOrSet_miss_any_lib {C : Type} `{NodeCacheLib C} {S : Type}
    (t0 t1 : Z) (key : string) (callback : S -> Outcome JsValue * S)
    (ttl : option Z) (s s' : S) (c : C) (v : JsValue) :
  (CacheService.get t0 key c).1 = JsUndefined ->
  callback s = (Returned v, s') ->
  CacheService.getOrSet t0 t1 key callback ttl s c
  = (Returned v, s', (CacheService.set t1 key v ttl (CacheService.get t0 key c).2).2).
Proof.
  intros Hmiss Hcb. unfold CacheService.getOrSet.
  destruct (CacheService.get t0 key c) as [u c']. simpl in *. subst u.
  case_decide; [| done]. rewrite Hcb.
  by destruct (CacheService.set t1 key v ttl c').
Qed.

(** C6. On the local store: when the key holds an unexpired value
    (other than [undefined]), [getOrSet] returns it and the callback does
    not run, the caller's state and the cache are as before; when the key
    is absent or expired and the callback resolves to [v], the callback
    has run once, [v] is stored under the key and returned.  Over any
    node-cache behaviour, also one whose [set] returns false, a miss
    returns the computed value after one run of the callback. *)
Theorem getOrSet_hit_and_miss {S : Type}
    (t0 t1 : Z) (key : string) (callback : S -> Outcome JsValue * S)
    (ttl : option Z) (s : S) (c : NodeCache.t) :
  (forall v e, NodeCache.data c !! key = Some (v, e) ->
     NodeCache.expired t0 (v, e) = false -> v <> JsUndefined ->
     CacheService.getOrSet t0 t1 key callback ttl s c = (Returned v, s, c)) /\
  (forall v s',
     (NodeCache.data c !! key = None \/
      exists entry, NodeCache.data c !! key = Some entry /\ NodeCache.expired t0 entry = true) ->
     callback s = (Returned v, s') ->
     exists c', CacheService.getOrSet t0 t1 key callback ttl s c = (Returned v, s', c') /\
       NodeCache.data c' !! key = Some (v, NodeCache.livetime t1 (default 3600 ttl))) /\
  (forall (C : Type) (lib : NodeCacheLib C) (c0 : C) v s',
     (nc_get t0 key c0).1 = JsUndefined ->
     callback s = (Returned v, s') ->
     (CacheService.getOrSet t0 t1 key callback ttl s c0).1 = (Returned v, s')).
Proof.
  split; [| split].
  - intros v e Hk Hlive Hv.
    assert (Hget : CacheService.get t0 key c = (v, c)).
    { cbn. unfold NodeCache.get. by rewrite Hk, Hlive. }
    rewrite getOrSet_hit_any_lib; rewrite Hget; done.
  - intros v s' Habsent Hcb.
    assert (Hget : (CacheService.get t0 key c).1 = JsUndefined).
    { cbn. unfold NodeCache.get.
      destruct Habsent as [-> | (entry & -> & ->)]; done. }
    eexists. split; [by apply getOrSet_miss_any_lib |].
    cbn. apply lookup_insert_eq.
  - intros C lib c0 v s' Hmiss Hcb.
    by rewrite (getOrSet_miss_any_lib t0 t1 key callback ttl s s' c0 v).
Qed.

Lemma getOrSet_hit_and_miss_witness :
  (* a miss on the fresh cache runs the callback once *)
  (CacheService.getOrSet 0 10 "k" (counting (JsNum 1)) None 0%nat
     (CacheService.constructor (C := NodeCache.t))).1 = (Returned (JsNum 1), 1%nat) /\
  (* a hit does not run it *)
  CacheService.getOrSet 20 30 "k" (counting (JsNum 2)) None 0%nat local_with_k
  = (Returned (JsNum 1), 0%nat, local_with_k).
Proof.
  split.
  - pose proof (getOrSet_hit_and_miss 0 10 "k" (counting (JsNum 1)) None 0%nat
                  (CacheService.constructor (C := NodeCache.t))) as (_ & Hmiss & _).
    destruct (Hmiss (JsNum 1) 1%nat (or_introl eq_refl) eq_refl) as (c' & -> & _).
    reflexivity.
  - pose proof (getOrSet_hit_and_miss 20 30 "k" (counting (JsNum 2)) None 0%nat
                  local_with_k) as (Hhit & _).
    apply (Hhit (JsNum 1) 3600000); [reflexivity | reflexivity | discriminate].
Defined.

(** ** The connection state machine *)

Lemma quiet_refl (w : World) : quiet w w.
Proof. repeat split. Qed.

Lemma quiet_trans (w1 w2 w3 : World) : quiet w1 w2 -> quiet w2 w3 -> quiet w1 w3.
Proof.
  unfold quiet. intros (?&?&?&?&?) (?&?&?&?&?). repeat split; congruence.
Qed.

Lemma quiet_inv (w w' : World) : quiet w w' -> Inv w -> Inv w'.
Proof.
  intros (Ht & Hn & Hr & Hnow & Htr) [].
  constructor; rewrite ?Ht, ?Hn, ?Hr, ?Hnow, ?Htr; assumption.
Qed.

Lemma quiet_emit (e : Event) (w : World) :
  is_tick (now w, e) = false -> quiet w (emit e w).
Proof.
  intros He. repeat split. unfold tick_times. simpl. by rewrite He.
Qed.

Ltac quiet_step :=
  first [ apply quiet_refl
        | apply quiet_emit; reflexivity
        | repeat split; reflexivity ].

Lemma inv_fresh_world (srv : gmap string (string * Z)) : Inv (RedisCache.fresh srv).
Proof.
  constructor; simpl; try done.
  intros t Ht. by apply elem_of_nil in Ht.
Qed.

Lemma inv_advance (dt : Z) (w : World) : 0 <= dt -> Inv w -> Inv (with_now (now w + dt) w).
Proof.
  intros Hdt []. constructor; simpl; try assumption.
  intros t Ht. specialize (inv_past0 t Ht). lia.
Qed.

Lemma inv_setTimeout (delay : Z) (w : World) :
  Inv w -> Inv (Timers.setTimeout CbConnect delay w).
Proof.
  intros []. constructor; simpl; try assumption.
  - intros id tm. rewrite lookup_insert. case_decide; [intros _; lia |].
    intros Hid. specialize (inv_fresh0 id tm Hid). lia.
  - intros id tm. rewrite lookup_insert. case_decide; [by intros [= <-] |].
    apply inv_timeout0.
  - intros id tm. rewrite lookup_insert. case_decide; [by intros [= <-] |].
    apply inv_interval0.
  - intros id Hid. destruct (inv_handle0 id Hid) as (tm & Htm & Hrt).
    exists tm. split; [| done].
    rewrite lookup_insert_ne; [done |]. specialize (inv_fresh0 id tm Htm). lia.
  - intros id tm t. rewrite lookup_insert. case_decide; [by intros [= <-] |].
    apply inv_next0.
Qed.

Lemma inv_startReconnection (w : World) : Inv w -> Inv (RedisCache.startReconnection w).
Proof.
  intros HI. unfold RedisCache.startReconnection.
  destruct (reconnectionTimer w) as [old|] eqn:Hold; [done |].
  destruct HI. constructor; simpl; try assumption.
  - intros id tm. rewrite lookup_insert. case_decide; [intros _; lia |].
    intros Hid. specialize (inv_fresh0 id tm Hid). lia.
  - intros id tm. rewrite lookup_insert. case_decide; [by intros [= <-] |].
    apply inv_timeout0.
  - intros id tm. rewrite lookup_insert. case_decide as Hid.
    + intros [= <-] _. by subst id.
    + intros Htm Hp. destruct (inv_interval0 id tm Htm Hp) as [Hr _]. congruence.
  - intros id [= <-]. eexists. by rewrite lookup_insert_eq.
  - intros id tm t. rewrite lookup_insert. case_decide as Hid.
    + intros [= <-] _ Ht. simpl. specialize (inv_past0 t Ht). lia.
    + intros Htm Hp. destruct (inv_interval0 id tm Htm Hp) as [Hr _]. congruence.
Qed.

Lemma inv_stopReconnectionTimer (w : World) :
  Inv w -> Inv (RedisCache.stopReconnectionTimer w).
Proof.
  intros HI. unfold RedisCache.stopReconnectionTimer.
  destruct (reconnectionTimer w) as [old|] eqn:Hold; [| done].
  destruct HI. constructor; simpl; try assumption.
  - intros id tm Hid. apply lookup_delete_Some in Hid as [_ Hid]. eauto.
  - intros id tm Hid. apply lookup_delete_Some in Hid as [_ Hid]. eauto.
  - intros id tm Hid Hp. apply lookup_delete_Some in Hid as [Hne Hid].
    destruct (inv_interval0 id tm Hid Hp) as [Hr _]. congruence.
  - done.
  - intros id tm t Hid. apply lookup_delete_Some in Hid as [_ Hid]. eauto.
Qed.

Lemma inv_connect (w : World) : Inv w -> Inv (RedisCache.connect w).
Proof.
  intros HI. unfold RedisCache.connect.
  destruct (_ <=? _)%nat.
  - apply inv_startReconnection. eapply quiet_inv; [| exact HI]. quiet_step.
  - eapply quiet_inv; [| exact HI]. simpl. destruct (isOpen w); quiet_step.
Qed.

Lemma inv_connect_resolved (w : World) : Inv w -> Inv (RedisCache.connect_resolved w).
Proof. intros HI. eapply quiet_inv; [| exact HI]. quiet_step. Qed.

Lemma inv_connect_rejected (w : World) : Inv w -> Inv (RedisCache.connect_rejected w).
Proof.
  intros HI. unfold RedisCache.connect_rejected.
  destruct (_ <? _)%nat.
  - apply inv_setTimeout. eapply quiet_inv; [| exact HI]. quiet_step.
  - apply inv_startReconnection. eapply quiet_inv; [| exact HI]. quiet_step.
Qed.

Lemma inv_onError (w : World) : Inv w -> Inv (RedisCache.onError w).
Proof.
  intros HI. unfold RedisCache.onError. destruct (isAvailable w); [| done].
  apply inv_startReconnection. eapply quiet_inv; [| exact HI]. quiet_step.
Qed.

Lemma inv_onConnect (w : World) : Inv w -> Inv (RedisCache.onConnect w).
Proof.
  intros HI. unfold RedisCache.onConnect, log.
  eapply quiet_inv; [apply quiet_emit; reflexivity |].
  apply inv_stopReconnectionTimer. eapply quiet_inv; [| exact HI]. quiet_step.
Qed.

Lemma inv_disconnect (quit_ok : bool) (w : World) :
  Inv w -> Inv (RedisCache.disconnect quit_ok w).2.
Proof.
  intros HI. unfold RedisCache.disconnect, Client.quit.
  eapply quiet_inv; [| apply inv_stopReconnectionTimer, HI].
  destruct quit_ok; simpl; quiet_step.
Qed.

Lemma quiet_get (J : JsonCodec) (key : string) (fault : bool) (w : World) :
  quiet w (RedisCache.get J key fault w).2.
Proof.
  unfold RedisCache.get, Client.get.
  destruct (isAvailable w); simpl; [| quiet_step].
  destruct fault; simpl; [quiet_step |].
  destruct (RedisCache.falsy _); simpl; [quiet_step |].
  destruct (parse J _); quiet_step.
Qed.

Lemma quiet_set (J : JsonCodec) (key : string) (value : JsValue) (ttl : option Z)
    (fault : bool) (w : World) :
  quiet w (RedisCache.set J key value ttl fault w).2.
Proof.
  unfold RedisCache.set, Client.setEx.
  destruct (isAvailable w); simpl; [| quiet_step].
  destruct (stringify J value); simpl; [| quiet_step].
  destruct (fault || _); quiet_step.
Qed.

Lemma quiet_delete (key : string) (fault : bool) (w : World) :
  quiet w (RedisCache.delete key fault w).2.
Proof.
  unfold RedisCache.delete, Client.del.
  destruct (isAvailable w); simpl; [| quiet_step].
  destruct fault; quiet_step.
Qed.

Lemma quiet_has (key : string) (fault : bool) (w : World) :
  quiet w (RedisCache.has key fault w).2.
Proof.
  unfold RedisCache.has, Client.exists_.
  destruct (isAvailable w); simpl; [| quiet_step].
  destruct fault; quiet_step.
Qed.

Lemma quiet_flush (fault : bool) (w : World) :
  quiet w (RedisCache.flush fault w).2.
Proof.
  unfold RedisCache.flush, Client.flushAll.
  destruct (isAvailable w); simpl; [| quiet_step].
  destruct fault; quiet_step.
Qed.

(** The tick itself: the interval has just been rescheduled one period
    from now, and every earlier tick is at least a period old. *)
Lemma inv_reconnectTick (id : nat) (w : World) :
  Inv w ->
  reconnectionTimer w = Some id ->
  timers w !! id = Some (mkTimer (now w + RedisCache.reconnectionInterval)
                           (Some RedisCache.reconnectionInterval) CbReconnectTick) ->
  (forall t, t ∈ tick_times (trace w) -> t + RedisCache.reconnectionInterval <= now w) ->
  Inv (RedisCache.reconnectTick w).
Proof.
  intros HI Hr Hid Hold. unfold RedisCache.reconnectTick.
  destruct (isAvailable w); simpl; [done |].
  apply inv_connect.
  destruct HI. constructor; simpl; try assumption.
  - intros t Ht. unfold tick_times in Ht. simpl in Ht.
    apply elem_of_cons in Ht as [-> | Ht]; [lia |]. by apply inv_past0.
  - intros id' tm t Hid' Hp Ht.
    destruct (inv_interval0 id' tm Hid' Hp) as [Hr' _].
    assert (id' = id) as -> by congruence.
    assert (tm = mkTimer (now w + RedisCache.reconnectionInterval)
                   (Some RedisCache.reconnectionInterval) CbReconnectTick) as -> by congruence.
    unfold tick_times in Ht. simpl in Ht. simpl.
    apply elem_of_cons in Ht as [-> | Ht]; [lia |].
    specialize (Hold t Ht). unfold RedisCache.reconnectionInterval in *. lia.
  - unfold tick_times. simpl. split; [exact Hold | exact inv_sep0].
Qed.

Lemma inv_reschedule (id : nat) (tm : Timer) (w : World) :
  Inv w ->
  timers w !! id = Some tm ->
  period tm <> None ->
  Inv (with_timers (<[id := mkTimer (now w + RedisCache.reconnectionInterval)
                            (Some RedisCache.reconnectionInterval) CbReconnectTick]> (timers w)) w).
Proof.
  intros HI Hid Hp. destruct HI.
  destruct (inv_interval0 id tm Hid Hp) as [Hr _].
  constructor; simpl; try assumption.
  - intros id' tm'. rewrite lookup_insert. case_decide as E; [subst; eauto | eauto].
  - intros id' tm'. rewrite lookup_insert. case_decide as E; [by intros [= <-] | eauto].
  - intros id' tm'. rewrite lookup_insert. case_decide as E; [| eauto].
    intros [= <-] _. subst id'. by split.
  - intros id' Hr'. assert (id' = id) as -> by congruence.
    eexists. by rewrite lookup_insert_eq.
  - intros id' tm' t. rewrite lookup_insert. case_decide as E; [| eauto].
    intros [= <-] _ Ht. simpl. specialize (inv_past0 t Ht). lia.
Qed.

Lemma inv_fire (id : nat) (w w' : World) :
  Inv w -> RedisCache.fire id w = Some w' -> Inv w'.
Proof.
  intros HI. unfold RedisCache.fire.
  destruct (timers w !! id) as [tm|] eqn:Hid; [| discriminate].
  destruct (due tm <=? now w) eqn:Hdue; [| discriminate].
  apply Z.leb_le in Hdue. intros [= <-].
  destruct (period tm) as [ms|] eqn:Hp.
  - assert (Hp' : period tm <> None) by congruence.
    destruct (inv_interval _ HI id tm Hid Hp') as [Hr [Hms Hcb]].
    assert (ms = RedisCache.reconnectionInterval) as -> by congruence.
    rewrite Hcb. simpl.
    apply (inv_reconnectTick id).
    + by apply (inv_reschedule id tm).
    + exact Hr.
    + simpl. by rewrite lookup_insert_eq.
    + simpl. intros t Ht. pose proof (inv_next _ HI id tm t Hid Hp' Ht). lia.
  - rewrite (inv_timeout _ HI id tm Hid Hp). simpl.
    apply inv_connect.
    destruct HI. constructor; simpl; try assumption.
    + intros id' tm' Hid'. apply lookup_delete_Some in Hid' as [_ Hid']. eauto.
    + intros id' tm' Hid'. apply lookup_delete_Some in Hid' as [_ Hid']. eauto.
    + intros id' tm' Hid'. apply lookup_delete_Some in Hid' as [_ Hid']. eauto.
    + intros id' Hr. destruct (inv_handle0 id' Hr) as (tm' & Hid' & Hrt).
      exists tm'. split; [| done].
      rewrite lookup_delete_ne; [done |].
      intros <-. destruct Hrt as [Hper _]. congruence.
    + intros id' tm' t Hid'. apply lookup_delete_Some in Hid' as [_ Hid']. eauto.
Qed.

Lemma inv_step (J : JsonCodec) (l : RedisCache.Label) (w w' : World) :
  Inv w -> RedisCache.step J w l = Some w' -> Inv w'.
Proof.
  intros HI. destruct l; simpl.
  - destruct (0 <=? dt) eqn:Hdt; [| discriminate]. intros [= <-].
    apply inv_advance; [by apply Z.leb_le | done].
  - by apply inv_fire.
  - destruct (inflight w) as [|n]; [discriminate |]. intros [= <-].
    assert (Inv (with_inflight n w)) by (eapply quiet_inv; [| exact HI]; quiet_step).
    destruct ok; [by apply inv_connect_resolved | by apply inv_connect_rejected].
  - intros [= <-]. by apply inv_onError.
  - intros [= <-]. by apply inv_onConnect.
  - intros [= <-]. eapply quiet_inv; [| exact HI]. quiet_step.
  - intros [= <-]. by apply inv_disconnect.
  - intros [= <-]. eapply quiet_inv; [apply quiet_get | done].
  - intros [= <-]. eapply quiet_inv; [apply quiet_set | done].
  - intros [= <-]. eapply quiet_inv; [apply quiet_delete | done].
  - intros [= <-]. eapply quiet_inv; [apply quiet_has | done].
  - intros [= <-]. eapply quiet_inv; [apply quiet_flush | done].
Qed.

Lemma inv_run (J : JsonCodec) (ls : list RedisCache.Label) (w w' : World) :
  Inv w -> RedisCache.run J w ls = Some w' -> Inv w'.
Proof.
  revert w. induction ls as [|l ls IH]; intros w HI; simpl.
  - by intros [= <-].
  - destruct (RedisCache.step J w l) as [w1|] eqn:Hstep; [| discriminate].
    apply IH. by apply (inv_step J l w).
Qed.

Lemma inv_constructor (srv : gmap string (string * Z)) : Inv (RedisCache.constructor srv).
Proof.
  unfold RedisCache.constructor. apply inv_connect.
  eapply quiet_inv; [| apply (inv_fresh_world srv)]. quiet_step.
Qed.

Lemma reachable_inv (J : JsonCodec) (w : World) : RedisCache.reachable J w -> Inv w.
Proof.
  intros (srv & ls & Hrun). eapply inv_run; [apply inv_constructor | exact Hrun].
Qed.

Lemma run_snoc (J : JsonCodec) (ls : list RedisCache.Label) (l : RedisCache.Label)
    (w w1 w2 : World) :
  RedisCache.run J w ls = Some w1 ->
  RedisCache.step J w1 l = Some w2 ->
  RedisCache.run J w (ls ++ [l]) = Some w2.
Proof.
  revert w. induction ls as [|l0 ls IH]; intros w; simpl.
  - intros [= ->] ->. reflexivity.
  - destruct (RedisCache.step J w l0); [apply IH | discriminate].
Qed.

Lemma reachable_step (J : JsonCodec) (l : RedisCache.Label) (w w' : World) :
  RedisCache.reachable J w -> RedisCache.step J w l = Some w' -> RedisCache.reachable J w'.
Proof.
  intros (srv & ls & Hrun) Hstep. exists srv, (ls ++ [l]). by apply (run_snoc J ls l _ w).
Qed.

Lemma separated_split (l1 l2 l3 : list Z) (t1 t2 : Z) :
  separated (l1 ++ t2 :: l2 ++ t1 :: l3) -> t1 + RedisCache.reconnectionInterval <= t2.
Proof.
  induction l1 as [|t l1 IH]; simpl.
  - intros [Hhd _]. apply Hhd. apply elem_of_app. right. apply elem_of_cons. by left.
  - intros [_ Htl]. by apply IH.
Qed.

Lemma startReconnection_timer (w : World) :
  Inv w ->
  let w' := RedisCache.startReconnection w in
  isAvailable w' = isAvailable w /\
  connectionAttempts w' = connectionAttempts w /\
  inflight w' = inflight w /\
  trace w' = trace w /\
  (forall id tm, timers w' !! id = Some tm -> period tm = None -> timers w !! id = Some tm) /\
  exists id tm, reconnectionTimer w' = Some id /\ timers w' !! id = Some tm /\
    is_reconnection_timer tm /\
    (reconnectionTimer w = None -> due tm = now w + RedisCache.reconnectionInterval).
Proof.
  intros HI. unfold RedisCache.startReconnection.
  destruct (reconnectionTimer w) as [old|] eqn:Hold; simpl.
  - do 4 (split; [reflexivity |]). split; [auto |].
    destruct (inv_handle _ HI old Hold) as (tm & Htm & Hrt).
    exists old, tm. do 3 (split; [assumption |]). discriminate.
  - do 4 (split; [reflexivity |]). split.
    + intros id tm. rewrite lookup_insert. case_decide; [by intros [= <-] | done].
    + eexists _, _. split; [reflexivity |]. rewrite lookup_insert_eq.
      split; [reflexivity |]. by repeat split.
Qed.

(** C2. In every world an instance can reach:
    - when a connection attempt fails with the attempt counter at its
      maximum, no retry timeout is added, and the reconnection interval
      of 30 seconds is active (started at that moment if none was);
    - when the interval ticks on a disconnected instance, the counter is
      reset and [connect()] runs again: the counter is 1, a new
      [client.connect()] is pending, and the interval stays scheduled 30
      seconds later;
    - any two such ticks are at least 30 seconds apart. *)
Theorem exhausted_retries_enter_periodic_mode (J : JsonCodec) (w : World) :
  RedisCache.reachable J w ->
  (forall w', (RedisCache.maxConnectionAttempts <= connectionAttempts w)%nat ->
     RedisCache.step J w (RedisCache.ConnectSettled false) = Some w' ->
     isAvailable w' = false /\
     connectionAttempts w' = connectionAttempts w /\
     (forall id tm, timers w' !! id = Some tm -> period tm = None ->
        timers w !! id = Some tm) /\
     exists id tm, reconnectionTimer w' = Some id /\ timers w' !! id = Some tm /\
       period tm = Some 30000 /\ callback tm = CbReconnectTick /\
       (reconnectionTimer w = None -> due tm = now w + 30000)) /\
  (forall id tm, timers w !! id = Some tm -> period tm <> None -> due tm <= now w ->
     isAvailable w = false ->
     exists w', RedisCache.step J w (RedisCache.Fire id) = Some w' /\
       connectionAttempts w' = 1%nat /\
       inflight w' = S (inflight w) /\
       head (trace w') = Some (now w, EvClient ClientConnect) /\
       tick_times (trace w') = now w :: tick_times (trace w) /\
       reconnectionTimer w' = Some id /\
       timers w' !! id = Some (mkTimer (now w + 30000) (Some 30000) CbReconnectTick)) /\
  (forall l1 l2 l3 t1 t2,
     tick_times (trace w) = l1 ++ t2 :: l2 ++ t1 :: l3 -> t1 + 30000 <= t2).
Proof.
  intros Hreach. pose proof (reachable_inv J w Hreach) as HI.
  split; [| split].
  - intros w' Hmax. simpl.
    destruct (inflight w) as [|n] eqn:Hn; [discriminate |]. intros [= <-].
    unfold RedisCache.connect_rejected. simpl.
    replace (connectionAttempts w <? RedisCache.maxConnectionAttempts)%nat with false
      by (symmetry; apply Nat.ltb_ge; exact Hmax).
    set (w0 := log Warn MsgMaxAttempts (with_isAvailable false (with_inflight n w))).
    assert (HI0 : Inv w0) by (eapply quiet_inv; [| exact HI]; quiet_step).
    destruct (startReconnection_timer w0 HI0)
      as (Hav & Hat & _ & _ & Hto & id & tm & Hr & Htm & [Hp Hcb] & Hdue).
    split; [by rewrite Hav |]. split; [by rewrite Hat |]. split; [exact Hto |].
    exists id, tm. repeat split; assumption.
  - intros id tm Hid Hp Hdue Hoff.
    destruct (inv_interval _ HI id tm Hid Hp) as [Hr [Hms Hcb]].
    simpl. unfold RedisCache.fire. rewrite Hid.
    replace (due tm <=? now w) with true by (symmetry; by apply Z.leb_le).
    rewrite Hms, Hcb. simpl. unfold RedisCache.reconnectTick. simpl. rewrite Hoff. simpl.
    eexists. split; [reflexivity |].
    unfold RedisCache.connect. simpl.
    destruct (isOpen w); simpl; repeat split; try done; by rewrite lookup_insert_eq.
  - intros l1 l2 l3 t1 t2 Heq. apply (separated_split l1 l2 l3).
    rewrite <- Heq. apply (inv_sep _ HI).
Qed.

Lemma third_attempt_pending_reachable :
  RedisCache.reachable JSON.scalar third_attempt_pending.
Proof.
  exists ∅,
    [RedisCache.ConnectSettled false; RedisCache.Advance 5000; RedisCache.Fire 0%nat;
     RedisCache.ConnectSettled false; RedisCache.Advance 5000; RedisCache.Fire 1%nat].
  vm_compute. reflexivity.
Defined.

Lemma exhausted_retries_enter_periodic_mode_witness :
  isAvailable periodic_mode_entered = false /\
  exists id tm, reconnectionTimer periodic_mode_entered = Some id /\
    timers periodic_mode_entered !! id = Some tm /\
    period tm = Some 30000 /\
    due tm = now third_attempt_pending + 30000.
Proof.
  assert (Hmax : (RedisCache.maxConnectionAttempts <= connectionAttempts third_attempt_pending)%nat)
    by (vm_compute; lia).
  assert (Hstep : RedisCache.step JSON.scalar third_attempt_pending (RedisCache.ConnectSettled false)
                  = Some periodic_mode_entered)
    by (vm_compute; reflexivity).
  assert (Hnone : reconnectionTimer third_attempt_pending = None)
    by (vm_compute; reflexivity).
  destruct (exhausted_retries_enter_periodic_mode JSON.scalar third_attempt_pending
              third_attempt_pending_reachable) as (Hfail & _ & _).
  destruct (Hfail periodic_mode_entered Hmax Hstep)
    as (Hav & _ & _ & id & tm & Hr & Htm & Hp & _ & Hdue).
  split; [exact Hav |].
  exists id, tm. do 3 (split; [assumption |]). exact (Hdue Hnone).
Defined.

(** C3. When the client signals an error on a connected instance,
    [isAvailable] becomes false and the 30-second reconnection interval
    is active (started at that moment if none was); the handler makes no
    call on the client, schedules no retry timeout and leaves the attempt
    counter as it was. *)
Theorem connected_drop_starts_periodic_timer (J : JsonCodec) (w : World) :
  RedisCache.reachable J w ->
  isAvailable w = true ->
  exists w', RedisCache.step J w RedisCache.EmitError = Some w' /\
    isAvailable w' = false /\
    (exists id tm, reconnectionTimer w' = Some id /\ timers w' !! id = Some tm /\
       period tm = Some 30000 /\ callback tm = CbReconnectTick /\
       (reconnectionTimer w = None -> due tm = now w + 30000)) /\
    connectionAttempts w' = connectionAttempts w /\
    inflight w' = inflight w /\
    client_calls w' = client_calls w /\
    (forall id tm, timers w' !! id = Some tm -> period tm = None ->
       timers w !! id = Some tm).
Proof.
  intros Hreach Hon. pose proof (reachable_inv J w Hreach) as HI.
  eexists. split; [reflexivity |].
  unfold RedisCache.onError. rewrite Hon.
  set (w0 := with_isAvailable false (log Error MsgClientError w)).
  assert (HI0 : Inv w0) by (eapply quiet_inv; [| exact HI]; quiet_step).
  destruct (startReconnection_timer w0 HI0)
    as (Hav & Hat & Hin & Htr & Hto & id & tm & Hr & Htm & [Hp Hcb] & Hdue).
  split; [by rewrite Hav |].
  split; [exists id, tm; by repeat split |].
  split; [by rewrite Hat |].
  split; [by rewrite Hin |].
  split; [unfold client_calls; by rewrite Htr | exact Hto].
Qed.

Lemma first_attempt_succeeded_reachable :
  RedisCache.reachable JSON.scalar first_attempt_succeeded.
Proof.
  exists ∅, [RedisCache.ConnectSettled true]. vm_compute. reflexivity.
Defined.

Lemma connected_drop_starts_periodic_timer_witness :
  exists w', RedisCache.step JSON.scalar first_attempt_succeeded RedisCache.EmitError = Some w' /\
    isAvailable w' = false /\
    connectionAttempts w' = connectionAttempts first_attempt_succeeded /\
    client_calls w' = client_calls first_attempt_succeeded.
Proof.
  assert (Hon : isAvailable first_attempt_succeeded = true) by (vm_compute; reflexivity).
  destruct (connected_drop_starts_periodic_timer JSON.scalar first_attempt_succeeded
              first_attempt_succeeded_reachable Hon)
    as (w' & Hstep & Hav & _ & Hat & _ & Hcalls & _).
  exists w'. split; [exact Hstep |]. split; [exact Hav |]. split; [exact Hat | exact Hcalls].
Defined.

(** ** Teardown *)

Lemma disconnect_clears_interval (quit_ok : bool) (w : World) :
  Inv w ->
  reconnectionTimer (RedisCache.disconnect quit_ok w).2 = None /\
  (forall id tm, timers (RedisCache.disconnect quit_ok w).2 !! id = Some tm ->
     period tm = None).
Proof.
  intros HI.
  assert (Hnone : reconnectionTimer (RedisCache.disconnect quit_ok w).2 = None).
  { unfold RedisCache.disconnect, Client.quit, RedisCache.stopReconnectionTimer.
    destruct quit_ok; destruct (reconnectionTimer w) eqn:Hr; simpl; done. }
  split; [exact Hnone |].
  intros id tm Hid. destruct (period tm) as [ms|] eqn:Hp; [| reflexivity].
  assert (Hp' : period tm <> None) by congruence.
  destruct (inv_interval _ (inv_disconnect quit_ok w HI) id tm Hid Hp') as [Hsome _].
  congruence.
Qed.

(** C4, on the code.  [disconnect] never throws and, on every reachable
    world, leaves no reconnection interval behind.  But a retry timeout
    scheduled by a failed attempt is still pending afterwards: five
    seconds later it fires and calls [client.connect()] again. *)
Theorem retry_timeout_survives_disconnect :
  (forall quit_ok w, (RedisCache.disconnect quit_ok w).1 = Returned tt) /\
  (forall J quit_ok w, RedisCache.reachable J w ->
     reconnectionTimer (RedisCache.disconnect quit_ok w).2 = None /\
     forall id tm, timers (RedisCache.disconnect quit_ok w).2 !! id = Some tm ->
       period tm = None) /\
  RedisCache.reachable JSON.scalar retry_scheduled /\
  let w := (RedisCache.disconnect true retry_scheduled).2 in
  timers w !! 0%nat = Some (mkTimer 5000 None CbConnect) /\
  exists w', RedisCache.run JSON.scalar w [RedisCache.Advance 5000; RedisCache.Fire 0%nat]
             = Some w' /\
    head (trace w') = Some (5000, EvClient ClientConnect) /\
    inflight w' = 1%nat /\
    connectionAttempts w' = 2%nat.
Proof.
  split; [| split; [| split; [| split]]].
  - intros quit_ok w. unfold RedisCache.disconnect.
    by destruct (Client.quit quit_ok _).
  - intros J quit_ok w Hreach.
    apply disconnect_clears_interval, (reachable_inv J w Hreach).
  - exists ∅, [RedisCache.ConnectSettled false]. vm_compute. reflexivity.
  - vm_compute. reflexivity.
  - exists (default (RedisCache.fresh ∅)
              (RedisCache.run JSON.scalar (RedisCache.disconnect true retry_scheduled).2
                 [RedisCache.Advance 5000; RedisCache.Fire 0%nat])).
    split; [vm_compute; reflexivity |].
    split; [vm_compute; reflexivity |].
    split; vm_compute; reflexivity.
Qed.

Lemma retry_timeout_survives_disconnect_witness :
  reconnectionTimer (RedisCache.disconnect true periodic_mode_entered).2 = None.
Proof.
  assert (Hstep : RedisCache.step JSON.scalar third_attempt_pending
                    (RedisCache.ConnectSettled false) = Some periodic_mode_entered)
    by (vm_compute; reflexivity).
  destruct retry_timeout_survives_disconnect as (_ & Hclear & _).
  apply (Hclear JSON.scalar true periodic_mode_entered).
  exact (reachable_step JSON.scalar _ _ _ third_attempt_pending_reachable Hstep).
Defined.

(** ** Further properties of the connection state machine *)

Lemma attempts_connect (w : World) :
  (connectionAttempts w <= RedisCache.maxConnectionAttempts)%nat ->
  (connectionAttempts (RedisCache.connect w) <= RedisCache.maxConnectionAttempts)%nat.
Proof.
  intros Hle. unfold RedisCache.connect.
  destruct (RedisCache.maxConnectionAttempts <=? connectionAttempts w)%nat eqn:Hmax.
  - unfold RedisCache.startReconnection. simpl.
    by destruct (reconnectionTimer w).
  - apply Nat.leb_gt in Hmax. simpl. destruct (isOpen w); simpl; lia.
Qed.

Lemma attempts_reconnectTick (w : World) :
  (connectionAttempts w <= RedisCache.maxConnectionAttempts)%nat ->
  (connectionAttempts (RedisCache.reconnectTick w) <= RedisCache.maxConnectionAttempts)%nat.
Proof.
  intros Hle. unfold RedisCache.reconnectTick.
  destruct (negb (isAvailable w)); [| done].
  apply attempts_connect. cbn. unfold RedisCache.maxConnectionAttempts. lia.
Qed.

Lemma attempts_startReconnection (w : World) :
  connectionAttempts (RedisCache.startReconnection w) = connectionAttempts w.
Proof. unfold RedisCache.startReconnection. by destruct (reconnectionTimer w). Qed.

Lemma attempts_stopReconnectionTimer (w : World) :
  connectionAttempts (RedisCache.stopReconnectionTimer w) = connectionAttempts w.
Proof. unfold RedisCache.stopReconnectionTimer. by destruct (reconnectionTimer w). Qed.

Lemma attempts_step (J : JsonCodec) (l : RedisCache.Label) (w w' : World) :
  (connectionAttempts w <= RedisCache.maxConnectionAttempts)%nat ->
  RedisCache.step J w l = Some w' ->
  (connectionAttempts w' <= RedisCache.maxConnectionAttempts)%nat.
Proof.
  intros Hle. destruct l; simpl.
  - destruct (0 <=? dt); [| discriminate]. by intros [= <-].
  - unfold RedisCache.fire. destruct (timers w !! id) as [tm|]; [| discriminate].
    destruct (due tm <=? now w); [| discriminate]. intros [= <-].
    destruct (callback tm); cbn [RedisCache.run_callback].
    + apply attempts_connect. by destruct (period tm).
    + apply attempts_reconnectTick. by destruct (period tm).
  - destruct (inflight w) as [|n]; [discriminate |]. intros [= <-].
    destruct ok; [done |]. unfold RedisCache.connect_rejected. simpl.
    destruct (_ <? _)%nat; [done |]. by rewrite attempts_startReconnection.
  - intros [= <-]. unfold RedisCache.onError. destruct (isAvailable w); [| done].
    by rewrite attempts_startReconnection.
  - intros [= <-]. unfold RedisCache.onConnect. simpl.
    rewrite attempts_stopReconnectionTimer. simpl.
    unfold RedisCache.maxConnectionAttempts. lia.
  - by intros [= <-].
  - intros [= <-]. unfold RedisCache.disconnect, Client.quit.
    destruct quit_ok; simpl; by rewrite attempts_stopReconnectionTimer.
  - intros [= <-]. by destruct (get_same_connection J key fault w) as (_ & -> & _).
  - intros [= <-]. by destruct (set_same_connection J key value ttl fault w) as (_ & -> & _).
  - intros [= <-]. by destruct (delete_same_connection key fault w) as (_ & -> & _).
  - intros [= <-]. by destruct (has_same_connection key fault w) as (_ & -> & _).
  - intros [= <-]. by destruct (flush_same_connection fault w) as (_ & -> & _).
Qed.

(** X1. The attempt counter never exceeds [maxConnectionAttempts]: in
    every world an instance can reach, [connectionAttempts <= 3]. *)
Theorem attempts_never_exceed_max (J : JsonCodec) (w : World) :
  RedisCache.reachable J w ->
  (connectionAttempts w <= RedisCache.maxConnectionAttempts)%nat.
Proof.
  intros (srv & ls & Hrun).
  assert (Hinit : (connectionAttempts (RedisCache.constructor srv)
                   <= RedisCache.maxConnectionAttempts)%nat).
  { apply attempts_connect. simpl. unfold RedisCache.maxConnectionAttempts. lia. }
  revert Hrun Hinit. generalize (RedisCache.constructor srv).
  induction ls as [|l ls IH]; intros w0; simpl.
  - by intros [= ->].
  - destruct (RedisCache.step J w0 l) as [w1|] eqn:Hstep; [| discriminate].
    intros Hrun Hle. apply (IH w1 Hrun). by apply (attempts_step J l w0).
Qed.

Lemma attempts_never_exceed_max_witness :
  (connectionAttempts third_attempt_pending <= 3)%nat.
Proof.
  exact (attempts_never_exceed_max JSON.scalar third_attempt_pending
           third_attempt_pending_reachable).
Defined.

(** X2. At most one reconnection interval is ever active: in every
    reachable world two interval timers are the same timer, it is the one
    whose handle is kept in [reconnectionTimer], and its period is 30
    seconds; conversely a kept handle always names a live interval. *)
Theorem at_most_one_reconnection_timer (J : JsonCodec) (w : World) :
  RedisCache.reachable J w ->
  (forall id1 id2 tm1 tm2,
     timers w !! id1 = Some tm1 -> period tm1 <> None ->
     timers w !! id2 = Some tm2 -> period tm2 <> None ->
     id1 = id2 /\ reconnectionTimer w = Some id1 /\ period tm1 = Some 30000) /\
  (forall id, reconnectionTimer w = Some id ->
     exists tm, timers w !! id = Some tm /\ period tm = Some 30000 /\
       callback tm = CbReconnectTick).
Proof.
  intros Hreach. pose proof (reachable_inv J w Hreach) as HI. split.
  - intros id1 id2 tm1 tm2 H1 Hp1 H2 Hp2.
    destruct (inv_interval _ HI id1 tm1 H1 Hp1) as [Hr1 [Hper _]].
    destruct (inv_interval _ HI id2 tm2 H2 Hp2) as [Hr2 _].
    split; [congruence |]. by split.
  - intros id Hr. destruct (inv_handle _ HI id Hr) as (tm & Htm & Hper & Hcb).
    exists tm. by repeat split.
Qed.

Lemma at_most_one_reconnection_timer_witness :
  exists tm, timers periodic_mode_entered !! 2%nat = Some tm /\ period tm = Some 30000.
Proof.
  assert (Hstep : RedisCache.step JSON.scalar third_attempt_pending
                    (RedisCache.ConnectSettled false) = Some periodic_mode_entered)
    by (vm_compute; reflexivity).
  assert (Hr : reconnectionTimer periodic_mode_entered = Some 2%nat)
    by (vm_compute; reflexivity).
  destruct (at_most_one_reconnection_timer JSON.scalar periodic_mode_entered
              (reachable_step JSON.scalar _ _ _ third_attempt_pending_reachable Hstep))
    as [_ Hhandle].
  destruct (Hhandle 2%nat Hr) as (tm & Htm & Hper & _).
  exists tm. by split.
Defined.

(** X3. The 'connect' event makes the instance available, resets the
    attempt counter and cancels the reconnection interval: no interval is
    left.  A retry timeout that was pending stays pending. *)
Theorem connect_event_resets (J : JsonCodec) (w : World) :
  RedisCache.reachable J w ->
  exists w', RedisCache.step J w RedisCache.EmitConnect = Some w' /\
    isAvailable w' = true /\
    connectionAttempts w' = 0%nat /\
    reconnectionTimer w' = None /\
    client_calls w' = client_calls w /\
    (forall id tm, timers w' !! id = Some tm -> period tm = None) /\
    (forall id tm, period tm = None ->
       timers w' !! id = Some tm <-> timers w !! id = Some tm).
Proof.
  intros Hreach. pose proof (reachable_inv J w Hreach) as HI.
  eexists. split; [reflexivity |].
  pose proof (inv_onConnect w HI) as HI'.
  unfold RedisCache.onConnect, RedisCache.stopReconnectionTimer in *. simpl in *.
  destruct (reconnectionTimer w) as [old|] eqn:Hold; simpl in *.
  - do 4 (split; [reflexivity |]).
    split.
    + intros id tm Hid. destruct (period tm) as [ms|] eqn:Hp; [| reflexivity].
      assert (Hp' : period tm <> None) by congruence.
      destruct (inv_interval _ HI' id tm Hid Hp') as [Hsome _]. discriminate.
    + intros id tm Hp. rewrite lookup_delete_Some. split; [by intros [_ ?] |].
      intros Hid. split; [| done]. intros <-.
      destruct (inv_handle _ HI old Hold) as (tm' & Htm' & Hper & _). congruence.
  - do 4 (split; [first [reflexivity | exact Hold] |]).
    split; [| done].
    intros id tm Hid. destruct (period tm) as [ms|] eqn:Hp; [| reflexivity].
    assert (Hp' : period tm <> None) by congruence.
    destruct (inv_interval _ HI id tm Hid Hp') as [Hsome _]. congruence.
Qed.

Lemma connect_event_resets_witness :
  exists w', RedisCache.step JSON.scalar retry_scheduled RedisCache.EmitConnect = Some w' /\
    isAvailable w' = true /\ connectionAttempts w' = 0%nat /\
    timers w' !! 0%nat = Some (mkTimer 5000 None CbConnect).
Proof.
  assert (Hreach : RedisCache.reachable JSON.scalar retry_scheduled).
  { exists ∅, [RedisCache.ConnectSettled false]. vm_compute. reflexivity. }
  assert (Hold : timers retry_scheduled !! 0%nat = Some (mkTimer 5000 None CbConnect))
    by (vm_compute; reflexivity).
  destruct (connect_event_resets JSON.scalar retry_scheduled Hreach)
    as (w' & Hstep & Hav & Hat & _ & _ & _ & Hkeep).
  exists w'. do 3 (split; [assumption |]).
  by apply (Hkeep 0%nat (mkTimer 5000 None CbConnect) eq_refl).
Defined.

(** X4. A retry timeout that fires when the attempt counter is already
    at its maximum makes no connection attempt: [connect()] returns at
    its guard, no call reaches the client, the counter stays, and the
    reconnection interval is active afterwards. *)
Theorem exhausted_retry_makes_no_attempt (J : JsonCodec) (w : World) (id : nat) (tm : Timer) :
  RedisCache.reachable J w ->
  timers w !! id = Some tm ->
  period tm = None ->
  due tm <= now w ->
  (RedisCache.maxConnectionAttempts <= connectionAttempts w)%nat ->
  exists w', RedisCache.step J w (RedisCache.Fire id) = Some w' /\
    client_calls w' = client_calls w /\
    inflight w' = inflight w /\
    connectionAttempts w' = connectionAttempts w /\
    isAvailable w' = isAvailable w /\
    timers w' !! id = None /\
    exists id' tm', reconnectionTimer w' = Some id' /\ timers w' !! id' = Some tm' /\
      period tm' = Some 30000 /\ callback tm' = CbReconnectTick.
Proof.
  intros Hreach Hid Hp Hdue Hmax. pose proof (reachable_inv J w Hreach) as HI.
  assert (Hfire : RedisCache.step J w (RedisCache.Fire id)
                  = Some (RedisCache.connect (with_timers (base.delete id (timers w)) w))).
  { simpl. unfold RedisCache.fire. rewrite Hid.
    replace (due tm <=? now w) with true by (symmetry; by apply Z.leb_le).
    by rewrite Hp, (inv_timeout _ HI id tm Hid Hp). }
  assert (HI' : Inv (RedisCache.connect (with_timers (base.delete id (timers w)) w))).
  { apply (inv_step J (RedisCache.Fire id) w); [exact HI | exact Hfire]. }
  eexists. split; [exact Hfire |].
  revert HI'. unfold RedisCache.connect. cbn [connectionAttempts with_timers].
  replace (RedisCache.maxConnectionAttempts <=? connectionAttempts w)%nat with true
    by (symmetry; by apply Nat.leb_le).
  set (w0 := log Warn MsgMaxAttempts (with_timers (base.delete id (timers w)) w)).
  intros HI'.
  assert (HI0 : Inv w0).
  { destruct HI. constructor; simpl; try assumption.
    - intros id' tm' Hid'. apply lookup_delete_Some in Hid' as [_ Hid']. eauto.
    - intros id' tm' Hid'. apply lookup_delete_Some in Hid' as [_ Hid']. eauto.
    - intros id' tm' Hid'. apply lookup_delete_Some in Hid' as [_ Hid']. eauto.
    - intros id' Hr. destruct (inv_handle0 id' Hr) as (tm' & Hid' & Hrt).
      exists tm'. split; [| done]. rewrite lookup_delete_ne; [done |].
      intros <-. destruct Hrt as [Hper _]. congruence.
    - intros id' tm' t Hid'. apply lookup_delete_Some in Hid' as [_ Hid']. eauto. }
  destruct (startReconnection_timer w0 HI0)
    as (Hav & Hat & Hin & Htr & Hto & id' & tm' & Hr & Htm' & [Hper Hcb] & _).
  split; [unfold client_calls; by rewrite Htr |].
  split; [by rewrite Hin |].
  split; [by rewrite Hat |].
  split; [by rewrite Hav |].
  split.
  - destruct (timers (RedisCache.startReconnection w0) !! id) as [tm0|] eqn:Hid0; [| done].
    destruct (period tm0) as [ms|] eqn:Hp0.
    + assert (Hp0' : period tm0 <> None) by congruence.
      destruct (inv_interval _ HI' id tm0 Hid0 Hp0') as [Hr0 _].
      assert (id' = id) as -> by congruence.
      unfold RedisCache.startReconnection in Hid0, Hr. subst w0. simpl in *.
      destruct (reconnectionTimer w) as [old|] eqn:Hold; simpl in *.
      * by rewrite lookup_delete_eq in Hid0.
      * injection Hr as Hr. pose proof (inv_fresh _ HI id tm Hid). lia.
    + specialize (Hto id tm0 Hid0 Hp0). subst w0. simpl in Hto.
      by rewrite lookup_delete_eq in Hto.
  - exists id', tm'. by repeat split.
Qed.

Lemma exhausted_retry_makes_no_attempt_witness :
  exists w', RedisCache.step JSON.scalar
               (default (RedisCache.fresh ∅)
                  (RedisCache.run JSON.scalar retry_scheduled
                     [RedisCache.EmitConnect; RedisCache.EmitError; RedisCache.Advance 30000;
                      RedisCache.Fire 1%nat; RedisCache.ConnectSettled false;
                      RedisCache.Advance 5000; RedisCache.Fire 2%nat;
                      RedisCache.ConnectSettled false;
                      RedisCache.Advance 5000; RedisCache.Fire 3%nat]))
               (RedisCache.Fire 0%nat) = Some w' /\
    inflight w' = 1%nat /\ connectionAttempts w' = 3%nat.
Proof.
  set (ls := [RedisCache.EmitConnect; RedisCache.EmitError; RedisCache.Advance 30000;
              RedisCache.Fire 1%nat; RedisCache.ConnectSettled false;
              RedisCache.Advance 5000; RedisCache.Fire 2%nat;
              RedisCache.ConnectSettled false;
              RedisCache.Advance 5000; RedisCache.Fire 3%nat]).
  set (w := default (RedisCache.fresh ∅) (RedisCache.run JSON.scalar retry_scheduled ls)).
  assert (Hreach : RedisCache.reachable JSON.scalar w).
  { exists ∅, (RedisCache.ConnectSettled false :: ls). vm_compute. reflexivity. }
  assert (Hid : timers w !! 0%nat = Some (mkTimer 5000 None CbConnect))
    by (vm_compute; reflexivity).
  assert (Hdue : due (mkTimer 5000 None CbConnect) <= now w) by (vm_compute; discriminate).
  assert (Hmax : (RedisCache.maxConnectionAttempts <= connectionAttempts w)%nat)
    by (vm_compute; lia).
  assert (Hin : inflight w = 1%nat) by (vm_compute; reflexivity).
  assert (Hat : connectionAttempts w = 3%nat) by (vm_compute; reflexivity).
  destruct (exhausted_retry_makes_no_attempt JSON.scalar w 0%nat _ Hreach Hid eq_refl Hdue Hmax)
    as (w' & Hstep & _ & Hin' & Hat' & _).
  exists w'. split; [exact Hstep |]. split; congruence.
Defined.

(** X5. While the instance is available, a tick of the reconnection
    interval only reschedules the interval: no log entry, no call on the
    client, and the connection state is as before. *)
Theorem tick_while_connected_is_idle (J : JsonCodec) (w : World) (id : nat) (tm : Timer) :
  RedisCache.reachable J w ->
  timers w !! id = Some tm ->
  period tm <> None ->
  due tm <= now w ->
  isAvailable w = true ->
  RedisCache.step J w (RedisCache.Fire id)
  = Some (with_timers (<[id := mkTimer (now w + 30000) (Some 30000) CbReconnectTick]> (timers w)) w).
Proof.
  intros Hreach Hid Hp Hdue Hon. pose proof (reachable_inv J w Hreach) as HI.
  destruct (inv_interval _ HI id tm Hid Hp) as [_ [Hms Hcb]].
  simpl. unfold RedisCache.fire. rewrite Hid.
  replace (due tm <=? now w) with true by (symmetry; by apply Z.leb_le).
  rewrite Hms, Hcb. simpl. unfold RedisCache.reconnectTick. simpl. by rewrite Hon.
Qed.

Lemma tick_while_connected_is_idle_witness :
  exists w', RedisCache.step JSON.scalar
               (default (RedisCache.fresh ∅)
                  (RedisCache.run JSON.scalar first_attempt_succeeded
                     [RedisCache.EmitError; RedisCache.Advance 30000; RedisCache.Fire 0%nat;
                      RedisCache.ConnectSettled true; RedisCache.Advance 30000]))
               (RedisCache.Fire 0%nat) = Some w' /\
    timers w' !! 0%nat = Some (mkTimer 90000 (Some 30000) CbReconnectTick).
Proof.
  set (ls := [RedisCache.EmitError; RedisCache.Advance 30000; RedisCache.Fire 0%nat;
              RedisCache.ConnectSettled true; RedisCache.Advance 30000]).
  set (w := default (RedisCache.fresh ∅)
              (RedisCache.run JSON.scalar first_attempt_succeeded ls)).
  assert (Hreach : RedisCache.reachable JSON.scalar w).
  { exists ∅, (RedisCache.ConnectSettled true :: ls). vm_compute. reflexivity. }
  assert (Hid : timers w !! 0%nat = Some (mkTimer 60000 (Some 30000) CbReconnectTick))
    by (vm_compute; reflexivity).
  assert (Hdue : due (mkTimer 60000 (Some 30000) CbReconnectTick) <= now w)
    by (vm_compute; discriminate).
  assert (Hon : isAvailable w = true) by (vm_compute; reflexivity).
  assert (Hnow : now w = 60000) by (vm_compute; reflexivity).
  eexists. split.
  - apply (tick_while_connected_is_idle JSON.scalar w 0%nat _ Hreach Hid);
      [done | exact Hdue | exact Hon].
  - cbn [timers with_timers]. rewrite lookup_insert_eq, Hnow. reflexivity.
Defined.

(** ** Round trips through the remote store *)

Lemma live_emit (e : Event) (w : World) (key : string) :
  Client.live (emit e w) key = Client.live w key.
Proof. reflexivity. Qed.

Lemma remote_get_result (J : JsonCodec) (w : World) (key : string) :
  isAvailable w = true ->
  (RedisCache.get J key false w).1 =
    match Client.live w key with
    | Some text =>
        if String.eqb text "" then JsNull
        else match parse J text with Some v => v | None => JsNull end
    | None => JsNull
    end.
Proof.
  intros Hon. unfold RedisCache.get, Client.get. rewrite Hon. simpl.
  rewrite live_emit. destruct (Client.live w key) as [text|]; simpl; [| done].
  destruct (String.eqb text ""); [done |]. by destruct (parse J text).
Qed.

Lemma remote_has_result (w : World) (key : string) :
  isAvailable w = true ->
  (RedisCache.has key false w).1 = bool_decide (is_Some (Client.live w key)).
Proof.
  intros Hon. unfold RedisCache.has, Client.exists_. rewrite Hon. simpl.
  rewrite live_emit. by destruct (Client.live w key) as [text|].
Qed.



(** X7. On a connected instance, after a successful [delete] of a key
    [get] returns null and [has] false for it, and every other key reads
    as before; after a successful [flush] this holds for every key. *)
Theorem remote_delete_and_flush_then_get (J : JsonCodec) (w : World) (key : string) :
  isAvailable w = true ->
  (exists w1, RedisCache.delete key false w = (true, w1) /\
     (RedisCache.get J key false w1).1 = JsNull /\
     (RedisCache.has key false w1).1 = false /\
     forall key', key' <> key ->
       (RedisCache.get J key' false w1).1 = (RedisCache.get J key' false w).1 /\
       (RedisCache.has key' false w1).1 = (RedisCache.has key' false w).1) /\
  (exists w1, RedisCache.flush false w = (Returned tt, w1) /\
     forall key',
       (RedisCache.get J key' false w1).1 = JsNull /\
       (RedisCache.has key' false w1).1 = false).
Proof.
  intros Hon. split.
  - eexists. split; [unfold RedisCache.delete, Client.del; by rewrite Hon |].
    set (w1 := with_backing _ _).
    assert (Hon1 : isAvailable w1 = true) by exact Hon.
    assert (Hgone : Client.live w1 key = None).
    { unfold Client.live. subst w1. simpl. by rewrite lookup_delete_eq. }
    rewrite (remote_get_result J w1 key Hon1), (remote_has_result w1 key Hon1), Hgone.
    split; [done |]. split; [apply bool_decide_eq_false_2; by intros [? ?] |].
    intros key' Hne.
    assert (Hsame : Client.live w1 key' = Client.live w key').
    { unfold Client.live. subst w1. simpl. by rewrite lookup_delete_ne. }
    by rewrite !remote_get_result, !remote_has_result, Hsame.
  - eexists. split; [unfold RedisCache.flush, Client.flushAll; by rewrite Hon |].
    set (w1 := with_backing _ _).
    assert (Hon1 : isAvailable w1 = true) by exact Hon.
    intros key'.
    assert (Hgone : Client.live w1 key' = None) by done.
    rewrite (remote_get_result J w1 key' Hon1), (remote_has_result w1 key' Hon1), Hgone.
    split; [done |]. apply bool_decide_eq_false_2. by intros [? ?].
Qed.

Lemma remote_delete_and_flush_then_get_witness :
  exists w1, RedisCache.delete "k" false world_with_null = (true, w1) /\
    (RedisCache.has "k" false w1).1 = false.
Proof.
  assert (Hon : isAvailable world_with_null = true) by (vm_compute; reflexivity).
  destruct (remote_delete_and_flush_then_get JSON.scalar world_with_null "k" Hon)
    as [(w1 & Hdel & _ & Hhas & _) _].
  exists w1. by split.
Defined.

(** ** Recovery without an operator *)

Lemma recovery_startReconnection (w : World) :
  Inv w -> recovery_pending (RedisCache.startReconnection w).
Proof.
  intros HI. right.
  destruct (startReconnection_timer w HI) as (_ & _ & _ & _ & _ & id & tm & _ & Htm & _).
  eauto.
Qed.

Lemma recovery_connect (w : World) :
  Inv w -> recovery_pending (RedisCache.connect w).
Proof.
  intros HI. unfold RedisCache.connect.
  destruct (_ <=? _)%nat.
  - apply recovery_startReconnection. eapply quiet_inv; [| exact HI]. quiet_step.
  - left. unfold Client.connect. simpl. lia.
Qed.

Lemma recovery_same_connection (w w' : World) :
  same_connection w w' ->
  (isAvailable w = false -> recovery_pending w) ->
  isAvailable w' = false -> recovery_pending w'.
Proof.
  intros (Hav & _ & _ & Ht & _ & Hin) Hrec Hoff.
  unfold recovery_pending. rewrite Ht, Hin. apply Hrec. congruence.
Qed.

Lemma recovery_step (J : JsonCodec) (l : RedisCache.Label) (w w' : World) :
  Inv w ->
  (isAvailable w = false -> recovery_pending w) ->
  is_teardown l = false ->
  RedisCache.step J w l = Some w' ->
  isAvailable w' = false -> recovery_pending w'.
Proof.
  intros HI Hrec Hl. destruct l; simpl in *; try discriminate.
  - destruct (0 <=? dt); [| discriminate]. by intros [= <-].
  - unfold RedisCache.fire.
    destruct (timers w !! id) as [tm|] eqn:Hid; [| discriminate].
    destruct (due tm <=? now w) eqn:Hdue; [| discriminate].
    intros Hfire.
    assert (HI' : Inv w').
    { apply (inv_fire id w); [exact HI |]. unfold RedisCache.fire. by rewrite Hid, Hdue. }
    injection Hfire as <-.
    destruct (period tm) as [ms|] eqn:Hp.
    + assert (Hp' : period tm <> None) by congruence.
      destruct (inv_interval _ HI id tm Hid Hp') as [_ [_ Hcb]].
      rewrite Hcb. cbn [RedisCache.run_callback].
      unfold RedisCache.reconnectTick. cbn [isAvailable with_timers].
      destruct (isAvailable w) eqn:Hav; cbn [negb].
      * cbn. congruence.
      * intros _. left. unfold RedisCache.connect, Client.connect. simpl. lia.
    + rewrite (inv_timeout _ HI id tm Hid Hp). cbn [RedisCache.run_callback].
      intros _. apply recovery_connect.
      destruct HI. constructor; simpl; try assumption.
      * intros id' tm' Hid'. apply lookup_delete_Some in Hid' as [_ Hid']. eauto.
      * intros id' tm' Hid'. apply lookup_delete_Some in Hid' as [_ Hid']. eauto.
      * intros id' tm' Hid'. apply lookup_delete_Some in Hid' as [_ Hid']. eauto.
      * intros id' Hr. destruct (inv_handle0 id' Hr) as (tm' & Hid' & Hrt).
        exists tm'. split; [| done]. rewrite lookup_delete_ne; [done |].
        intros <-. destruct Hrt as [Hper _]. congruence.
      * intros id' tm' t Hid'. apply lookup_delete_Some in Hid' as [_ Hid']. eauto.
  - destruct (inflight w) as [|n] eqn:Hn; [discriminate |]. intros [= <-].
    destruct ok; [discriminate |]. intros _.
    assert (HIn : Inv (with_inflight n w)) by (eapply quiet_inv; [| exact HI]; quiet_step).
    unfold RedisCache.connect_rejected.
    destruct (_ <? _)%nat.
    + right. unfold Timers.setTimeout. simpl. eexists _, _. apply lookup_insert_eq.
    + apply recovery_startReconnection. eapply quiet_inv; [| exact HIn]. quiet_step.
  - intros [= <-]. unfold RedisCache.onError.
    destruct (isAvailable w) eqn:Hav; [| intros _; by apply Hrec].
    intros _. apply recovery_startReconnection. eapply quiet_inv; [| exact HI]. quiet_step.
  - intros [= <-]. unfold RedisCache.onConnect, RedisCache.stopReconnectionTimer. simpl.
    destruct (reconnectionTimer w); discriminate.
  - intros [= <-]. exact Hrec.
  - intros [= <-]. apply (recovery_same_connection w); [apply get_same_connection | exact Hrec].
  - intros [= <-]. apply (recovery_same_connection w); [apply set_same_connection | exact Hrec].
  - intros [= <-]. apply (recovery_same_connection w); [apply delete_same_connection | exact Hrec].
  - intros [= <-]. apply (recovery_same_connection w); [apply has_same_connection | exact Hrec].
  - intros [= <-]. apply (recovery_same_connection w); [apply flush_same_connection | exact Hrec].
Qed.

(** X8. As long as [disconnect] is not called, an instance that is not
    available is never left without a way back: a [client.connect()] is
    pending, or a retry timeout or the reconnection interval is
    scheduled. *)
Theorem unavailable_instance_keeps_trying (J : JsonCodec)
    (srv : gmap string (string * Z)) (ls : list RedisCache.Label) (w : World) :
  RedisCache.run J (RedisCache.constructor srv) ls = Some w ->
  forallb (fun l => negb (is_teardown l)) ls = true ->
  isAvailable w = false ->
  (0 < inflight w)%nat \/ exists id tm, timers w !! id = Some tm.
Proof.
  assert (Hgen : forall ls w0 w1,
    Inv w0 -> (isAvailable w0 = false -> recovery_pending w0) ->
    RedisCache.run J w0 ls = Some w1 ->
    forallb (fun l => negb (is_teardown l)) ls = true ->
    isAvailable w1 = false -> recovery_pending w1).
  { clear. induction ls as [|l ls IH]; intros w0 w1 HI Hrec; simpl.
    - by intros [= <-].
    - destruct (RedisCache.step J w0 l) as [w'|] eqn:Hstep; [| discriminate].
      intros Hrun Hall. apply andb_true_iff in Hall as [Hl Hall].
      apply negb_true_iff in Hl.
      apply (IH w' w1); [by apply (inv_step J l w0) | | exact Hrun | exact Hall].
      by apply (recovery_step J l w0). }
  intros Hrun Hall. apply (Hgen ls (RedisCache.constructor srv) w); try done.
  - apply inv_constructor.
  - intros _. unfold RedisCache.constructor. apply recovery_connect.
    eapply quiet_inv; [| apply (inv_fresh_world srv)]. quiet_step.
Qed.

Lemma unavailable_instance_keeps_trying_witness :
  (0 < inflight periodic_mode_entered)%nat \/
  exists id tm, timers periodic_mode_entered !! id = Some tm.
Proof.
  apply (unavailable_instance_keeps_trying JSON.scalar ∅
           [RedisCache.ConnectSettled false; RedisCache.Advance 5000; RedisCache.Fire 0%nat;
            RedisCache.ConnectSettled false; RedisCache.Advance 5000; RedisCache.Fire 1%nat;
            RedisCache.ConnectSettled false]).
  - vm_compute. reflexivity.
  - reflexivity.
  - vm_compute. reflexivity.
Defined.

(** ** Further properties of the local store *)

Lemma local_get_after_set (t t' : Z) (key : string) (value : JsValue) (ttl : option Z)
    (c : NodeCache.t) :
  NodeCache.expired t' (value, NodeCache.livetime t (default 3600 ttl)) = false ->
  CacheService.get t' key (CacheService.set t key value ttl c).2
  = (value, (CacheService.set t key value ttl c).2).
Proof.
  intros Hlive.
  change (NodeCache.get t' key (NodeCache.set t key value (Some (default 3600 ttl)) c).2
          = (value, (NodeCache.set t key value (Some (default 3600 ttl)) c).2)).
  unfold NodeCache.get, NodeCache.set. cbn [snd NodeCache.data].
  by rewrite lookup_insert_eq, Hlive.
Qed.



(** X10. [getOrSet] memoizes: after a miss whose callback resolved to a
    value other than [undefined], a second [getOrSet] for the key, while
    the entry has not expired, returns that value and does not run its
    callback; the caller's state and the cache stay as they are. *)
Theorem getOrSet_twice_runs_callback_once {S : Type}
    (t0 t1 t2 t3 : Z) (key : string) (callback callback2 : S -> Outcome JsValue * S)
    (ttl ttl2 : option Z) (s s' : S) (c : NodeCache.t) (v : JsValue) :
  (CacheService.get t0 key c).1 = JsUndefined ->
  callback s = (Returned v, s') ->
  v <> JsUndefined ->
  NodeCache.expired t2 (v, NodeCache.livetime t1 (default 3600 ttl)) = false ->
  exists c1,
    CacheService.getOrSet t0 t1 key callback ttl s c = (Returned v, s', c1) /\
    CacheService.getOrSet t2 t3 key callback2 ttl2 s' c1 = (Returned v, s', c1).
Proof.
  intros Hmiss Hcb Hv Hlive.
  eexists. split; [by apply getOrSet_miss_any_lib |].
  rewrite getOrSet_hit_any_lib; rewrite local_get_after_set; done.
Qed.

Lemma getOrSet_twice_runs_callback_once_witness :
  exists c1,
    CacheService.getOrSet 0 10 "k" (counting (JsNum 1)) None 0%nat
      (CacheService.constructor (C := NodeCache.t)) = (Returned (JsNum 1), 1%nat, c1) /\
    CacheService.getOrSet 20 30 "k" (counting (JsNum 2)) None 1%nat c1
    = (Returned (JsNum 1), 1%nat, c1).
Proof.
  apply (getOrSet_twice_runs_callback_once 0 10 20 30 "k" (counting (JsNum 1))
           (counting (JsNum 2)) None None 0%nat 1%nat
           (CacheService.constructor (C := NodeCache.t)) (JsNum 1));
    [reflexivity | reflexivity | discriminate | reflexivity].
Defined.



(** X12. When the callback of [getOrSet] throws on a miss, the error
    reaches the caller after one run of the callback and nothing is
    stored: the cache is as the lookup left it, whatever node-cache
    does. *)
Theorem getOrSet_callback_failure_propagates {C : Type} `{NodeCacheLib C} {S : Type}
    (t0 t1 : Z) (key : string) (callback : S -> Outcome JsValue * S)
    (ttl : option Z) (s s' : S) (c : C) :
  (CacheService.get t0 key c).1 = JsUndefined ->
  callback s = (Threw, s') ->
  CacheService.getOrSet t0 t1 key callback ttl s c = (Threw, s', (CacheService.get t0 key c).2).
Proof.
  intros Hmiss Hcb. unfold CacheService.getOrSet.
  destruct (CacheService.get t0 key c) as [u c']. simpl in *. subst u.
  case_decide; [| done]. by rewrite Hcb.
Qed.

Lemma getOrSet_callback_failure_propagates_witness :
  CacheService.getOrSet 0 10 "k" (fun n : nat => (Threw, S n)) None 0%nat
    (CacheService.constructor (C := NodeCache.t))
  = (Threw, 1%nat, CacheService.constructor (C := NodeCache.t)).
Proof.
  rewrite (getOrSet_callback_failure_propagates 0 10 "k" (fun n : nat => (Threw, S n)) None
             0%nat 1%nat (CacheService.constructor (C := NodeCache.t))); reflexivity.
Defined.

(** ** The local store with an availability flag *)

(** X13. In the guarded [CacheService], a callback that throws is run a
    second time: on a miss (or when the cache is switched off) [getOrSet]
    answers with the outcome of the second run, and stores nothing. *)
Theorem guarded_getOrSet_reruns_failed_callback {C : Type} `{NodeCacheLib C} {S : Type}
    (t0 t1 : Z) (key : string) (callback : S -> Outcome JsValue * S) (ttl : option Z)
    (get_throws set_throws : bool) (s s1 : S) (st : GuardedCacheService.t C) :
  (GuardedCacheService.isAvailable st = true ->
   (GuardedCacheService.get t0 key get_throws st).1 = JsUndefined) ->
  callback s = (Threw, s1) ->
  GuardedCacheService.getOrSet t0 t1 key callback ttl get_throws set_throws s st
  = ((callback s1).1, (callback s1).2,
     if GuardedCacheService.isAvailable st
     then (GuardedCacheService.get t0 key get_throws st).2 else st).
Proof.
  intros Hmiss Hcb. unfold GuardedCacheService.getOrSet.
  destruct (GuardedCacheService.isAvailable st) eqn:Hav.
  - specialize (Hmiss eq_refl).
    destruct (GuardedCacheService.get t0 key get_throws st) as [v st']. simpl in *. subst v.
    case_decide; [| done]. rewrite Hcb. by destruct (callback s1).
  - simpl. rewrite Hcb. by destruct (callback s1).
Qed.

Lemma guarded_getOrSet_reruns_failed_callback_witness :
  GuardedCacheService.getOrSet (C := NodeCache.t) 0 10 "k" (fun n : nat => (Threw, S n)) None
    false false 0%nat (GuardedCacheService.constructor false)
  = (Threw, 2%nat, GuardedCacheService.constructor false).
Proof.
  rewrite (guarded_getOrSet_reruns_failed_callback (C := NodeCache.t) 0 10 "k"
             (fun n : nat => (Threw, S n)) None false false 0%nat 1%nat
             (GuardedCacheService.constructor false)); reflexivity.
Defined.

Lemma guarded_exec_unavailable {C : Type} `{NodeCacheLib C}
    (op : GuardedCacheService.Op) (st : GuardedCacheService.t C) :
  GuardedCacheService.isAvailable st = false ->
  GuardedCacheService.exec st op = st.
Proof.
  intros Hoff. destruct st as [c b]. simpl in Hoff. subst b.
  by destruct op.
Qed.

(** X14. Once the guarded [CacheService] is not available it stays so
    and is inert: whatever calls and 'error' events follow, the state is
    unchanged, [get] returns [undefined], [set] and [has] false, [delete]
    0, and [getOrSet] runs the callback once and returns its value
    without storing it. *)
Theorem guarded_unavailable_is_permanent {C : Type} `{NodeCacheLib C} {S : Type}
    (ops : list GuardedCacheService.Op) (st : GuardedCacheService.t C)
    (t0 t1 : Z) (key : string) (value : JsValue) (ttl : option Z) (throws throws' : bool)
    (callback : S -> Outcome JsValue * S) (s s' : S) (v : JsValue) :
  GuardedCacheService.isAvailable st = false ->
  callback s = (Returned v, s') ->
  let st' := foldl GuardedCacheService.exec st ops in
  st' = st /\
  GuardedCacheService.get t0 key throws st' = (JsUndefined, st) /\
  GuardedCacheService.set t0 key value ttl throws st' = (false, st) /\
  GuardedCacheService.delete key throws st' = (0, st) /\
  GuardedCacheService.has t0 key throws st' = (false, st) /\
  GuardedCacheService.flush throws st' = st /\
  GuardedCacheService.getOrSet t0 t1 key callback ttl throws throws' s st'
  = (Returned v, s', st).
Proof.
  intros Hoff Hcb.
  assert (Hsame : foldl GuardedCacheService.exec st ops = st).
  { induction ops as [|op ops IH]; [done |]. simpl.
    by rewrite guarded_exec_unavailable. }
  cbn zeta. rewrite Hsame. split; [done |].
  unfold GuardedCacheService.get, GuardedCacheService.set, GuardedCacheService.delete,
    GuardedCacheService.has, GuardedCacheService.flush, GuardedCacheService.getOrSet.
  rewrite Hoff. simpl. do 5 (split; [done |]).
  by rewrite Hcb, Hoff.
Qed.

Lemma guarded_unavailable_is_permanent_witness :
  foldl GuardedCacheService.exec (GuardedCacheService.constructor (C := NodeCache.t) true)
    [GuardedCacheService.OpSet 0 "k" (JsNum 1) None false;
     GuardedCacheService.OpGet 1 "k" false]
  = GuardedCacheService.constructor true /\
  GuardedCacheService.getOrSet 0 10 "k" (counting (JsNum 1)) None false false 0%nat
    (GuardedCacheService.constructor (C := NodeCache.t) true)
  = (Returned (JsNum 1), 1%nat, GuardedCacheService.constructor true).
Proof.
  destruct (guarded_unavailable_is_permanent (C := NodeCache.t)
              [GuardedCacheService.OpSet 0 "k" (JsNum 1) None false;
               GuardedCacheService.OpGet 1 "k" false]
              (GuardedCacheService.constructor true) 0 10 "k" (JsNum 1) None false false
              (counting (JsNum 1)) 0%nat 1%nat (JsNum 1) eq_refl eq_refl)
    as (Hst & _ & _ & _ & _ & _ & Hgos).
  split; [exact Hst |].
  rewrite Hst in Hgos. exact Hgos.
Defined.

(** X15. While it is available and no node-cache call throws, the
    guarded [CacheService] answers exactly as the plain one: the same
    results for [get], [set], [delete] and [has], the same cache
    afterwards, and the same [getOrSet] whenever the callback resolves. *)
Theorem guarded_agrees_with_plain {C : Type} `{NodeCacheLib C} {S : Type}
    (t0 t1 : Z) (key : string) (value : JsValue) (ttl : option Z) (c : C)
    (callback : S -> Outcome JsValue * S) (s s' : S) (v : JsValue) :
  let st := GuardedCacheService.mk c true in
  GuardedCacheService.get t0 key false st
  = ((CacheService.get t0 key c).1, GuardedCacheService.mk (CacheService.get t0 key c).2 true) /\
  GuardedCacheService.set t0 key value ttl false st
  = ((CacheService.set t0 key value ttl c).1,
     GuardedCacheService.mk (CacheService.set t0 key value ttl c).2 true) /\
  GuardedCacheService.delete key false st
  = ((CacheService.delete key c).1, GuardedCacheService.mk (CacheService.delete key c).2 true) /\
  GuardedCacheService.has t0 key false st
  = ((CacheService.has t0 key c).1, GuardedCacheService.mk (CacheService.has t0 key c).2 true) /\
  GuardedCacheService.flush false st = GuardedCacheService.mk (CacheService.flush c) true /\
  (callback s = (Returned v, s') ->
   GuardedCacheService.getOrSet t0 t1 key callback ttl false false s st
   = ((CacheService.getOrSet t0 t1 key callback ttl s c).1,
      GuardedCacheService.mk (CacheService.getOrSet t0 t1 key callback ttl s c).2 true)).
Proof.
  cbn zeta.
  unfold GuardedCacheService.getOrSet, CacheService.getOrSet.
  unfold GuardedCacheService.get, GuardedCacheService.set, GuardedCacheService.delete,
    GuardedCacheService.has, GuardedCacheService.flush,
    CacheService.get, CacheService.set, CacheService.delete,
    CacheService.has, CacheService.flush.
  cbn [GuardedCacheService.isAvailable GuardedCacheService.cache negb].
  split; [by destruct (nc_get t0 key c) |].
  split; [by destruct (nc_set t0 key value _ c) |].
  split; [by destruct (nc_del key c) |].
  split; [by destruct (nc_has t0 key c) |].
  split; [done |].
  intros Hcb. destruct (nc_get t0 key c) as [u c1]. cbn.
  destruct (decide (u = JsUndefined)); [| done]. rewrite Hcb. cbn.
  by destruct (nc_set t1 key v _ c1).
Qed.

Lemma guarded_agrees_with_plain_witness :
  GuardedCacheService.getOrSet 0 10 "k" (counting (JsNum 1)) None false false 0%nat
    (GuardedCacheService.mk (CacheService.constructor (C := NodeCache.t)) true)
  = (Returned (JsNum 1), 1%nat, GuardedCacheService.mk local_with_k_at_10 true).
Proof.
  destruct (guarded_agrees_with_plain (C := NodeCache.t) 0 10 "k" (JsNum 1) None
              CacheService.constructor (counting (JsNum 1)) 0%nat 1%nat (JsNum 1))
    as (_ & _ & _ & _ & _ & Hgos).
  rewrite (Hgos eq_refl). reflexivity.
Defined.

(** ** The in-memory user repository *)

Lemma findById_nil (id : string) : InMemoryUserRepository.findById id [] = None.
Proof. reflexivity. Qed.

Lemma findById_cons (id : string) (u : User.t) (users : list User.t) :
  InMemoryUserRepository.findById id (u :: users)
  = if decide (User.id u = id) then Some u else InMemoryUserRepository.findById id users.
Proof.
  unfold InMemoryUserRepository.findById. cbn.
  unfold InMemoryUserRepository.has_id, InMemoryUserRepository.has_id_dec.
  destruct (decide (User.id u = id)); [reflexivity |].
  by destruct (list_find _ users) as [[i x]|].
Qed.

Lemma findByEmail_cons (email : string) (u : User.t) (users : list User.t) :
  InMemoryUserRepository.findByEmail email (u :: users)
  = if decide (User.email u = email) then Some u
    else InMemoryUserRepository.findByEmail email users.
Proof.
  unfold InMemoryUserRepository.findByEmail. cbn.
  unfold InMemoryUserRepository.has_email, InMemoryUserRepository.has_email_dec.
  destruct (decide (User.email u = email)); [reflexivity |].
  by destruct (list_find _ users) as [[i x]|].
Qed.

Lemma findById_Some (id : string) (users : list User.t) (u : User.t) :
  InMemoryUserRepository.findById id users = Some u -> u ∈ users /\ User.id u = id.
Proof.
  induction users as [|x users IH]; [discriminate |].
  rewrite findById_cons. destruct (decide (User.id x = id)).
  - intros [= <-]. split; [left | done].
  - intros Hu. destruct (IH Hu). split; [by right | done].
Qed.

Lemma findById_None (id : string) (users : list User.t) :
  InMemoryUserRepository.findById id users = None <-> forall u, u ∈ users -> User.id u <> id.
Proof.
  induction users as [|x users IH].
  - split; [| done]. intros _ u Hu. by apply elem_of_nil in Hu.
  - rewrite findById_cons. destruct (decide (User.id x = id)) as [Hx|Hx].
    + split; [discriminate |]. intros Hall. destruct (Hall x); [left | done].
    + rewrite IH. split.
      * intros Hall u Hu. apply elem_of_cons in Hu as [-> | Hu]; auto.
      * intros Hall u Hu. apply Hall. by right.
Qed.

Lemma findByEmail_Some (email : string) (users : list User.t) (u : User.t) :
  InMemoryUserRepository.findByEmail email users = Some u -> u ∈ users /\ User.email u = email.
Proof.
  induction users as [|x users IH]; [discriminate |].
  rewrite findByEmail_cons. destruct (decide (User.email x = email)).
  - intros [= <-]. split; [left | done].
  - intros Hu. destruct (IH Hu). split; [by right | done].
Qed.

Lemma findByEmail_None (email : string) (users : list User.t) :
  InMemoryUserRepository.findByEmail email users = None
  <-> forall u, u ∈ users -> User.email u <> email.
Proof.
  induction users as [|x users IH].
  - split; [| done]. intros _ u Hu. by apply elem_of_nil in Hu.
  - rewrite findByEmail_cons. destruct (decide (User.email x = email)) as [Hx|Hx].
    + split; [discriminate |]. intros Hall. destruct (Hall x); [left | done].
    + rewrite IH. split.
      * intros Hall u Hu. apply elem_of_cons in Hu as [-> | Hu]; auto.
      * intros Hall u Hu. apply Hall. by right.
Qed.

Lemma delete_cons (id : string) (u : User.t) (users : list User.t) :
  InMemoryUserRepository.delete id (u :: users)
  = if decide (User.id u = id) then InMemoryUserRepository.delete id users
    else u :: InMemoryUserRepository.delete id users.
Proof.
  unfold InMemoryUserRepository.delete. rewrite filter_cons.
  unfold InMemoryUserRepository.has_id.
  destruct (decide (User.id u = id)); case_decide; done.
Qed.


(** X16. [delete(id)] removes every user with that id, also when the id
    was stored more than once: [findById(id)] is null afterwards, users
    with another id are found as before, and deleting again changes
    nothing. *)
Theorem in_memory_delete_then_find (id : string) (users : list User.t) :
  InMemoryUserRepository.findById id (InMemoryUserRepository.delete id users) = None /\
  (forall id', id' <> id ->
     InMemoryUserRepository.findById id' (InMemoryUserRepository.delete id users)
     = InMemoryUserRepository.findById id' users) /\
  InMemoryUserRepository.delete id (InMemoryUserRepository.delete id users)
  = InMemoryUserRepository.delete id users.
Proof.
  induction users as [|u users (IH1 & IH2 & IH3)]; [done |].
  rewrite delete_cons. destruct (decide (User.id u = id)) as [Hu|Hu].
  - split; [done |]. split; [| done].
    intros id' Hne. rewrite findById_cons, IH2 by done.
    destruct (decide (User.id u = id')); [congruence | done].
  - rewrite delete_cons, !findById_cons.
    destruct (decide (User.id u = id)); [done |].
    split; [done |]. split; [| by rewrite IH3].
    intros id' Hne. rewrite !findById_cons, IH2 by done. done.
Qed.

(** X17. [update(user)] overwrites the first stored user with that id
    and only that one; the array keeps its length; when no stored user
    has the id, nothing changes (the user is not added). *)
Theorem in_memory_update_first_match (u : User.t) (users : list User.t) :
  (InMemoryUserRepository.findById (User.id u) users = None ->
   InMemoryUserRepository.update u users = users) /\
  (forall l1 old l2,
     users = l1 ++ old :: l2 ->
     (forall x, x ∈ l1 -> User.id x <> User.id u) ->
     User.id old = User.id u ->
     InMemoryUserRepository.update u users = l1 ++ u :: l2 /\
     InMemoryUserRepository.findById (User.id u) (InMemoryUserRepository.update u users)
     = Some u) /\
  length (InMemoryUserRepository.update u users) = length users.
Proof.
  split; [| split].
  - unfold InMemoryUserRepository.findById, InMemoryUserRepository.update.
    by destruct (list_find _ users) as [[i x]|].
  - intros l1 old l2 -> Hl1 Hold.
    assert (Hfind : list_find (InMemoryUserRepository.has_id (User.id u)) (l1 ++ old :: l2)
                    = Some (length l1, old)).
    { apply list_find_Some. split; [| split].
      - by rewrite lookup_app_r, Nat.sub_diag by lia.
      - exact Hold.
      - intros j y Hj Hlt. rewrite lookup_app_l in Hj by done.
        apply Hl1. by apply list_elem_of_lookup_2 in Hj. }
    assert (Hupd : InMemoryUserRepository.update u (l1 ++ old :: l2) = l1 ++ u :: l2).
    { unfold InMemoryUserRepository.update. rewrite Hfind. cbn.
      rewrite insert_app_r_alt, Nat.sub_diag by lia. reflexivity. }
    split; [exact Hupd |]. rewrite Hupd.
    unfold InMemoryUserRepository.findById.
    assert (Hfind' : list_find (InMemoryUserRepository.has_id (User.id u)) (l1 ++ u :: l2)
                     = Some (length l1, u)).
    { apply list_find_Some. split; [| split].
      - by rewrite lookup_app_r, Nat.sub_diag by lia.
      - reflexivity.
      - intros j y Hj Hlt. rewrite lookup_app_l in Hj by done.
        apply Hl1. by apply list_elem_of_lookup_2 in Hj. }
    by rewrite Hfind'.
  - unfold InMemoryUserRepository.update.
    destruct (list_find _ users) as [[i x]|]; cbn; [apply length_insert | done].
Qed.

Lemma in_memory_update_first_match_witness :
  InMemoryUserRepository.update (User.mk "a" "new" "n@x" 0 5 true)
    [User.mk "b" "B" "b@x" 0 0 true; User.mk "a" "A" "a@x" 0 0 true;
     User.mk "a" "A2" "a2@x" 0 0 true]
  = [User.mk "b" "B" "b@x" 0 0 true; User.mk "a" "new" "n@x" 0 5 true;
     User.mk "a" "A2" "a2@x" 0 0 true].
Proof.
  destruct (in_memory_update_first_match (User.mk "a" "new" "n@x" 0 5 true)
              [User.mk "b" "B" "b@x" 0 0 true; User.mk "a" "A" "a@x" 0 0 true;
               User.mk "a" "A2" "a2@x" 0 0 true]) as (_ & Hfirst & _).
  destruct (Hfirst [User.mk "b" "B" "b@x" 0 0 true] (User.mk "a" "A" "a@x" 0 0 true)
              [User.mk "a" "A2" "a2@x" 0 0 true] eq_refl) as [Hupd _].
  - intros x Hx. apply list_elem_of_singleton in Hx as ->. discriminate.
  - reflexivity.
  - exact Hupd.
Defined.

Lemma in_memory_save_lookup (u : User.t) (users : list User.t) (id email : string) :
  InMemoryUserRepository.findById id (InMemoryUserRepository.save u users)
  = match InMemoryUserRepository.findById id users with
    | Some earlier => Some earlier
    | None => if decide (User.id u = id) then Some u else None
    end /\
  InMemoryUserRepository.findByEmail email (InMemoryUserRepository.save u users)
  = match InMemoryUserRepository.findByEmail email users with
    | Some earlier => Some earlier
    | None => if decide (User.email u = email) then Some u else None
    end.
Proof.
  unfold InMemoryUserRepository.save. split.
  - induction users as [|x users IH]; cbn [app].
    + by rewrite findById_cons.
    + rewrite !findById_cons. by destruct (decide (User.id x = id)).
  - induction users as [|x users IH]; cbn [app].
    + by rewrite findByEmail_cons.
    + rewrite !findByEmail_cons. by destruct (decide (User.email x = email)).
Qed.

(** X18. [save(user)] appends without looking for duplicates, and the
    finders return the first match: after [save], [findById] and
    [findByEmail] still return an earlier user with the same id or email
    if there is one, and the saved user otherwise. *)
Theorem in_memory_save_then_find (u : User.t) (users : list User.t) (id email : string) :
  InMemoryUserRepository.findById id (InMemoryUserRepository.save u users)
  = match InMemoryUserRepository.findById id users with
    | Some earlier => Some earlier
    | None => if decide (User.id u = id) then Some u else None
    end /\
  InMemoryUserRepository.findByEmail email (InMemoryUserRepository.save u users)
  = match InMemoryUserRepository.findByEmail email users with
    | Some earlier => Some earlier
    | None => if decide (User.email u = email) then Some u else None
    end /\
  InMemoryUserRepository.findAll (InMemoryUserRepository.save u users) = users ++ [u].
Proof.
  destruct (in_memory_save_lookup u users id email) as [Hid Hmail].
  split; [exact Hid |]. split; [exact Hmail | reflexivity].
Qed.

(** ** The user service *)

Lemma findById_split (id : string) (users : list User.t) (old : User.t) :
  InMemoryUserRepository.findById id users = Some old ->
  exists l1 l2, users = l1 ++ old :: l2 /\ (forall x, x ∈ l1 -> User.id x <> id) /\
    User.id old = id.
Proof.
  induction users as [|x users IH]; [discriminate |].
  rewrite findById_cons. destruct (decide (User.id x = id)) as [Hx|Hx].
  - intros [= <-]. exists [], users. split; [done |]. split; [| done].
    intros y Hy. by apply elem_of_nil in Hy.
  - intros Hold. destruct (IH Hold) as (l1 & l2 & -> & Hl1 & Hid).
    exists (x :: l1), l2. split; [done |]. split; [| done].
    intros y Hy. apply elem_of_cons in Hy as [-> | Hy]; auto.
Qed.

Lemma in_memory_update_split (u old : User.t) (l1 l2 : list User.t) :
  (forall x, x ∈ l1 -> User.id x <> User.id u) ->
  User.id old = User.id u ->
  InMemoryUserRepository.update u (l1 ++ old :: l2) = l1 ++ u :: l2.
Proof.
  intros Hl1 Hold.
  assert (Hfind : list_find (InMemoryUserRepository.has_id (User.id u)) (l1 ++ old :: l2)
                  = Some (length l1, old)).
  { apply list_find_Some. split; [| split].
    - by rewrite lookup_app_r, Nat.sub_diag by lia.
    - exact Hold.
    - intros j y Hj Hlt. rewrite lookup_app_l in Hj by done.
      apply Hl1. by apply list_elem_of_lookup_2 in Hj. }
  unfold InMemoryUserRepository.update. rewrite Hfind. cbn.
  rewrite insert_app_r_alt, Nat.sub_diag by lia. reflexivity.
Qed.

Lemma in_memory_update_absent (u : User.t) (users : list User.t) :
  InMemoryUserRepository.findById (User.id u) users = None ->
  InMemoryUserRepository.update u users = users.
Proof.
  unfold InMemoryUserRepository.findById, InMemoryUserRepository.update.
  by destruct (list_find _ users) as [[i x]|].
Qed.

Lemma findById_app_first (id : string) (l1 l2 : list User.t) (u : User.t) :
  (forall x, x ∈ l1 -> User.id x <> id) ->
  User.id u = id ->
  InMemoryUserRepository.findById id (l1 ++ u :: l2) = Some u.
Proof.
  intros Hl1 Hu. induction l1 as [|x l1 IH]; cbn [app]; rewrite findById_cons.
  - by rewrite decide_True.
  - rewrite decide_False by (apply Hl1; left). apply IH.
    intros y Hy. apply Hl1. by right.
Qed.

Lemma findByEmail_not_elem (email : string) (users : list User.t) :
  InMemoryUserRepository.findByEmail email users = None <-> email ∉ User.email <$> users.
Proof.
  rewrite findByEmail_None, list_elem_of_fmap. split.
  - intros Hall (x & -> & Hx). by apply (Hall x).
  - intros Hno x Hx Heq. apply Hno. exists x. by split.
Qed.

Lemma update_keeps_emails_unique (u old : User.t) (users : list User.t) :
  InMemoryUserRepository.findById (User.id u) users = Some old ->
  NoDup (User.email <$> users) ->
  User.email u = User.email old
  \/ InMemoryUserRepository.findByEmail (User.email u) users = None ->
  NoDup (User.email <$> InMemoryUserRepository.update u users) /\
  InMemoryUserRepository.findById (User.id u) (InMemoryUserRepository.update u users) = Some u /\
  (User.email u = User.email old ->
   User.email <$> InMemoryUserRepository.update u users = User.email <$> users).
Proof.
  intros Hold Hdup Hmail.
  destruct (findById_split _ _ _ Hold) as (l1 & l2 & -> & Hl1 & Hid).
  rewrite (in_memory_update_split u old l1 l2 Hl1 Hid).
  split; [| split].
  - revert Hdup. rewrite !fmap_app, !fmap_cons, !NoDup_app, !NoDup_cons.
    intros (Hd1 & Hd12 & Hold2 & Hd2).
    destruct Hmail as [Heq | Hfresh].
    + rewrite Heq. repeat split; auto.
    + apply findByEmail_not_elem in Hfresh.
      rewrite fmap_app, fmap_cons, elem_of_app, elem_of_cons in Hfresh.
      repeat split; auto.
      intros x Hx. rewrite elem_of_cons. intros [-> | Hx2]; [tauto |].
      apply (Hd12 x Hx). by right.
  - by apply findById_app_first.
  - intros Heq. by rewrite !fmap_app, !fmap_cons, Heq.
Qed.

Lemma delete_keeps_emails_unique (id : string) (users : list User.t) :
  NoDup (User.email <$> users) ->
  NoDup (User.email <$> InMemoryUserRepository.delete id users).
Proof.
  intros Hdup. apply (sublist_NoDup _ _ Hdup).
  apply fmap_sublist. unfold InMemoryUserRepository.delete. apply sublist_filter.
Qed.

Arguments InMemoryUserRepository.findById : simpl never.
Arguments InMemoryUserRepository.findByEmail : simpl never.
Arguments InMemoryUserRepository.update : simpl never.
Arguments InMemoryUserRepository.delete : simpl never.
Arguments InMemoryUserRepository.save : simpl never.

Section ServiceOverMemory.

Context {K : Type} `{CachePort K}.

Implicit Types st : UserServiceImpl.State (list User.t) K.

Lemma svc_cache {A : Type} (call : K -> A * K) st :
  UserServiceImpl.cacheService call st
  = (Ok (call (UserServiceImpl.cache st)).1,
     UserServiceImpl.mkState (UserServiceImpl.repo st) (call (UserServiceImpl.cache st)).2
       (UserServiceImpl.logs st)).
Proof. unfold UserServiceImpl.cacheService. by destruct (call _). Qed.

Lemma svc_bind_ok {A B : Type} (m : UserServiceImpl.M A) (k : A -> UserServiceImpl.M B)
    st st' (a : A) :
  m st = (Ok a, st') -> UserServiceImpl.bind m k st = k a st'.
Proof. intros Hm. unfold UserServiceImpl.bind. by rewrite Hm. Qed.

Lemma svc_bind_fail {A B : Type} (m : UserServiceImpl.M A) (k : A -> UserServiceImpl.M B)
    st st' (message : string) :
  m st = (Fail message, st') -> UserServiceImpl.bind m k st = (Fail message, st').
Proof. intros Hm. unfold UserServiceImpl.bind. by rewrite Hm. Qed.

(** What [createUser] does in each of its two cases. *)
Lemma createUser_cases (userData : CreateUserDTO) (uuid : string) (created updated : Z) st :
  UserServiceImpl.createUser userData uuid created updated st
  = match InMemoryUserRepository.findByEmail (create_email userData) (UserServiceImpl.repo st) with
    | Some _ =>
        (Fail "User with this email already exists",
         UserServiceImpl.mkState (UserServiceImpl.repo st) (UserServiceImpl.cache st)
           (UserServiceImpl.logs st
              ++ [(LogWarn, "Attempted to create user with existing email"%string)]))
    | None =>
        let user := User.mk uuid (create_name userData) (create_email userData)
                      created updated true in
        (Ok user,
         UserServiceImpl.mkState (InMemoryUserRepository.save user (UserServiceImpl.repo st))
           (port_delete "users:all" (UserServiceImpl.cache st)).2
           (UserServiceImpl.logs st ++ [(LogInfo, "User created successfully"%string)]))
    end.
Proof.
  destruct st as [users k lg]. unfold UserServiceImpl.createUser.
  unfold UserServiceImpl.bind at 1. cbn.
  destruct (InMemoryUserRepository.findByEmail (create_email userData) users)
    as [existing|]; [reflexivity |].
  unfold UserServiceImpl.bind at 1. cbn.
  unfold UserServiceImpl.bind at 1. rewrite svc_cache. reflexivity.
Qed.

(** X19. [createUser] with an email that a stored user already has
    throws 'User with this email already exists' and touches neither the
    repository nor the cache; with a new email it appends a [UserEntity]
    with a fresh id to the repository, and afterwards the user is found
    by that email. *)
Theorem createUser_checks_email (userData : CreateUserDTO) (uuid : string)
    (created updated : Z) st :
  (forall existing,
     InMemoryUserRepository.findByEmail (create_email userData) (UserServiceImpl.repo st)
     = Some existing ->
     exists st',
       UserServiceImpl.createUser userData uuid created updated st
       = (Fail "User with this email already exists", st') /\
       UserServiceImpl.repo st' = UserServiceImpl.repo st /\
       UserServiceImpl.cache st' = UserServiceImpl.cache st) /\
  (InMemoryUserRepository.findByEmail (create_email userData) (UserServiceImpl.repo st) = None ->
   exists user st',
     UserServiceImpl.createUser userData uuid created updated st = (Ok user, st') /\
     user = User.mk uuid (create_name userData) (create_email userData) created updated true /\
     UserServiceImpl.repo st' = UserServiceImpl.repo st ++ [user] /\
     InMemoryUserRepository.findByEmail (create_email userData) (UserServiceImpl.repo st')
     = Some user).
Proof.
  split.
  - intros existing Hex. rewrite createUser_cases, Hex. eexists. by repeat split.
  - intros Hnone. rewrite createUser_cases, Hnone. eexists _, _.
    split; [reflexivity |]. split; [reflexivity |]. split; [reflexivity |].
    cbn [UserServiceImpl.repo].
    destruct (in_memory_save_lookup
                (User.mk uuid (create_name userData) (create_email userData) created updated true)
                (UserServiceImpl.repo st) uuid (create_email userData)) as [_ Hmail].
    rewrite Hmail, Hnone. cbn [User.email]. by rewrite decide_True.
Qed.

Ltac svc_step :=
  unfold UserServiceImpl.bind at 1; rewrite ?svc_cache;
  cbn [UserServiceImpl.userRepository UserServiceImpl.logger UserServiceImpl.ret
       UserServiceImpl.throw UserServiceImpl.repo UserServiceImpl.cache UserServiceImpl.logs
       repo_findById repo_findByEmail repo_findAll repo_save repo_update repo_delete
       InMemoryUserRepository.repository fst snd].

Lemma deleteUser_cases (id : string) st :
  UserServiceImpl.deleteUser id st
  = match InMemoryUserRepository.findById id (UserServiceImpl.repo st) with
    | None =>
        (Ok false,
         UserServiceImpl.mkState (UserServiceImpl.repo st) (UserServiceImpl.cache st)
           (UserServiceImpl.logs st
              ++ [(LogWarn, "Attempted to delete non-existent user"%string)]))
    | Some user =>
        let k1 := (port_delete ("user:" +:+ id) (UserServiceImpl.cache st)).2 in
        let k2 := (port_delete ("user:email:" +:+ User.email user) k1).2 in
        let k3 := (port_delete "users:all" k2).2 in
        (Ok true,
         UserServiceImpl.mkState (InMemoryUserRepository.delete id (UserServiceImpl.repo st)) k3
           (UserServiceImpl.logs st ++ [(LogInfo, "User deleted successfully"%string)]))
    end.
Proof.
  destruct st as [users k lg]. unfold UserServiceImpl.deleteUser. svc_step.
  destruct (InMemoryUserRepository.findById id users) as [user|]; [| reflexivity].
  do 4 svc_step. reflexivity.
Qed.

Lemma getUserById_cases (id : string) st :
  UserServiceImpl.getUserById id st
  = let key := "user:" +:+ id in
    let k1 := (port_get key (UserServiceImpl.cache st)).2 in
    match (port_get key (UserServiceImpl.cache st)).1 with
    | Some cached =>
        (Ok (Some cached),
         UserServiceImpl.mkState (UserServiceImpl.repo st) k1
           (UserServiceImpl.logs st ++ [(LogDebug, "User retrieved from cache"%string)]))
    | None =>
        match InMemoryUserRepository.findById id (UserServiceImpl.repo st) with
        | None =>
            (Ok None,
             UserServiceImpl.mkState (UserServiceImpl.repo st) k1
               (UserServiceImpl.logs st ++ [(LogDebug, "User not found by ID"%string)]))
        | Some user =>
            (Ok (Some (CachedUser user)),
             UserServiceImpl.mkState (UserServiceImpl.repo st)
               (port_set key (CachedUser user) (Some 3600) k1).2 (UserServiceImpl.logs st))
        end
    end.
Proof.
  destruct st as [users k lg]. unfold UserServiceImpl.getUserById. cbn zeta. svc_step.
  destruct (port_get _ k).1 as [cached|]; [reflexivity |]. svc_step.
  destruct (InMemoryUserRepository.findById id users) as [user|]; [| reflexivity].
  svc_step. reflexivity.
Qed.

Lemma getUserByEmail_cases (email : string) st :
  UserServiceImpl.getUserByEmail email st
  = let key := "user:email:" +:+ email in
    let k1 := (port_get key (UserServiceImpl.cache st)).2 in
    match (port_get key (UserServiceImpl.cache st)).1 with
    | Some cached =>
        (Ok (Some cached),
         UserServiceImpl.mkState (UserServiceImpl.repo st) k1
           (UserServiceImpl.logs st
              ++ [(LogDebug, "User retrieved from cache by email"%string)]))
    | None =>
        match InMemoryUserRepository.findByEmail email (UserServiceImpl.repo st) with
        | None =>
            (Ok None,
             UserServiceImpl.mkState (UserServiceImpl.repo st) k1
               (UserServiceImpl.logs st ++ [(LogDebug, "User not found by email"%string)]))
        | Some user =>
            (Ok (Some (CachedUser user)),
             UserServiceImpl.mkState (UserServiceImpl.repo st)
               (port_set key (CachedUser user) (Some 3600) k1).2 (UserServiceImpl.logs st))
        end
    end.
Proof.
  destruct st as [users k lg]. unfold UserServiceImpl.getUserByEmail. cbn zeta. svc_step.
  destruct (port_get _ k).1 as [cached|]; [reflexivity |]. svc_step.
  destruct (InMemoryUserRepository.findByEmail email users) as [user|]; [| reflexivity].
  svc_step. reflexivity.
Qed.

Lemma getAllUsers_cases st :
  UserServiceImpl.getAllUsers st
  = let key := "users:all"%string in
    let k1 := (port_get key (UserServiceImpl.cache st)).2 in
    match (port_get key (UserServiceImpl.cache st)).1 with
    | Some cached =>
        (Ok cached,
         UserServiceImpl.mkState (UserServiceImpl.repo st) k1
           (UserServiceImpl.logs st ++ [(LogDebug, "All users retrieved from cache"%string)]))
    | None =>
        (Ok (CachedUsers (UserServiceImpl.repo st)),
         UserServiceImpl.mkState (UserServiceImpl.repo st)
           (port_set key (CachedUsers (UserServiceImpl.repo st)) (Some 300) k1).2
           (UserServiceImpl.logs st
              ++ [(LogDebug, "Retrieved all users from repository"%string)]))
    end.
Proof.
  destruct st as [users k lg]. unfold UserServiceImpl.getAllUsers. cbn zeta. svc_step.
  destruct (port_get _ k).1 as [cached|]; [reflexivity |].
  do 3 svc_step. reflexivity.
Qed.

Lemma checkEmail_cases (userData : UpdateUserDTO) (user : User.t) st :
  UserServiceImpl.checkEmail userData user st
  = match truthy (update_email userData) with
    | Some email =>
        if negb (String.eqb email (User.email user)) then
          match InMemoryUserRepository.findByEmail email (UserServiceImpl.repo st) with
          | Some _ =>
              (Fail "Email is already taken",
               UserServiceImpl.mkState (UserServiceImpl.repo st) (UserServiceImpl.cache st)
                 (UserServiceImpl.logs st
                    ++ [(LogWarn, "Attempted to update user with existing email"%string)]))
          | None => (Ok tt, st)
          end
        else (Ok tt, st)
    | None => (Ok tt, st)
    end.
Proof.
  destruct st as [users k lg]. unfold UserServiceImpl.checkEmail.
  destruct (truthy (update_email userData)) as [email|]; [| reflexivity].
  destruct (negb (String.eqb email (User.email user))); [| reflexivity].
  svc_step.
  destruct (InMemoryUserRepository.findByEmail email users) as [other|]; reflexivity.
Qed.

Lemma invalidate_repo (id : string) (userData : UpdateUserDTO) (user : User.t) st :
  exists k', UserServiceImpl.invalidate id userData user st
             = (Ok tt, UserServiceImpl.mkState (UserServiceImpl.repo st) k'
                         (UserServiceImpl.logs st)).
Proof.
  destruct st as [users k lg].
  unfold UserServiceImpl.invalidate, UserServiceImpl.invalidateEmail.
  svc_step. destruct (truthy (update_email userData)) as [email|].
  - do 4 svc_step. eexists. reflexivity.
  - do 2 svc_step. eexists. reflexivity.
Qed.

(** The new email of an updated user is the old one or an unused one. *)
Lemma updated_email_is_free (userData : UpdateUserDTO) (user : User.t) (now : Z) st st1 :
  UserServiceImpl.checkEmail userData user st = (Ok tt, st1) ->
  st1 = st /\
  (User.email (UserEntity.update (update_name userData) (update_email userData) now user)
   = User.email user
   \/ InMemoryUserRepository.findByEmail
        (User.email (UserEntity.update (update_name userData) (update_email userData) now user))
        (UserServiceImpl.repo st) = None).
Proof.
  rewrite checkEmail_cases. unfold UserEntity.update. cbn [User.email].
  destruct (truthy (update_email userData)) as [email|]; cbn [default].
  - destruct (String.eqb email (User.email user)) eqn:Heq; cbn [negb].
    + intros [= <-]. split; [done |]. left. by apply String.eqb_eq.
    + destruct (InMemoryUserRepository.findByEmail email (UserServiceImpl.repo st))
        as [other|] eqn:Hother; [discriminate |].
      intros [= <-]. split; [done |]. by right.
  - intros [= <-]. split; [done |]. by left.
Qed.

(** X20. The service keeps emails unique: if no two stored users share
    an email, that still holds after [createUser], [updateUser] and
    [deleteUser], whether they succeed or throw ([uuid], what
    [randomUUID()] returns, is not the id of a stored user). *)
Theorem service_keeps_emails_unique st :
  NoDup (User.email <$> UserServiceImpl.repo st) ->
  (forall userData uuid created updated,
     NoDup (User.email <$>
            UserServiceImpl.repo
              (UserServiceImpl.createUser userData uuid created updated st).2)) /\
  (forall id userData uuid created updated now,
     InMemoryUserRepository.findById uuid (UserServiceImpl.repo st) = None ->
     NoDup (User.email <$>
            UserServiceImpl.repo
              (UserServiceImpl.updateUser id userData uuid created updated now st).2)) /\
  (forall id,
     NoDup (User.email <$> UserServiceImpl.repo (UserServiceImpl.deleteUser id st).2)).
Proof.
  intros Hdup. split; [| split].
  - intros userData uuid created updated. rewrite createUser_cases.
    destruct (InMemoryUserRepository.findByEmail _ _) as [existing|] eqn:Hex; [done |].
    cbn. unfold InMemoryUserRepository.save.
    rewrite fmap_app, NoDup_app. split; [done |]. split; [| apply NoDup_singleton].
    intros x Hx. cbn. rewrite list_elem_of_singleton. intros ->.
    by apply findByEmail_not_elem in Hex.
  - intros id userData uuid created updated now Huuid.
    destruct st as [users k lg]. cbn [UserServiceImpl.repo] in *.
    unfold UserServiceImpl.updateUser. svc_step.
    destruct (InMemoryUserRepository.findById id users) as [user|] eqn:Hfound; [| done].
    destruct (findById_Some _ _ _ Hfound) as [_ Hid].
    unfold UserServiceImpl.bind at 1.
    destruct (UserServiceImpl.checkEmail userData user _) as [[[]|message] st1] eqn:Hcheck.
    2: { rewrite checkEmail_cases in Hcheck.
         destruct (truthy _); [| discriminate]. destruct (negb _); [| discriminate].
         destruct (InMemoryUserRepository.findByEmail _ _); [| discriminate].
         by injection Hcheck as _ <-. }
    destruct (updated_email_is_free userData user now _ _ Hcheck) as [-> Hfree].
    cbn [UserServiceImpl.repo] in Hfree.
    destruct (User.isUserEntity user) eqn:Hent; cbn [negb].
    + (* [user.update(userData)], then [update(user)] *)
      svc_step.
      set (u' := UserEntity.update _ _ now user) in *.
      assert (Hid' : User.id u' = id) by exact Hid.
      destruct (update_keeps_emails_unique u' user users) as (Hdup' & _ & _);
        [by rewrite Hid' | exact Hdup | exact Hfree |].
      unfold UserServiceImpl.bind at 1.
      destruct (invalidate_repo id userData u'
                  (UserServiceImpl.mkState (InMemoryUserRepository.update u' users) k lg))
        as [k' ->].
      svc_step. exact Hdup'.
    + (* a [UserEntity] is rebuilt and written twice *)
      unfold UserEntity.new. cbn [User.id User.name User.email].
      set (e1 := User.mk _ (User.name user) (User.email user) _ _ true).
      set (e2 := UserEntity.update _ _ now e1).
      assert (Hstep : NoDup (User.email <$>
                             InMemoryUserRepository.update e2
                               (InMemoryUserRepository.update e1 users))).
      { destruct (decide (User.id user = ""%string)) as [Hempty|Hfull].
        - assert (Hid1 : User.id e1 = uuid).
          { subst e1. cbn. by rewrite Hempty. }
          rewrite (in_memory_update_absent e1 users) by (by rewrite Hid1).
          rewrite (in_memory_update_absent e2 users)
            by (change (User.id e2) with (User.id e1); by rewrite Hid1).
          exact Hdup.
        - assert (Hid1 : User.id e1 = id).
          { subst e1. cbn. apply String.eqb_neq in Hfull. by rewrite Hfull. }
          destruct (update_keeps_emails_unique e1 user users) as (Hdup1 & Hfind1 & Hsame1);
            [by rewrite Hid1 | exact Hdup | by left |].
          specialize (Hsame1 eq_refl).
          destruct (update_keeps_emails_unique e2 e1 (InMemoryUserRepository.update e1 users))
            as (Hdup2 & _ & _); [exact Hfind1 | exact Hdup1 | | exact Hdup2].
          destruct Hfree as [Hsame | Hfresh]; [by left | right].
          apply findByEmail_not_elem. rewrite Hsame1.
          by apply findByEmail_not_elem. }
      do 2 svc_step.
      unfold UserServiceImpl.bind at 1.
      destruct (invalidate_repo id userData user
                  (UserServiceImpl.mkState
                     (InMemoryUserRepository.update e2 (InMemoryUserRepository.update e1 users))
                     k lg)) as [k' ->].
      svc_step. exact Hstep.
  - intros id. rewrite deleteUser_cases.
    destruct (InMemoryUserRepository.findById id _) as [user|]; [| done].
    cbn. by apply delete_keeps_emails_unique.
Qed.

Section WithLawfulCache.

Context `{!LawfulCache K}.


Lemma absent_after_get (key key' : string) (k : K) :
  content k !! key = None -> content (port_get key' k).2 !! key = None.
Proof.
  intros Hnone. eapply lookup_weaken_None; [exact Hnone |]. apply law_get.
Qed.







End WithLawfulCache.

End ServiceOverMemory.

Lemma createUser_checks_email_witness :
  exists st',
    UserServiceImpl.createUser {| create_name := "Al"; create_email := "alice@example.com" |}
      "3" 5 5 two_users
    = (Fail "User with this email already exists", st') /\
    UserServiceImpl.repo st' = [alice; bob].
Proof.
  destruct (createUser_checks_email
              {| create_name := "Al"; create_email := "alice@example.com" |} "3" 5 5 two_users)
    as [Hdup _].
  destruct (Hdup alice eq_refl) as (st' & Hres & Hrepo & _).
  exists st'. by split.
Defined.

Lemma service_keeps_emails_unique_witness :
  NoDup (User.email <$>
         UserServiceImpl.repo
           (UserServiceImpl.updateUser "2"
              {| update_name := None; update_email := Some "alice@example.com"%string |}
              "3" 5 5 9 two_users).2).
Proof.
  assert (Hdup : NoDup (User.email <$> UserServiceImpl.repo two_users)).
  { cbn. apply NoDup_cons. split; [| apply NoDup_singleton].
    rewrite list_elem_of_singleton. discriminate. }
  destruct (service_keeps_emails_unique two_users Hdup) as (_ & Hupd & _).
  apply Hupd. reflexivity.
Defined.



(** ** Which email keys [updateUser] invalidates *)

Lemma email_key_inj (a b : string) :
  "user:email:" +:+ a = "user:email:" +:+ b -> a = b.
Proof. intros Heq. injection Heq as Heq. exact Heq. Qed.

Lemma email_key_not_all (a : string) : "user:email:" +:+ a <> "users:all"%string.
Proof. cbn. discriminate. Qed.

Lemma email_key_is_id_key (a id : string) :
  "user:email:" +:+ a = "user:" +:+ id -> id = "email:" +:+ a.
Proof. intros Heq. injection Heq as Heq. symmetry. exact Heq. Qed.

(** X23. When the stored user is a [UserEntity], [updateUser] with a new
    email deletes the cache key of the new email twice and leaves the key
    of the previous email in place: [user.update(userData)] has already
    changed [user.email] when the keys are built.  A cached entry under
    the previous email is therefore still served by [getUserByEmail].
    When the stored user is a plain object, the key of the previous email
    is deleted. *)
Theorem updateUser_invalidates_new_email (id : string) (user : User.t)
    (userData : UpdateUserDTO) (uuid : string) (created updated now : Z)
    (email : string) (cached : Cached)
    (st : UserServiceImpl.State (list User.t) (gmap string Cached)) :
  InMemoryUserRepository.findById id (UserServiceImpl.repo st) = Some user ->
  truthy (update_email userData) = Some email ->
  email <> User.email user ->
  InMemoryUserRepository.findByEmail email (UserServiceImpl.repo st) = None ->
  UserServiceImpl.cache st !! ("user:email:" +:+ User.email user) = Some cached ->
  id <> "email:" +:+ User.email user ->
  exists user' st1,
    UserServiceImpl.updateUser id userData uuid created updated now st
    = (Ok (Some user'), st1) /\
    User.email user' = email /\
    UserServiceImpl.cache st1 !! ("user:email:" +:+ email) = None /\
    (User.isUserEntity user = true ->
     UserServiceImpl.cache st1 !! ("user:email:" +:+ User.email user) = Some cached /\
     exists st2, UserServiceImpl.getUserByEmail (User.email user) st1
                 = (Ok (Some cached), st2)) /\
    (User.isUserEntity user = false ->
     UserServiceImpl.cache st1 !! ("user:email:" +:+ User.email user) = None).
Proof.
  intros Hfound Hemail Hne Hfree Hcached Hid.
  destruct st as [users k lg]. cbn [UserServiceImpl.repo UserServiceImpl.cache] in *.
  assert (Hcheck : UserServiceImpl.checkEmail userData user
                     (UserServiceImpl.mkState users k lg)
                   = (Ok tt, UserServiceImpl.mkState users k lg)).
  { rewrite checkEmail_cases, Hemail. cbn [UserServiceImpl.repo].
    replace (String.eqb email (User.email user)) with false
      by (symmetry; by apply String.eqb_neq).
    cbn [negb]. by rewrite Hfree. }
  assert (Hkey_new : "user:email:" +:+ User.email user <> "user:email:" +:+ email).
  { intros Heq. apply Hne. symmetry. by apply email_key_inj. }
  assert (Hkey_id : "user:email:" +:+ User.email user <> "user:" +:+ id).
  { intros Heq. by apply Hid, email_key_is_id_key. }
  pose proof (email_key_not_all (User.email user)) as Hkey_all.
  unfold UserServiceImpl.updateUser.
  unfold UserServiceImpl.bind at 1. cbn [UserServiceImpl.userRepository repo_findById
    InMemoryUserRepository.repository UserServiceImpl.repo UserServiceImpl.cache
    UserServiceImpl.logs].
  rewrite Hfound. unfold UserServiceImpl.bind at 1. rewrite Hcheck.
  destruct (User.isUserEntity user) eqn:Hent; cbn [negb].
  - eexists _, _. split.
    { unfold UserServiceImpl.invalidate, UserServiceImpl.invalidateEmail.
      rewrite Hemail. reflexivity. }
    split; [unfold UserEntity.update; cbn; by rewrite Hemail |].
    cbn [UserServiceImpl.cache UserServiceImpl.repo UserServiceImpl.logs snd fst
         port_delete MapCache.port].
    unfold UserEntity.update. cbn [User.email]. rewrite Hemail.
    cbn [default from_option]. unfold Datatypes.id.
    split.
    { rewrite lookup_delete_ne by (apply not_eq_sym, email_key_not_all).
      apply lookup_delete_eq. }
    split; [| discriminate]. intros _.
    assert (Hstill : base.delete "users:all"%string
                       (base.delete ("user:email:" +:+ email)
                          (base.delete ("user:email:" +:+ email)
                             (base.delete ("user:" +:+ id) k)))
                     !! ("user:email:" +:+ User.email user) = Some cached).
    { rewrite !lookup_delete_ne by (by apply not_eq_sym). exact Hcached. }
    split; [exact Hstill |].
    rewrite (getUserByEmail_cases (K := gmap string Cached)). cbn zeta.
    cbn [UserServiceImpl.cache port_get MapCache.port fst snd].
    rewrite Hstill. eauto.
  - eexists _, _. split.
    { unfold UserServiceImpl.invalidate, UserServiceImpl.invalidateEmail.
      rewrite Hemail. reflexivity. }
    split; [unfold UserEntity.update; cbn; by rewrite Hemail |].
    cbn [UserServiceImpl.cache UserServiceImpl.repo UserServiceImpl.logs snd fst
         port_delete MapCache.port].
    split.
    { rewrite lookup_delete_ne by (apply not_eq_sym, email_key_not_all).
      rewrite lookup_delete_ne by (by apply not_eq_sym).
      apply lookup_delete_eq. }
    split; [discriminate |]. intros _.
    rewrite lookup_delete_ne by (by apply not_eq_sym).
    apply lookup_delete_eq.
Qed.

Lemma updateUser_invalidates_new_email_witness :
  exists user' st1 st2,
    UserServiceImpl.updateUser "1"
      {| update_name := None; update_email := Some "al@example.com"%string |}
      "3" 5 5 9 two_users_cached = (Ok (Some user'), st1) /\
    User.email user' = "al@example.com"%string /\
    UserServiceImpl.getUserByEmail "alice@example.com" st1
    = (Ok (Some (CachedUser alice)), st2).
Proof.
  destruct (updateUser_invalidates_new_email "1" alice
              {| update_name := None; update_email := Some "al@example.com"%string |}
              "3" 5 5 9 "al@example.com" (CachedUser alice) two_users_cached)
    as (user' & st1 & Hupd & Hmail & _ & Hentity & _);
    [reflexivity | reflexivity | discriminate | reflexivity | reflexivity | discriminate |].
  destruct (Hentity eq_refl) as [_ [st2 Hget]].
  by exists user', st1, st2.
Defined.

(** ** The JSON file repository *)

(** X24. What [JsonUserRepository] does in each state of its file.  While
    the file is missing, every method first creates it holding the empty
    list and then works on that list.  While its text cannot be parsed
    (an empty file is such a text), every method rejects with the parser's
    error and leaves the file as it is.  While it parses to a list, every
    method answers what [InMemoryUserRepository] answers on that list and
    writes that repository's new list; [update] of an unknown id writes
    nothing, [delete] of an unknown id rewrites the file. *)
Theorem json_repository_by_file_state (codec : UsersCodec) (id email : string) (u : User.t) :
  (let empty := Some (stringify_users codec []) in
   JsonUserRepository.findAll codec None = (Ok [], empty) /\
   JsonUserRepository.findById codec id None = (Ok None, empty) /\
   JsonUserRepository.findByEmail codec email None = (Ok None, empty) /\
   JsonUserRepository.update codec u None = (Ok tt, empty) /\
   JsonUserRepository.delete codec id None = (Ok tt, empty) /\
   JsonUserRepository.save codec u None = (Ok tt, Some (stringify_users codec [u]))) /\
  (forall data message,
     parse_users codec data = Fail message ->
     JsonUserRepository.findAll codec (Some data) = (Fail message, Some data) /\
     JsonUserRepository.findById codec id (Some data) = (Fail message, Some data) /\
     JsonUserRepository.findByEmail codec email (Some data) = (Fail message, Some data) /\
     JsonUserRepository.update codec u (Some data) = (Fail message, Some data) /\
     JsonUserRepository.delete codec id (Some data) = (Fail message, Some data) /\
     JsonUserRepository.save codec u (Some data) = (Fail message, Some data)) /\
  (forall data users,
     parse_users codec data = Ok users ->
     JsonUserRepository.findAll codec (Some data)
     = (Ok (InMemoryUserRepository.findAll users), Some data) /\
     JsonUserRepository.findById codec id (Some data)
     = (Ok (InMemoryUserRepository.findById id users), Some data) /\
     JsonUserRepository.findByEmail codec email (Some data)
     = (Ok (InMemoryUserRepository.findByEmail email users), Some data) /\
     JsonUserRepository.update codec u (Some data)
     = (Ok tt,
        match InMemoryUserRepository.findById (User.id u) users with
        | Some _ => Some (stringify_users codec (InMemoryUserRepository.update u users))
        | None => Some data
        end) /\
     JsonUserRepository.delete codec id (Some data)
     = (Ok tt, Some (stringify_users codec (InMemoryUserRepository.delete id users))) /\
     JsonUserRepository.save codec u (Some data)
     = (Ok tt, Some (stringify_users codec (InMemoryUserRepository.save u users)))).
Proof.
  split; [| split].
  - cbn zeta. repeat split.
  - intros data message Hbad.
    unfold JsonUserRepository.findAll, JsonUserRepository.findById,
      JsonUserRepository.findByEmail, JsonUserRepository.update,
      JsonUserRepository.delete, JsonUserRepository.save,
      JsonUserRepository.readUsersFile.
    rewrite Hbad. repeat split.
  - intros data users Hok.
    unfold JsonUserRepository.findAll, JsonUserRepository.findById,
      JsonUserRepository.findByEmail, JsonUserRepository.update,
      JsonUserRepository.delete, JsonUserRepository.save,
      JsonUserRepository.readUsersFile, JsonUserRepository.writeUsersFile.
    rewrite Hok. do 3 (split; [reflexivity |]). split; [| split; reflexivity].
    unfold InMemoryUserRepository.update, InMemoryUserRepository.findById.
    by destruct (list_find _ users) as [[index found]|].
Qed.

Lemma json_repository_by_file_state_witness :
  JsonUserRepository.save
    {| parse_users := fun _ => Ok [alice]; stringify_users := fun users => pretty (length users) |}
    bob (Some "[alice]")
  = (Ok tt, Some "2"%string).
Proof.
  destruct (json_repository_by_file_state
              {| parse_users := fun _ => Ok [alice];
                 stringify_users := fun users => pretty (length users) |} "1" "" bob)
    as (_ & _ & Hparsed).
  destruct (Hparsed "[alice]"%string [alice] eq_refl) as (_ & _ & _ & _ & _ & Hsave).
  rewrite Hsave. vm_compute. reflexivity.
Defined.

(** ** The validation middleware *)

Lemma collect_lookup (acc : gmap string (list string)) (errors : list ValidationError)
    (p : string) :
  foldl ValidationMiddleware.collect acc errors !! p
  = match last (omap (messages_for p) errors) with
    | Some messages => Some messages
    | None => acc !! p
    end.
Proof.
  revert acc. induction errors as [|e errors IH]; intros acc; [reflexivity |].
  cbn [foldl]. rewrite IH.
  change (omap (messages_for p) (e :: errors))
    with (match messages_for p e with
          | Some messages => messages :: omap (messages_for p) errors
          | None => omap (messages_for p) errors
          end).
  unfold messages_for at 2, ValidationMiddleware.collect.
  destruct (decide (property e = p)) as [Heq|Hne].
  - destruct (constraints e) as [messages|]; [| reflexivity].
    rewrite last_cons, Heq, lookup_insert_eq.
    by destruct (last (omap _ errors)).
  - destruct (last (omap _ errors)); [reflexivity |].
    destruct (constraints e) as [messages|]; [| reflexivity].
    by rewrite lookup_insert_ne.
Qed.

Lemma messages_for_none (p : string) (errors : list ValidationError) :
  Forall (fun error => constraints error = None) errors ->
  omap (messages_for p) errors = [].
Proof.
  induction 1 as [|e errors He _ IH]; [reflexivity |].
  change (omap (messages_for p) (e :: errors))
    with (match messages_for p e with
          | Some messages => messages :: omap (messages_for p) errors
          | None => omap (messages_for p) errors
          end).
  unfold messages_for at 1. rewrite He, IH.
  by destruct (decide (property e = p)).
Qed.

(** X25. The validation middleware calls [next] with the DTO exactly
    when [validate] found no error.  Otherwise it answers 400 'Validation
    failed', and the answer lists, for a property, the constraint messages
    of the last error of that property that has constraints; an error
    without constraints (one that only has children) is left out, so the
    list of a 400 answer can be empty. *)
Theorem validation_reports_last_constraints {Dto : Type} (dtoObj : Dto)
    (errors : list ValidationError) :
  (errors = [] -> ValidationMiddleware.validationMiddleware dtoObj errors
                  = ValidationMiddleware.Next dtoObj) /\
  (errors <> [] ->
   exists formatted,
     ValidationMiddleware.validationMiddleware dtoObj errors
     = ValidationMiddleware.Respond 400 "Validation failed" formatted /\
     (forall p, formatted !! p = last (omap (messages_for p) errors)) /\
     (Forall (fun error => constraints error = None) errors -> formatted = ∅)).
Proof.
  split; [by intros -> |].
  intros Hne. destruct errors as [|e errors]; [done |].
  eexists. split; [reflexivity |].
  assert (Hlookup : forall p,
            foldl ValidationMiddleware.collect ∅ (e :: errors) !! p
            = last (omap (messages_for p) (e :: errors))).
  { intros p. rewrite collect_lookup, lookup_empty.
    by destruct (last (omap _ (e :: errors))). }
  split; [exact Hlookup |].
  intros Hnone. apply map_eq. intros p. rewrite Hlookup, lookup_empty.
  by rewrite messages_for_none.
Qed.

Lemma validation_reports_last_constraints_witness :
  exists formatted,
    ValidationMiddleware.validationMiddleware tt
      [ {| property := "email"; constraints := Some ["email must be an email"%string] |};
        {| property := "address"; constraints := None |};
        {| property := "email"; constraints := Some ["email should not be empty"%string] |} ]
    = ValidationMiddleware.Respond 400 "Validation failed" formatted /\
    formatted !! "email"%string = Some ["email should not be empty"%string] /\
    formatted !! "address"%string = None.
Proof.
  destruct (validation_reports_last_constraints tt
              [ {| property := "email"; constraints := Some ["email must be an email"%string] |};
                {| property := "address"; constraints := None |};
                {| property := "email";
                   constraints := Some ["email should not be empty"%string] |} ])
    as [_ Hsome].
  destruct Hsome as (formatted & Hresp & Hlookup & _); [discriminate |].
  exists formatted. split; [exact Hresp |]. by rewrite !Hlookup.
Defined.

(** ** The user endpoints *)

Ltac svc_step :=
  unfold UserServiceImpl.bind at 1; rewrite ?svc_cache;
  cbn [UserServiceImpl.userRepository UserServiceImpl.logger UserServiceImpl.ret
       UserServiceImpl.throw UserServiceImpl.repo UserServiceImpl.cache UserServiceImpl.logs
       repo_findById repo_findByEmail repo_findAll repo_save repo_update repo_delete
       InMemoryUserRepository.repository fst snd].

Section ControllerOverMemory.

Context {K : Type} `{CachePort K}.

Implicit Types st : UserServiceImpl.State (list User.t) K.

(** The part of [updateUser] after the check of the email. *)
Ltac finish_update :=
  match goal with
  | Hrest : forall st0 m, _ -> m st0 = _ -> _ |- _ => cbn beta iota; apply Hrest
  end;
  match goal with
  | |- context [User.isUserEntity ?user] => destruct (User.isUserEntity user)
  end;
  cbn [negb]; cbn zeta; [svc_step | do 2 svc_step];
  unfold UserServiceImpl.bind at 1;
  match goal with
  | |- context [UserServiceImpl.invalidate ?i ?d ?u ?s] =>
      destruct (invalidate_repo i d u s) as (k' & ->)
  end;
  svc_step; eauto.

(** What [updateUser] of the service answers. *)
Lemma updateUser_answer (id : string) (userData : UpdateUserDTO) (uuid : string)
    (created updated now : Z) st (r : Result (option User.t)) st' :
  UserServiceImpl.updateUser id userData uuid created updated now st = (r, st') ->
  match InMemoryUserRepository.findById id (UserServiceImpl.repo st) with
  | None => r = Ok None
  | Some user =>
      if email_taken (update_email userData) user (UserServiceImpl.repo st)
      then r = Fail "Email is already taken"
      else exists updatedUser, r = Ok (Some updatedUser)
  end.
Proof.
  destruct st as [users k lg]. unfold UserServiceImpl.updateUser. svc_step.
  destruct (InMemoryUserRepository.findById id users) as [user|];
    [| by intros [= <- _]].
  unfold UserServiceImpl.bind at 1. rewrite checkEmail_cases. unfold email_taken.
  cbn [UserServiceImpl.repo].
  assert (Hrest : forall (st0 : UserServiceImpl.State (list User.t) K) m,
            (exists updatedUser st1, m st0 = (Ok (Some updatedUser), st1)) ->
            m st0 = (r, st') -> exists updatedUser : User.t, r = Ok (Some updatedUser)).
  { intros st0 m (updatedUser & st1 & ->) [= <- _]. eauto. }
  destruct (truthy (update_email userData)) as [email|]; [| finish_update].
  destruct (negb (String.eqb email (User.email user))); cbn [andb]; [| finish_update].
  destruct (InMemoryUserRepository.findByEmail email users) as [other|].
  - by intros [= <- _].
  - finish_update.
Qed.

(** X26. The status of every user endpoint over the in-memory
    repository, whatever the cache does; none of them is 500.  POST
    answers 400 without name or email, 409 for a stored email, else 201;
    PUT answers 400 without name and email, 404 for an unknown id, 409
    for an email of another stored user, else 200; DELETE answers 204 for
    a stored id, else 404; GET by id answers 200 for a cached or stored
    id, else 404; GET of all answers 200. *)
Theorem user_endpoints_over_memory st :
  (forall name email uuid created updated,
     UserController.status (UserController.createUser name email uuid created updated st).1
     = match truthy name, truthy email with
       | Some _, Some email =>
           match InMemoryUserRepository.findByEmail email (UserServiceImpl.repo st) with
           | Some _ => 409
           | None => 201
           end
       | _, _ => 400
       end) /\
  (forall id name email uuid created updated now,
     UserController.status
       (UserController.updateUser id name email uuid created updated now st).1
     = match truthy name, truthy email with
       | None, None => 400
       | _, _ =>
           match InMemoryUserRepository.findById id (UserServiceImpl.repo st) with
           | None => 404
           | Some user =>
               if email_taken email user (UserServiceImpl.repo st) then 409 else 200
           end
       end) /\
  (forall id,
     UserController.status (UserController.deleteUser id st).1
     = match InMemoryUserRepository.findById id (UserServiceImpl.repo st) with
       | Some _ => 204
       | None => 404
       end) /\
  (forall id,
     UserController.status (UserController.getUserById id st).1
     = match (port_get ("user:" +:+ id) (UserServiceImpl.cache st)).1,
             InMemoryUserRepository.findById id (UserServiceImpl.repo st) with
       | None, None => 404
       | _, _ => 200
       end) /\
  UserController.status (UserController.getAllUsers st).1 = 200.
Proof.
  split; [| split; [| split; [| split]]].
  - intros name email uuid created updated. unfold UserController.createUser.
    destruct (truthy name) as [n|]; [| reflexivity].
    destruct (truthy email) as [e|]; [| reflexivity].
    cbn zeta. rewrite createUser_cases.
    cbn [create_email UserController.log UserServiceImpl.logger UserServiceImpl.repo snd].
    by destruct (InMemoryUserRepository.findByEmail e (UserServiceImpl.repo st)).
  - intros id name email uuid created updated now. unfold UserController.updateUser.
    cbn [UserController.log UserServiceImpl.logger snd].
    destruct (UserServiceImpl.updateUser id _ uuid created updated now _) as [r st1]
      eqn:Hrun.
    apply updateUser_answer in Hrun as Hanswer.
    cbn [UserServiceImpl.repo update_email] in Hanswer.
    assert (Hstatus :
      UserController.status
        (match r with
         | Ok None => (UserController.mkResponse 404 (UserController.BodyMessage "User not found"), st1)
         | Ok (Some updatedUser) =>
             (UserController.mkResponse 200 (UserController.BodyUser updatedUser), st1)
         | Fail message =>
             if String.eqb message "Email is already taken"
             then (UserController.mkResponse 409 (UserController.BodyMessage message), st1)
             else (UserController.mkResponse 500
                     (UserController.BodyMessage "Internal server error"),
                   UserController.log LogError "Error updating user" st1)
         end).1
      = match InMemoryUserRepository.findById id (UserServiceImpl.repo st) with
        | None => 404
        | Some user => if email_taken email user (UserServiceImpl.repo st) then 409 else 200
        end).
    { destruct (InMemoryUserRepository.findById id (UserServiceImpl.repo st)) as [user|].
      - destruct (email_taken email user (UserServiceImpl.repo st)).
        + by rewrite Hanswer.
        + destruct Hanswer as [updatedUser ->]. reflexivity.
      - by rewrite Hanswer. }
    destruct (truthy name), (truthy email); first [exact Hstatus | reflexivity].
  - intros id. unfold UserController.deleteUser. cbn zeta. rewrite deleteUser_cases.
    cbn [UserController.log UserServiceImpl.logger UserServiceImpl.repo snd].
    by destruct (InMemoryUserRepository.findById id (UserServiceImpl.repo st)).
  - intros id. unfold UserController.getUserById. cbn zeta. rewrite getUserById_cases.
    cbn [UserController.log UserServiceImpl.logger UserServiceImpl.repo
         UserServiceImpl.cache snd].
    cbn zeta. destruct (port_get _ _).1; [reflexivity |].
    by destruct (InMemoryUserRepository.findById id (UserServiceImpl.repo st)).
  - unfold UserController.getAllUsers. cbn zeta. rewrite getAllUsers_cases.
    cbn zeta. by destruct (port_get _ _).1.
Qed.

Section WithLawfulCache.

Context `{!LawfulCache K}.


End WithLawfulCache.

End ControllerOverMemory.

Lemma user_endpoints_over_memory_witness :
  UserController.status
    (UserController.createUser (Some "Al"%string) (Some "alice@example.com"%string)
       "3" 5 5 two_users).1 = 409 /\
  UserController.status
    (UserController.updateUser "2" None (Some "alice@example.com"%string) "3" 5 5 9
       two_users).1 = 409 /\
  UserController.status (UserController.deleteUser "7" two_users).1 = 404.
Proof.
  destruct (user_endpoints_over_memory two_users) as (Hpost & Hput & Hdelete & _).
  rewrite Hpost, Hput, Hdelete. vm_compute. by repeat split.
Defined.


(** ** The user endpoints over a file that cannot be parsed *)

Section ControllerOverJson.

Context {K : Type} `{CachePort K}.

Variable codec : UsersCodec.

Local Abbreviation createUser :=
  (UserController.createUser (H := JsonUserRepository.repository codec)).
Local Abbreviation deleteUser :=
  (UserController.deleteUser (H := JsonUserRepository.repository codec)).
Local Abbreviation getUserById :=
  (UserController.getUserById (H := JsonUserRepository.repository codec)).
Local Abbreviation getAllUsers :=
  (UserController.getAllUsers (H := JsonUserRepository.repository codec)).

Implicit Types st : UserServiceImpl.State (option string) K.

(** X28. Over [JsonUserRepository] with a file that cannot be parsed,
    the endpoints that reach the repository answer 500 'Internal server
    error' and leave the file as it is: POST (with name and email) and
    DELETE always, GET by id and GET of all when the cache has no entry
    for the key.  When the cache has an entry, the two GET endpoints still
    answer 200 with the cached value. *)
Theorem unparsable_file_answers_500 (data message : string) st :
  parse_users codec data = Fail message ->
  message <> "User with this email already exists"%string ->
  UserServiceImpl.repo st = Some data ->
  let error := UserController.mkResponse 500
                 (UserController.BodyMessage "Internal server error") in
  (forall name email n e uuid created updated,
     truthy name = Some n -> truthy email = Some e ->
     (createUser name email uuid created updated st).1 = error /\
     UserServiceImpl.repo (createUser name email uuid created updated st).2
     = Some data) /\
  (forall id,
     (deleteUser id st).1 = error /\
     UserServiceImpl.repo (deleteUser id st).2 = Some data) /\
  (forall id,
     (getUserById id st).1
     = match (port_get ("user:" +:+ id) (UserServiceImpl.cache st)).1 with
       | Some cached => UserController.mkResponse 200 (UserController.BodyCached cached)
       | None => error
       end) /\
  (getAllUsers st).1
  = match (port_get "users:all" (UserServiceImpl.cache st)).1 with
    | Some cached => UserController.mkResponse 200 (UserController.BodyCached cached)
    | None => error
    end.
Proof.
  intros Hbad Hmessage Hrepo. destruct st as [file k lg]. cbn in Hrepo. subst file.
  cbn zeta.
  assert (Hneq : String.eqb message "User with this email already exists" = false)
    by by apply String.eqb_neq.
  split; [| split; [| split]].
  - intros name email n e uuid created updated Hn He.
    unfold UserController.createUser, UserServiceImpl.createUser, UserServiceImpl.bind,
      UserServiceImpl.userRepository, UserController.log.
    rewrite Hn, He. cbn. unfold JsonUserRepository.findByEmail, JsonUserRepository.readUsersFile.
    rewrite Hbad. cbn. rewrite Hneq. by split.
  - intros id.
    unfold UserController.deleteUser, UserServiceImpl.deleteUser, UserServiceImpl.bind,
      UserServiceImpl.userRepository, UserController.log.
    cbn. unfold JsonUserRepository.findById, JsonUserRepository.readUsersFile.
    rewrite Hbad. by split.
  - intros id.
    unfold UserController.getUserById, UserServiceImpl.getUserById.
    cbn zeta. unfold UserServiceImpl.bind at 1.
    unfold UserServiceImpl.cacheService, UserController.log.
    cbn [UserServiceImpl.logger UserServiceImpl.cache UserServiceImpl.repo
         UserServiceImpl.logs snd].
    destruct (port_get ("user:" +:+ id) k) as [[cached|] k1]; cbn [fst]; [reflexivity |].
    unfold UserServiceImpl.bind, UserServiceImpl.userRepository.
    cbn. unfold JsonUserRepository.findById, JsonUserRepository.readUsersFile.
    by rewrite Hbad.
  - unfold UserController.getAllUsers, UserServiceImpl.getAllUsers.
    cbn zeta. unfold UserServiceImpl.bind at 1.
    unfold UserServiceImpl.cacheService, UserController.log.
    cbn [UserServiceImpl.logger UserServiceImpl.cache UserServiceImpl.repo
         UserServiceImpl.logs snd].
    destruct (port_get "users:all" k) as [[cached|] k1]; cbn [fst]; [reflexivity |].
    unfold UserServiceImpl.bind, UserServiceImpl.userRepository.
    cbn. unfold JsonUserRepository.findAll, JsonUserRepository.readUsersFile.
    by rewrite Hbad.
Qed.

End ControllerOverJson.

Lemma unparsable_file_answers_500_witness :
  (UserController.getAllUsers (H := JsonUserRepository.repository rejecting_codec)
     (UserServiceImpl.mkState (Some ""%string)
        ({[ "users:all"%string := CachedUsers [alice] ]} : gmap string Cached) [])).1
  = UserController.mkResponse 200 (UserController.BodyCached (CachedUsers [alice])).
Proof.
  destruct (unparsable_file_answers_500 (K := gmap string Cached) rejecting_codec
              "" "Unexpected end of JSON input"
              (UserServiceImpl.mkState (Some ""%string)
                 {[ "users:all"%string := CachedUsers [alice] ]} [])
              eq_refl ltac:(discriminate) eq_refl)
    as (_ & _ & _ & Hall).
  rewrite Hall. vm_compute. reflexivity.
Defined.

(** ** The health check *)

Lemma remote_get_hit (J : JsonCodec) (w : World) (key text : string) (v : JsValue) :
  isAvailable w = true ->
  Client.live w key = Some text ->
  text <> ""%string ->
  parse J text = Some v ->
  RedisCache.get J key false w = (v, emit (EvClient (ClientGet key)) w).
Proof.
  intros Hon Hlive Htext Hp. unfold RedisCache.get, Client.get. rewrite Hon.
  cbn [negb]. rewrite live_emit, Hlive. cbn [RedisCache.falsy default from_option].
  unfold Datatypes.id.
  replace (String.eqb text "") with false by (symmetry; by apply String.eqb_neq).
  by rewrite Hp.
Qed.

Lemma remote_get_fault (J : JsonCodec) (w : World) (key : string) :
  isAvailable w = true ->
  RedisCache.get J key true w
  = (JsNull, log Warn (MsgGetFailed key) (emit (EvClient (ClientGet key)) w)).
Proof. intros Hon. unfold RedisCache.get, Client.get. by rewrite Hon. Qed.

(** X29. The health check over a [RedisCache].  On an unavailable
    instance it reports 'Failed to set test value in Redis' without
    calling the client.  On an available one whose test value comes back
    truthy it reports 'ok' whether or not the final [delete] works, and
    the test key is gone only if it did.  If [set] worked and [get]
    fails, it reports 'Failed to get test value from Redis' and the test
    key stays stored. *)
Theorem healthCheck_outcomes (J : JsonCodec) (testValue : JsValue) (uptime : Z)
    (w : World) :
  (isAvailable w = false ->
   forall set_fault get_fault delete_fault,
     HealthCheck.healthCheck J testValue uptime set_fault get_fault delete_fault w
     = (HealthCheck.mkReport "error" (now w) uptime "error"
          "Failed to set test value in Redis", w)) /\
  (isAvailable w = true ->
   forall text v',
     stringify J testValue = Some text -> text <> ""%string ->
     parse J text = Some v' -> js_truthy v' = true ->
     (forall delete_fault,
        exists w',
          HealthCheck.healthCheck J testValue uptime false false delete_fault w
          = (HealthCheck.mkReport "ok" (now w) uptime "ok" "Redis is working properly", w') /\
          Client.live w' HealthCheck.testKey = if delete_fault then Some text else None) /\
     (exists w',
        HealthCheck.healthCheck J testValue uptime false true false w
        = (HealthCheck.mkReport "error" (now w) uptime "error"
             "Failed to get test value from Redis", w') /\
        Client.live w' HealthCheck.testKey = Some text)).
Proof.
  split.
  - intros Hoff set_fault get_fault delete_fault.
    unfold HealthCheck.healthCheck, RedisCache.set. by rewrite Hoff.
  - intros Hon text v' Hs Htext Hp Htruthy.
    set (w1 := with_backing
                 (<[HealthCheck.testKey := (text, now w + RedisCache.expiry_of None * 1000)]>
                    (backing w))
                 (emit (EvClient (ClientSetEx HealthCheck.testKey (RedisCache.expiry_of None)
                                    (Some text))) w)).
    assert (Hset : RedisCache.set J HealthCheck.testKey testValue None false w = (true, w1)).
    { unfold RedisCache.set, Client.setEx. rewrite Hon, Hs. reflexivity. }
    assert (Hon1 : isAvailable w1 = true) by exact Hon.
    assert (Hlive : Client.live w1 HealthCheck.testKey = Some text).
    { unfold Client.live. subst w1. cbn [backing with_backing]. rewrite lookup_insert_eq.
      change (now (with_backing _ (emit _ w))) with (now w).
      replace (now w <? now w + RedisCache.expiry_of None * 1000) with true; [reflexivity |].
      symmetry. apply Z.ltb_lt. unfold RedisCache.expiry_of, RedisCache.defaultTtl. lia. }
    split.
    + intros delete_fault. unfold HealthCheck.healthCheck. rewrite Hset. cbn [negb].
      rewrite (remote_get_hit J w1 HealthCheck.testKey text v' Hon1 Hlive Htext Hp).
      rewrite Htruthy. cbn [negb].
      unfold RedisCache.delete, Client.del.
      replace (isAvailable (emit (EvClient (ClientGet HealthCheck.testKey)) w1))
        with true by (symmetry; exact Hon).
      cbn [negb]. destruct delete_fault.
      * eexists. split; [reflexivity |]. exact Hlive.
      * eexists. split; [reflexivity |].
        unfold Client.live. cbn [backing with_backing]. by rewrite lookup_delete_eq.
    + unfold HealthCheck.healthCheck. rewrite Hset. cbn [negb].
      rewrite (remote_get_fault J w1 HealthCheck.testKey Hon1). cbn [js_truthy negb].
      eexists. split; [reflexivity |]. exact Hlive.
Qed.

Lemma healthCheck_outcomes_witness :
  exists w',
    HealthCheck.healthCheck JSON.scalar (JsBool true) 12 false false false connected_world
    = (HealthCheck.mkReport "ok" (now connected_world) 12 "ok" "Redis is working properly",
       w') /\
    Client.live w' HealthCheck.testKey = None.
Proof.
  assert (Hon : isAvailable connected_world = true) by (vm_compute; reflexivity).
  destruct (healthCheck_outcomes JSON.scalar (JsBool true) 12 connected_world) as [_ Hok].
  destruct (Hok Hon "true"%string (JsBool true) eq_refl ltac:(discriminate) eq_refl eq_refl)
    as [Hdone _].
  destruct (Hdone false) as (w' & Hrun & Hgone).
  by exists w'.
Defined.

(** ** A deletion in the in-memory repository, on two users *)

Lemma in_memory_delete_then_find_witness :
  InMemoryUserRepository.findById "2" (InMemoryUserRepository.delete "1" [alice; bob])
  = InMemoryUserRepository.findById "2" [alice; bob].
Proof.
  destruct (in_memory_delete_then_find "1" [alice; bob]) as (_ & Hother & _).
  apply Hother. discriminate.
Defined.
